(** * Articles controller: a shallow embedding

    The articles controller of the publishing API ([src/lib/server.js],
    third document: [bySlug], [get], [getOne], [post], [put], [del],
    [feed.get], [favorite.post], [favorite.del]) is rendered as functions of
    a state-and-exception monad over a relational store.  Every statement the
    controller sends to the store is recorded in a log, so that "issues no
    statement" and "retries exactly once" are properties of the final world. *)

From Stdlib Require Import List String Ascii ZArith Bool Arith Lia Permutation.
From Stdlib Require Import DecimalString DecimalNat.
Import ListNotations.
Local Open Scope string_scope.
Local Open Scope list_scope.

Set Implicit Arguments.

(* ===================================================================== *)
(** * JavaScript values and the built-ins the controller calls            *)
(* ===================================================================== *)

Module Js.

(** The values a store driver puts in an error object or in a count row. *)
Inductive value :=
| undefined
| null
| num (n : Z)
| str (s : string).

(** [Boolean(v)], the test behind [a || b]. *)
Definition truthy (v : value) : bool :=
  match v with
  | undefined | null => false
  | num n => negb (n =? 0)%Z
  | str s => negb (s =? "")
  end.

(** [a || b]. *)
Definition or (a b : value) : value := if truthy a then a else b.

Definition digit_of (c : ascii) : option Z :=
  let n := nat_of_ascii c in
  if (48 <=? n)%nat && (n <=? 57)%nat then Some (Z.of_nat (n - 48)) else None.

Definition is_space (c : ascii) : bool :=
  let n := nat_of_ascii c in
  (n =? 32)%nat || ((9 <=? n)%nat && (n <=? 13)%nat).

(** The longest run of decimal digits at the head of [s]; [acc] is the
    value read so far ([None]: no digit yet). *)
Fixpoint digits_prefix (s : string) (acc : option Z) : option Z :=
  match s with
  | EmptyString => acc
  | String c r =>
      match digit_of c with
      | Some d =>
          digits_prefix r
            (Some (10 * (match acc with Some a => a | None => 0 end) + d)%Z)
      | None => acc
      end
  end.

Fixpoint skip_spaces (s : string) : string :=
  match s with
  | String c r => if is_space c then skip_spaces r else s
  | EmptyString => s
  end.

(** [parseInt(s, 10)] on a string: leading white space, an optional sign,
    then as many digits as there are; [None] is NaN. *)
Definition parseInt_string (s : string) : option Z :=
  match skip_spaces s with
  | String "-" r => option_map Z.opp (digits_prefix r None)
  | String "+" r => digits_prefix r None
  | r => digits_prefix r None
  end.

(** [parseInt(v, 10)]: the argument is first turned into a string, so
    [undefined] and [null] give NaN and an integer gives itself. *)
Definition parseInt (v : value) : option Z :=
  match v with
  | undefined | null => None
  | num n => Some n
  | str s => parseInt_string s
  end.

(** [Number(v)] on the values a count can be: integers and their decimal
    strings ([Number("") = 0]; any other string is NaN, written [None]). *)
Definition Number (v : value) : option Z :=
  match v with
  | undefined => None
  | null => Some 0%Z
  | num n => Some n
  | str s =>
      match s with
      | EmptyString => Some 0%Z
      | _ => option_map (fun d => Z.of_nat (Nat.of_uint d))
               (NilEmpty.uint_of_string s)
      end
  end.

(** The decimal string of a natural number, as a driver prints a count. *)
Definition decimal (n : nat) : string :=
  NilEmpty.string_of_uint (Nat.to_uint n).

(** [s.substr(-k)]: the last [k] characters of [s]. *)
Definition substr_last (k : nat) (s : string) : string :=
  substring (String.length s - k) k s.

End Js.

(* ===================================================================== *)
(** * Rows of the six tables                                              *)
(* ===================================================================== *)

Module Article.
Record row := mk {
  id : string;
  slug : string;
  title : string;
  body : string;
  description : string;
  favorites_count : Z;
  created_at : string;
  updated_at : string;
  author : string
}.

(** The argument of [.update({...})]: the columns to overwrite. *)
Record patch := mkPatch {
  p_id : option string;
  p_slug : option string;
  p_title : option string;
  p_body : option string;
  p_description : option string;
  p_favorites_count : option Z;
  p_created_at : option string;
  p_updated_at : option string;
  p_author : option string
}.

Definition over {A} (o : option A) (x : A) : A :=
  match o with Some y => y | None => x end.

Definition apply (p : patch) (r : row) : row :=
  {| id := over (p_id p) (id r);
     slug := over (p_slug p) (slug r);
     title := over (p_title p) (title r);
     body := over (p_body p) (body r);
     description := over (p_description p) (description r);
     favorites_count := over (p_favorites_count p) (favorites_count r);
     created_at := over (p_created_at p) (created_at r);
     updated_at := over (p_updated_at p) (updated_at r);
     author := over (p_author p) (author r) |}.

Definition bump (d : Z) (r : row) : row :=
  {| id := id r; slug := slug r; title := title r; body := body r;
     description := description r;
     favorites_count := (favorites_count r + d)%Z;
     created_at := created_at r; updated_at := updated_at r;
     author := author r |}.

(** What a caller may put under the [author] key of a payload. *)
Inductive author_field :=
| AuthorNull
| AuthorScalar (s : string)
| AuthorObject (id : option string).

(** [body.article]: the keys of an article, each supplied or not.  The two
    spellings of a key ([favorites_count], [favoritesCount]) are one field:
    [humps.camelizeKeys] merges them before the schema sees the object. *)
Record fields := mkFields {
  f_id : option string;
  f_slug : option string;
  f_title : option string;
  f_body : option string;
  f_description : option string;
  f_favoritesCount : option Z;
  f_createdAt : option string;
  f_updatedAt : option string;
  f_author : option author_field;
  f_tagList : option (list string);
  f_favorited : option bool
}.

(** The object handed to the article schema. *)
Record draft := mkDraft {
  d_id : option string;
  d_slug : option string;
  d_title : option string;
  d_body : option string;
  d_description : option string;
  d_favoritesCount : option Z;
  d_createdAt : option string;
  d_updatedAt : option string;
  d_author : option string;
  d_tagList : option (list string);
  d_favorited : option bool
}.

(** The object the article schema returns.  The schema is not among the
    sources; a validated article is taken to carry every column of the
    [articles] table, and a tag list or none. *)
Record valid := mkValid {
  columns : row;
  tagList : option (list string)
}.

Definition with_slug (s : string) (r : row) : row :=
  {| id := id r; slug := s; title := title r; body := body r;
     description := description r; favorites_count := favorites_count r;
     created_at := created_at r; updated_at := updated_at r;
     author := author r |}.

Definition with_updated_at (t : string) (r : row) : row :=
  {| id := id r; slug := slug r; title := title r; body := body r;
     description := description r; favorites_count := favorites_count r;
     created_at := created_at r; updated_at := t;
     author := author r |}.

(** An article object as the controller holds it and as a response shows
    it: the columns of the row but [author], which is an object of its own
    ([A] is a reference while the request runs and the object itself in the
    rendered response). *)
Record view (A : Type) := mkView {
  v_id : string;
  v_slug : string;
  v_title : string;
  v_body : string;
  v_description : string;
  v_favorites_count : Z;
  v_created_at : string;
  v_updated_at : string;
  v_author : A;
  v_tagList : option (list string);
  v_favorited : bool
}.

Definition view_of_row {A} (r : row) (a : A) (tl : option (list string))
    (fav : bool) : view A :=
  {| v_id := id r; v_slug := slug r; v_title := title r; v_body := body r;
     v_description := description r;
     v_favorites_count := favorites_count r;
     v_created_at := created_at r; v_updated_at := updated_at r;
     v_author := a; v_tagList := tl; v_favorited := fav |}.

Definition with_author {A B} (b : B) (v : view A) : view B :=
  {| v_id := v_id v; v_slug := v_slug v; v_title := v_title v;
     v_body := v_body v; v_description := v_description v;
     v_favorites_count := v_favorites_count v;
     v_created_at := v_created_at v; v_updated_at := v_updated_at v;
     v_author := b; v_tagList := v_tagList v; v_favorited := v_favorited v |}.

(** [article.favorited = b; article.favorites_count = n]. *)
Definition with_favorite {A} (b : bool) (n : Z) (v : view A) : view A :=
  {| v_id := v_id v; v_slug := v_slug v; v_title := v_title v;
     v_body := v_body v; v_description := v_description v;
     v_favorites_count := n;
     v_created_at := v_created_at v; v_updated_at := v_updated_at v;
     v_author := v_author v; v_tagList := v_tagList v; v_favorited := b |}.
End Article.

Module User.
(** The columns of [users] the controller selects. *)
Record row := mk {
  id : string;
  username : string;
  bio : string;
  image : string
}.

(** The author object of a response.  [id] is [None] once the key has been
    deleted (or was never copied). *)
Record obj := mkObj {
  o_id : option string;
  o_username : string;
  o_bio : string;
  o_image : string;
  o_following : bool
}.
End User.

Module Tag.
Record row := mk { id : string; name : string }.
End Tag.

Module ArticleTag.
Record row := mk { id : string; tag : string; article : string }.
End ArticleTag.

Module Favorite.
Record row := mk { id : string; user : string; article : string }.
End Favorite.

Module Follower.
Record row := mk { id : string; user : string; follower : string }.
End Follower.

Record Store := mkStore {
  articles : list Article.row;
  users : list User.row;
  tags : list Tag.row;
  articles_tags : list ArticleTag.row;
  favorites : list Favorite.row;
  followers : list Follower.row
}.

Definition set_articles (l : list Article.row) (s : Store) : Store :=
  mkStore l (users s) (tags s) (articles_tags s) (favorites s) (followers s).
Definition set_tags (l : list Tag.row) (s : Store) : Store :=
  mkStore (articles s) (users s) l (articles_tags s) (favorites s) (followers s).
Definition set_articles_tags (l : list ArticleTag.row) (s : Store) : Store :=
  mkStore (articles s) (users s) (tags s) l (favorites s) (followers s).
Definition set_favorites (l : list Favorite.row) (s : Store) : Store :=
  mkStore (articles s) (users s) (tags s) (articles_tags s) l (followers s).

(** [whereIn(col, xs)]: membership of a string in a list of strings. *)
Definition mem (x : string) (xs : list string) : bool :=
  existsb (String.eqb x) xs.

(* ===================================================================== *)
(** * Errors                                                              *)
(* ===================================================================== *)

(** What a driver's error object carries for the controller. *)
Record DbError := mkDbError { errno : Js.value; code : Js.value }.

(** The condition of the three [ctx.assert(parseInt(err.errno, 10) === 19 ||
    parseInt(err.code, 10) === 23505, err)]. *)
Definition is_unique_violation (err : DbError) : bool :=
  match Js.parseInt (errno err) with Some n => (n =? 19)%Z | None => false end
  || match Js.parseInt (code err) with Some n => (n =? 23505)%Z | None => false end.

(** The two engine families whose violation signal the controller knows. *)
Inductive Dialect := Sqlite3 | Postgres.

Definition unique_error (d : Dialect) : DbError :=
  match d with
  | Sqlite3 => {| errno := Js.num 19; code := Js.str "SQLITE_CONSTRAINT" |}
  | Postgres => {| errno := Js.undefined; code := Js.str "23505" |}
  end.

Inductive Exn :=
| HttpError (status : Z)
    (** [ctx.assert(x, 404)] *)
| ValidationError (status : Z) (errors : list string) (value path : string)
    (** [ctx.assert(c, 422, new ValidationError(errors, value, path))], and
        what a schema raises *)
| StoreError (err : DbError)
    (** a rejected statement, rethrown as it is *)
| TypeError (what : string).
    (** a property read on [undefined] or [null] *)

Inductive Result (A : Type) :=
| Ok (a : A)
| Throw (e : Exn).
Arguments Ok {A} a.
Arguments Throw {A} e.

(* ===================================================================== *)
(** * The store: statements and what they do                              *)
(* ===================================================================== *)

Module Query.
(** [ctx.query] of a list request.  A filter that is absent and a filter
    that is an empty array are treated alike by the controller
    ([x && x.length > 0]); both are the empty list here. *)
Record t := mk {
  offset : nat;
  limit : nat;
  tag : list string;
  author : list string;
  favorited : list string
}.
End Query.

(** One row of the joined select of [get] and [feed.get].  The alias
    [tag_id] is given twice ([articles_tags.id], then [tags.id]); the row
    keeps the second. *)
Record Joined := mkJoined {
  j_article : Article.row;
  j_author : option User.row;
  j_tag : option Tag.row;
  j_favorited : option string;
  j_following : option string
}.

(** [countRes]: the row a count query returns, under the key of the engine. *)
Record CountRow := mkCountRow {
  count : Js.value;
  count_star : Js.value
}.

Inductive Stmt :=
| SelectArticleBySlug (slug : string)
| SelectArticleTags (article : string)
| SelectTagsById (ids : list string)
| SelectUserById (id : string)
| SelectFollowers (user follower : string)
| SelectFavorites (user article : string)
| SelectArticles (q : Query.t) (viewer : option string)
| CountArticles (q : Query.t)
| PluckFollowed (follower : string)
| SelectFeed (followed : list string) (limit offset : nat) (viewer : option string)
| CountFeed (followed : list string)
| SelectTagsByName (names : list string)
| InsertArticle (r : Article.row)
| UpdateArticle (p : Article.patch) (id : string)
| DeleteArticle (id : string)
| InsertTag (t : Tag.row)
| InsertArticleTags (rows : list ArticleTag.row)
| DeleteArticleTags (article : string)
| InsertFavorite (f : Favorite.row)
| DeleteFavorites (user article : string)
| IncrementFavorites (id : string) (by_ : Z)
| DecrementFavorites (id : string) (by_ : Z).

(** A statement that writes: everything but the selects and counts. *)
Definition is_mutation (s : Stmt) : bool :=
  match s with
  | InsertArticle _ | UpdateArticle _ _ | DeleteArticle _
  | InsertTag _ | InsertArticleTags _ | DeleteArticleTags _
  | InsertFavorite _ | DeleteFavorites _ _
  | IncrementFavorites _ _ | DecrementFavorites _ _ => true
  | _ => false
  end.

Definition count_slug (s : string) (l : list Article.row) : nat :=
  List.length (filter (fun r => Article.slug r =? s) l).

Definition has_id (i : string) (l : list Article.row) : bool :=
  existsb (fun r => Article.id r =? i) l.

(** Modelled from the spec: the schema of the store is not among the
    sources; the store is a relational store with unique constraints on
    [articles.slug] and [tags.name], which answers a violation with the
    signal of its engine.  Every other statement succeeds on the rows. *)
Definition apply_stmt (d : Dialect) (s : Stmt) (st : Store) : DbError + Store :=
  match s with
  | InsertArticle r =>
      if (0 <? count_slug (Article.slug r) (articles st))%nat
      then inl (unique_error d)
      else inr (set_articles (articles st ++ [r]) st)
  | UpdateArticle p i =>
      let rows :=
        map (fun r => if Article.id r =? i then Article.apply p r else r)
          (articles st) in
      match Article.p_slug p with
      | Some s =>
          if has_id i (articles st) && (1 <? count_slug s rows)%nat
          then inl (unique_error d)
          else inr (set_articles rows st)
      | None => inr (set_articles rows st)
      end
  | DeleteArticle i =>
      inr (set_articles
             (filter (fun r => negb (Article.id r =? i)) (articles st)) st)
  | InsertTag t =>
      if existsb (fun x => Tag.name x =? Tag.name t) (tags st)
      then inl (unique_error d)
      else inr (set_tags (tags st ++ [t]) st)
  | InsertArticleTags rows =>
      inr (set_articles_tags (articles_tags st ++ rows) st)
  | DeleteArticleTags a =>
      inr (set_articles_tags
             (filter (fun r => negb (ArticleTag.article r =? a))
                (articles_tags st)) st)
  | InsertFavorite f =>
      inr (set_favorites (favorites st ++ [f]) st)
  | DeleteFavorites u a =>
      inr (set_favorites
             (filter (fun r => negb ((Favorite.user r =? u)
                                     && (Favorite.article r =? a)))
                (favorites st)) st)
  | IncrementFavorites i n =>
      inr (set_articles
             (map (fun r => if Article.id r =? i then Article.bump n r else r)
                (articles st)) st)
  | DecrementFavorites i n =>
      inr (set_articles
             (map (fun r => if Article.id r =? i then Article.bump (- n) r
                            else r)
                (articles st)) st)
  | _ => inr st
  end.

(** ** What the selects return *)

(** [db("articles").first().where({ slug })] *)
Definition first_article (st : Store) (slug : string) : option Article.row :=
  find (fun r => Article.slug r =? slug) (articles st).

(** [db("articles_tags").select().where({ article })] *)
Definition rows_articles_tags (st : Store) (a : string) : list ArticleTag.row :=
  filter (fun r => ArticleTag.article r =? a) (articles_tags st).

(** [db("tags").select().whereIn("id", ids)] *)
Definition rows_tags_by_id (st : Store) (ids : list string) : list Tag.row :=
  filter (fun t => mem (Tag.id t) ids) (tags st).

(** [db("tags").select().whereIn("name", names)] *)
Definition rows_tags_by_name (st : Store) (names : list string) : list Tag.row :=
  filter (fun t => mem (Tag.name t) names) (tags st).

(** [db("users").first("username", "bio", "image", "id").where({ id })] *)
Definition first_user (st : Store) (i : string) : option User.row :=
  find (fun u => User.id u =? i) (users st).

(** [db("followers").where({ user, follower }).select()] *)
Definition rows_followers (st : Store) (u f : string) : list Follower.row :=
  filter (fun r => (Follower.user r =? u) && (Follower.follower r =? f))
    (followers st).

(** [db("favorites").where({ user, article }).select()] *)
Definition rows_favorites (st : Store) (u a : string) : list Favorite.row :=
  filter (fun r => (Favorite.user r =? u) && (Favorite.article r =? a))
    (favorites st).

(** [db("followers").pluck("user").where({ follower })] *)
Definition followed_ids (st : Store) (f : string) : list string :=
  map Follower.user
    (filter (fun r => Follower.follower r =? f) (followers st)).

(** ** The list query *)

Definition nonempty {A} (l : list A) : bool :=
  match l with [] => false | _ => true end.

(** [db("users").select("id").whereIn("username", names)] *)
Definition user_ids_named (st : Store) (names : list string) : list string :=
  map User.id (filter (fun u => mem (User.username u) names) (users st)).

(** The three [andWhere(..., "in", subQuery)] of [get], each present only
    when its filter is given.  The same predicates go to the row query and
    to the count query. *)
Definition where_author (st : Store) (q : Query.t) (a : Article.row) : bool :=
  if nonempty (Query.author q)
  then mem (Article.author a) (user_ids_named st (Query.author q))
  else true.

Definition where_favorited (st : Store) (q : Query.t) (a : Article.row) : bool :=
  if nonempty (Query.favorited q)
  then mem (Article.id a)
         (map Favorite.article
            (filter (fun f => mem (Favorite.user f)
                                (user_ids_named st (Query.favorited q)))
               (favorites st)))
  else true.

Definition where_tag (st : Store) (q : Query.t) (a : Article.row) : bool :=
  if nonempty (Query.tag q)
  then mem (Article.id a)
         (map ArticleTag.article
            (filter (fun r => mem (ArticleTag.tag r)
                                (map Tag.id
                                   (rows_tags_by_name st (Query.tag q))))
               (articles_tags st)))
  else true.

Definition satisfies (st : Store) (q : Query.t) (a : Article.row) : bool :=
  where_author st q a && where_favorited st q a && where_tag st q a.

(** A left join keeps the row on the left when nothing matches. *)
Definition left_join {A} (l : list A) : list (option A) :=
  match l with [] => [None] | _ => map Some l end.

(** [onIn(col, [user && user.id])]: no row matches an absent viewer. *)
Definition is_viewer (viewer : option string) (x : string) : bool :=
  match viewer with Some v => x =? v | None => false end.

(** The five left joins of [get], for one article.  [feed.get] has the
    first four ([with_followers = false]). *)
Definition join_article (st : Store) (viewer : option string)
    (with_followers : bool) (a : Article.row) : list Joined :=
  flat_map (fun u =>
  flat_map (fun at_ =>
  flat_map (fun t =>
  flat_map (fun f =>
  map (fun fo =>
         mkJoined a u t (option_map Favorite.id f) (option_map Follower.id fo))
    (if with_followers
     then left_join
            (filter (fun r => (Follower.user r =? Article.author a)
                              && is_viewer viewer (Follower.follower r))
               (followers st))
     else [None]))
    (left_join
       (filter (fun r => (Favorite.article r =? Article.id a)
                         && is_viewer viewer (Favorite.user r))
          (favorites st))))
    (match at_ with
     | Some r => left_join (filter (fun t => Tag.id t =? ArticleTag.tag r)
                              (tags st))
     | None => [None]
     end))
    (left_join (rows_articles_tags st (Article.id a))))
    (left_join (filter (fun u => User.id u =? Article.author a) (users st))).

(** [orderBy(col, "desc")], as a stable insertion sort. *)
Fixpoint insert_desc {A} (key : A -> string) (x : A) (l : list A) : list A :=
  match l with
  | [] => [x]
  | y :: r => if String.ltb (key x) (key y) then y :: insert_desc key x r
              else x :: l
  end.

Fixpoint order_desc {A} (key : A -> string) (l : list A) : list A :=
  match l with
  | [] => []
  | x :: r => insert_desc key x (order_desc key r)
  end.

Definition created (j : Joined) : string := Article.created_at (j_article j).

(** [.limit(limit).offset(offset)] *)
Definition page {A} (limit offset : nat) (l : list A) : list A :=
  firstn limit (skipn offset l).

(** The row query of [get], before and after [limit] and [offset]. *)
Definition joined_articles (st : Store) (q : Query.t) (viewer : option string)
  : list Joined :=
  order_desc created
    (flat_map (join_article st viewer true)
       (filter (satisfies st q) (articles st))).

Definition rows_articles (st : Store) (q : Query.t) (viewer : option string)
  : list Joined :=
  page (Query.limit q) (Query.offset q) (joined_articles st q viewer).

(** The count row, as each engine family writes it. *)
Definition count_row (d : Dialect) (n : nat) : CountRow :=
  match d with
  | Sqlite3 => {| count := Js.undefined; count_star := Js.num (Z.of_nat n) |}
  | Postgres => {| count := Js.str (Js.decimal n); count_star := Js.undefined |}
  end.

(** The count query of [get]: [db("articles").count()] and the filters. *)
Definition count_articles (d : Dialect) (st : Store) (q : Query.t) : CountRow :=
  count_row d (List.length (filter (satisfies st q) (articles st))).

(** The two queries of [feed.get]. *)
Definition rows_feed (st : Store) (followed : list string) (limit offset : nat)
    (viewer : option string) : list Joined :=
  page limit offset
    (order_desc created
       (flat_map (join_article st viewer false)
          (filter (fun a => mem (Article.author a) followed) (articles st)))).

Definition count_feed (d : Dialect) (st : Store) (followed : list string)
  : CountRow :=
  count_row d
    (List.length (filter (fun a => mem (Article.author a) followed) (articles st))).

(* ===================================================================== *)
(** * The row materializer                                                *)
(* ===================================================================== *)

Record MappedAuthor := mkMappedAuthor {
  ma_row : User.row;
  ma_following : option string
}.

Record Mapped := mkMapped {
  m_columns : Article.row;
  m_favorited : option string;
  m_author : option MappedAuthor;
  m_tagList : list Tag.row
}.

Definition first_some {A} (a b : option A) : option A :=
  match a with Some _ => a | None => b end.

Definition is_some {A} (a : option A) : bool :=
  match a with Some _ => true | None => false end.

Definition add_tag (t : option Tag.row) (l : list Tag.row) : list Tag.row :=
  match t with
  | None => l
  | Some t => if existsb (fun x => Tag.name x =? Tag.name t) l then l
              else l ++ [t]
  end.

Definition fresh_mapped (j : Joined) : Mapped :=
  {| m_columns := j_article j;
     m_favorited := j_favorited j;
     m_author := option_map (fun u => mkMappedAuthor u (j_following j))
                   (j_author j);
     m_tagList := add_tag (j_tag j) [] |}.

Definition merge_mapped (j : Joined) (m : Mapped) : Mapped :=
  {| m_columns := m_columns m;
     m_favorited := first_some (m_favorited m) (j_favorited j);
     m_author :=
       match m_author m with
       | Some a => Some (mkMappedAuthor (ma_row a)
                           (first_some (ma_following a) (j_following j)))
       | None => option_map (fun u => mkMappedAuthor u (j_following j))
                   (j_author j)
       end;
     m_tagList := add_tag (j_tag j) (m_tagList m) |}.

Fixpoint inject (j : Joined) (acc : list Mapped) : list Mapped :=
  match acc with
  | [] => [fresh_mapped j]
  | m :: rest =>
      if Article.id (m_columns m) =? Article.id (j_article j)
      then merge_mapped j m :: rest
      else m :: inject j rest
  end.

(** Modelled from the spec: [joinJs.map(rows, relationsMaps, "articleMap",
    "article_")]; the relation maps ([lib/relations-map]) are not among the
    sources.  One record per distinct article id, in the order of first
    appearance; the tag list is the tag rows of the group without repeated
    names; the favorite and the follow marker of a record are non-null as
    soon as one row of its group carries one. *)
Definition joinjs_map (rows : list Joined) : list Mapped :=
  fold_left (fun acc j => inject j acc) rows [].

(* ===================================================================== *)
(** * The world of a request and its monad                                *)
(* ===================================================================== *)

(** What the controller takes from outside: the engine, the errors the store
    may answer with whatever the rows are (the n-th statement of the log
    fails with [fault_at n]: a lost connection, a constraint the model of
    the store does not have), the
    generators behind [uuid()] and [new Date()], the [slug] package and the
    two schemas. *)
Record Env := mkEnv {
  dialect : Dialect;
  fault_at : nat -> option DbError;
  uuid_at : nat -> string;
  now_at : nat -> string;
  slugify : string -> string;
  validate_article : Article.draft -> Exn + Article.valid;
  validate_tag : Tag.row -> Exn + Tag.row
}.

(** References to the author objects of a request. *)
Definition loc := nat.

(** One statement sent to the store, with the error it was answered with,
    if any. *)
Record Event := mkEvent {
  stmt : Stmt;
  answer : option DbError
}.

Record World := mkWorld {
  db : Store;
  log : list Event;
  drawn : nat;
  heap : list User.obj
}.

Definition M (A : Type) : Type := World -> World * Result A.

Definition ret {A} (a : A) : M A := fun w => (w, Ok a).

Definition throw {A} (e : Exn) : M A := fun w => (w, Throw e).

Definition bind {A B} (m : M A) (k : A -> M B) : M B :=
  fun w =>
    match m w with
    | (w1, Ok a) => k a w1
    | (w1, Throw e) => (w1, Throw e)
    end.

(** [try { m } catch (err) { h(err) }] *)
Definition catch {A} (m : M A) (h : Exn -> M A) : M A :=
  fun w =>
    match m w with
    | (w1, Ok a) => (w1, Ok a)
    | (w1, Throw e) => h e w1
    end.

Notation "x <- m ;; k" := (bind m (fun x => k))
  (at level 61, m at next level, right associativity).
Notation "m ;; k" := (bind m (fun _ => k))
  (at level 61, right associativity).

(** [ctx.assert(c, ...)] *)
Definition assert (c : bool) (e : Exn) : M unit :=
  if c then ret tt else throw e.

Definition lift {A} (r : Exn + A) : M A :=
  match r with inl e => throw e | inr a => ret a end.

Definition lift_result {A} (r : Result A) : M A :=
  match r with Throw e => throw e | Ok a => ret a end.

(** [Promise.all] of statements already built: each one runs, in the order
    of the array; the whole rejects with the first rejection. *)
Fixpoint promise_all (ps : list (M unit)) : M unit :=
  fun w =>
    match ps with
    | [] => (w, Ok tt)
    | p :: rest =>
        let (w1, r1) := p w in
        let (w2, r2) := promise_all rest w1 in
        (w2, match r1 with Throw e => Throw e | Ok _ => r2 end)
    end.

Definition promise_all2 {A B} (p : M A) (q : M B) : M (A * B) :=
  fun w =>
    let (w1, r1) := p w in
    let (w2, r2) := q w1 in
    (w2, match r1, r2 with
         | Throw e, _ => Throw e
         | Ok _, Throw e => Throw e
         | Ok a, Ok b => Ok (a, b)
         end).

(** [xs.map(f)] with a callback that may throw. *)
Fixpoint map_result {A B} (f : A -> Result B) (l : list A) : Result (list B) :=
  match l with
  | [] => Ok []
  | x :: r =>
      match f x with
      | Throw e => Throw e
      | Ok y => match map_result f r with
                | Throw e => Throw e
                | Ok ys => Ok (y :: ys)
                end
      end
  end.

Fixpoint map_m {A B} (f : A -> M B) (l : list A) : M (list B) :=
  match l with
  | [] => ret []
  | x :: r => y <- f x ;; ys <- map_m f r ;; ret (y :: ys)
  end.

(** ** The heap of author objects *)

Definition alloc (o : User.obj) : M loc :=
  fun w => (mkWorld (db w) (log w) (drawn w) (heap w ++ [o]),
            Ok (List.length (heap w))).

Definition deref (l : loc) : M User.obj :=
  fun w => match nth_error (heap w) l with
           | Some o => (w, Ok o)
           | None => (w, Throw (TypeError "author"))
           end.

Fixpoint update_nth {A} (n : nat) (f : A -> A) (l : list A) : list A :=
  match l, n with
  | [], _ => []
  | x :: r, O => f x :: r
  | x :: r, S n => x :: update_nth n f r
  end.

Definition modify_obj (l : loc) (f : User.obj -> User.obj) : M unit :=
  fun w => (mkWorld (db w) (log w) (drawn w) (update_nth l f (heap w)), Ok tt).

(** [delete o.id] *)
Definition delete_id (o : User.obj) : User.obj :=
  {| User.o_id := None; User.o_username := User.o_username o;
     User.o_bio := User.o_bio o; User.o_image := User.o_image o;
     User.o_following := User.o_following o |}.

(** [o.following = b] *)
Definition set_following (b : bool) (o : User.obj) : User.obj :=
  {| User.o_id := User.o_id o; User.o_username := User.o_username o;
     User.o_bio := User.o_bio o; User.o_image := User.o_image o;
     User.o_following := b |}.

Section Controller.

Variable E : Env.

(** [uuid()] *)
Definition uuid : M string :=
  fun w => (mkWorld (db w) (log w) (S (drawn w)) (heap w),
            Ok (uuid_at E (drawn w))).

(** [new Date().toISOString()] *)
Definition now : M string :=
  fun w => (w, Ok (now_at E (List.length (log w)))).

(** One statement sent to the store and awaited: it is logged, then either
    the store answers with an error (an injected one, or a violation of one
    of its constraints) or the rows change. *)
Definition issue (s : Stmt) : M unit :=
  fun w =>
    let failed e :=
      (mkWorld (db w) (log w ++ [mkEvent s (Some e)]) (drawn w) (heap w),
       Throw (StoreError e)) in
    match fault_at E (List.length (log w)) with
    | Some e => failed e
    | None =>
        match apply_stmt (dialect E) s (db w) with
        | inl e => failed e
        | inr st =>
            (mkWorld st (log w ++ [mkEvent s None]) (drawn w) (heap w), Ok tt)
        end
    end.

(** A select: the statement, then its rows. *)
Definition read {A} (s : Stmt) (rows : Store -> A) : M A :=
  issue s ;; (fun w => (w, Ok (rows (db w)))).

(** The condition of the [ctx.assert] in the three [catch] blocks, on
    whatever was caught. *)
Definition recognised (e : Exn) : bool :=
  match e with
  | StoreError err => is_unique_violation err
  | _ => false
  end.

(** ** What a handler finds in [ctx.params] and leaves in [ctx.body] *)

Record Params := mkParams {
  article : Article.view loc;
  favorites_ : list Favorite.row;
  author : loc;
  tagList : list string;
  tagsRelations : list ArticleTag.row
}.

Inductive Body :=
| BodyArticle (a : Article.view loc)
| BodyArticles (l : list (Article.view User.obj)) (articlesCount : option Z)
| BodyEmpty.

(** The response once the middleware chain has returned: references are
    followed in the heap as it is then. *)
Inductive Json :=
| JsonArticle (a : Article.view User.obj)
| JsonArticles (l : list (Article.view User.obj)) (articlesCount : option Z)
| JsonEmpty.

Definition render (h : list User.obj) (b : Body) : option Json :=
  match b with
  | BodyArticle a =>
      option_map (fun o => JsonArticle (Article.with_author o a))
        (nth_error h (Article.v_author a))
  | BodyArticles l n => Some (JsonArticles l n)
  | BodyEmpty => Some JsonEmpty
  end.

(** A request from the first middleware to the serialized response. *)
Definition respond (m : M Body) (w : World) : World * Result Json :=
  match m w with
  | (w1, Ok b) =>
      match render (heap w1) b with
      | Some j => (w1, Ok j)
      | None => (w1, Throw (TypeError "author"))
      end
  | (w1, Throw e) => (w1, Throw e)
  end.

(** ** [bySlug] *)

Definition bySlug (slug : string) (user : option User.row)
    (next : Params -> M Body) : M Body :=
  assert (negb (slug =? "")) (HttpError 404) ;;
  found <- read (SelectArticleBySlug slug) (fun st => first_article st slug) ;;
  match found with
  | None => throw (HttpError 404)
  | Some row =>
      tagsRelations <- read (SelectArticleTags (Article.id row))
                         (fun st => rows_articles_tags st (Article.id row)) ;;
      tagList <-
        (if nonempty tagsRelations
         then
           let ids := map ArticleTag.tag tagsRelations in
           rows <- read (SelectTagsById ids)
                     (fun st => rows_tags_by_id st ids) ;;
           ret (map Tag.name rows)
         else ret []) ;;
      author <- read (SelectUserById (Article.author row))
                  (fun st => first_user st (Article.author row)) ;;
      match author with
      | None => throw (TypeError "article.author")
      | Some u =>
          l <- alloc {| User.o_id := Some (User.id u);
                        User.o_username := User.username u;
                        User.o_bio := User.bio u;
                        User.o_image := User.image u;
                        User.o_following := false |} ;;
          match user with
          | Some me =>
              if negb (User.username me =? User.username u)
              then
                res <- read (SelectFollowers (User.id u) (User.id me))
                         (fun st => rows_followers st (User.id u) (User.id me)) ;;
                if nonempty res then modify_obj l (set_following true)
                else ret tt
              else ret tt
          | None => ret tt
          end ;;
          favorites <-
            match user with
            | Some me =>
                read (SelectFavorites (User.id me) (Article.id row))
                  (fun st => rows_favorites st (User.id me) (Article.id row))
            | None => ret []
            end ;;
          body <- next {| article := Article.view_of_row row l (Some tagList)
                                       (nonempty favorites);
                          favorites_ := favorites;
                          author := l;
                          tagList := tagList;
                          tagsRelations := tagsRelations |} ;;
          modify_obj l delete_id ;;
          ret body
      end
  end.

(** ** [getOne] *)

Definition getOne (params : Params) : M Body :=
  ret (BodyArticle (article params)).

(** ** [get] and [feed.get] *)

Definition view_of_mapped (m : Mapped) (a : User.obj) : Article.view User.obj :=
  Article.view_of_row (m_columns m) a
    (Some (map Tag.name (m_tagList m)))
    (is_some (m_favorited m)).

(** The callback of [get]: [a.favorited = Boolean(a.favorited)],
    [a.tagList = a.tagList.map(t => t.name)],
    [a.author.following = Boolean(a.author.following)],
    [delete a.author.id]. *)
Definition finish_listed (m : Mapped) : Result (Article.view User.obj) :=
  match m_author m with
  | None => Throw (TypeError "a.author")
  | Some a =>
      Ok (view_of_mapped m
            (delete_id
               {| User.o_id := Some (User.id (ma_row a));
                  User.o_username := User.username (ma_row a);
                  User.o_bio := User.bio (ma_row a);
                  User.o_image := User.image (ma_row a);
                  User.o_following := is_some (ma_following a) |}))
  end.

(** The callback of [feed.get]: [a.author.following = true]. *)
Definition finish_fed (m : Mapped) : Result (Article.view User.obj) :=
  match m_author m with
  | None => Throw (TypeError "a.author")
  | Some a =>
      Ok (view_of_mapped m
            (delete_id
               {| User.o_id := Some (User.id (ma_row a));
                  User.o_username := User.username (ma_row a);
                  User.o_bio := User.bio (ma_row a);
                  User.o_image := User.image (ma_row a);
                  User.o_following := true |}))
  end.

(** [Number(countRes.count || countRes["count(*)"])] *)
Definition articles_count (c : CountRow) : option Z :=
  Js.Number (Js.or (count c) (count_star c)).

Definition get (user : option User.row) (q : Query.t) : M Body :=
  let viewer := option_map User.id user in
  res <- promise_all2
           (read (SelectArticles q viewer)
              (fun st => rows_articles st q viewer))
           (read (CountArticles q)
              (fun st => count_articles (dialect E) st q)) ;;
  articles <- lift_result (map_result finish_listed (joinjs_map (fst res))) ;;
  ret (BodyArticles articles (articles_count (snd res))).

Definition feed_get (user : User.row) (limit offset : nat) : M Body :=
  followedIds <- read (PluckFollowed (User.id user))
                   (fun st => followed_ids st (User.id user)) ;;
  res <- promise_all2
           (read (SelectFeed followedIds limit offset (Some (User.id user)))
              (fun st => rows_feed st followedIds limit offset
                           (Some (User.id user))))
           (read (CountFeed followedIds)
              (fun st => count_feed (dialect E) st followedIds)) ;;
  articles <- lift_result (map_result finish_fed (joinjs_map (fst res))) ;;
  ret (BodyArticles articles (articles_count (snd res))).

(** ** [post] *)

(** [article.id = uuid(); article.author = ctx.state.user.id] on the payload. *)
Definition draft_of_payload (f : Article.fields) (id author : string)
  : Article.draft :=
  {| Article.d_id := Some id;
     Article.d_slug := Article.f_slug f;
     Article.d_title := Article.f_title f;
     Article.d_body := Article.f_body f;
     Article.d_description := Article.f_description f;
     Article.d_favoritesCount := Article.f_favoritesCount f;
     Article.d_createdAt := Article.f_createdAt f;
     Article.d_updatedAt := Article.f_updatedAt f;
     Article.d_author := Some author;
     Article.d_tagList := Article.f_tagList f;
     Article.d_favorited := Article.f_favorited f |}.

(** [names.map(t => ({ id: uuid(), name: t }))] *)
Definition new_tags (names : list string) : M (list Tag.row) :=
  map_m (fun t => id <- uuid ;; ret (Tag.mk id t)) names.

(** [Promise.all(tags.map(t => ctx.app.schemas.tag.validate(t, opts)))] *)
Definition validate_tags (ts : list Tag.row) : M (list Tag.row) :=
  map_m (fun t => lift (validate_tag E t)) ts.

(** [article.slug + "-" + uuid().substr(-6)] *)
Definition suffixed (slug u : string) : string :=
  slug ++ "-" ++ Js.substr_last 6 u.

(** The [try]/[catch] around the insert.  The result is the row as it went
    in: [article.slug] is reassigned in the [catch]. *)
Definition insert_article (row : Article.row) : M Article.row :=
  catch
    (issue (InsertArticle row) ;; ret row)
    (fun err =>
       assert (recognised err) err ;;
       u <- uuid ;;
       let row' := Article.with_slug (suffixed (Article.slug row) u) row in
       issue (InsertArticle row') ;;
       ret row').

(** The [for] loop over [tags], in [post] and in [put]. *)
Fixpoint insert_tags (ts : list Tag.row) : M unit :=
  match ts with
  | [] => ret tt
  | t :: rest =>
      catch (issue (InsertTag t)) (fun err => assert (recognised err) err) ;;
      insert_tags rest
  end.

(** [tags.map(t => ({ id: uuid(), tag: t.id, article }))] *)
Definition new_relations (ts : list Tag.row) (article : string)
  : M (list ArticleTag.row) :=
  map_m (fun t => id <- uuid ;; ret (ArticleTag.mk id (Tag.id t) article)) ts.

(** From the loop to the insert of the relations. *)
Definition link_tags (ts : list Tag.row) (article : string) : M unit :=
  insert_tags ts ;;
  let names := map Tag.name ts in
  found <- read (SelectTagsByName names)
             (fun st => rows_tags_by_name st names) ;;
  relations <- new_relations found article ;;
  issue (InsertArticleTags relations).

Definition post (user : User.row) (payload : Article.fields) : M Body :=
  id <- uuid ;;
  validated <- lift (validate_article E
                       (draft_of_payload payload id (User.id user))) ;;
  let row := Article.with_slug
               (slugify E (Article.title (Article.columns validated)))
               (Article.columns validated) in
  tags <-
    match Article.tagList validated with
    | Some (n :: names) =>
        ts <- new_tags (n :: names) ;;
        vs <- validate_tags ts ;;
        ret (Some vs)
    | _ => ret None
    end ;;
  row <- insert_article row ;;
  match tags with
  | Some (t :: ts) => link_tags (t :: ts) (Article.id row)
  | _ => ret tt
  end ;;
  l <- alloc {| User.o_id := None;
                User.o_username := User.username user;
                User.o_bio := User.bio user;
                User.o_image := User.image user;
                User.o_following := false |} ;;
  ret (BodyArticle
         (Article.view_of_row row l (Article.tagList validated) false)).

(** ** [put] *)

(** [_.difference(array, ...values)]: the elements of [array] that are in
    none of [values]. *)
Definition lodash_difference (array : list string) (values : list (list string))
  : list string :=
  filter (fun x => negb (mem x (List.concat values))) array.

(** [""] is falsy. *)
Definition truthy_string (o : option string) : bool :=
  match o with Some s => negb (s =? "") | None => false end.

Definition some_eqb (o : option string) (s : string) : bool :=
  match o with Some x => x =? s | None => false end.

(** [_.pick(newArticle, ["title", "slug", "body", "description",
    "updatedAt"])], decamelized. *)
Definition picked (r : Article.row) : Article.patch :=
  {| Article.p_id := None;
     Article.p_slug := Some (Article.slug r);
     Article.p_title := Some (Article.title r);
     Article.p_body := Some (Article.body r);
     Article.p_description := Some (Article.description r);
     Article.p_favorites_count := None;
     Article.p_created_at := None;
     Article.p_updated_at := Some (Article.updated_at r);
     Article.p_author := None |}.

(** [Object.assign({}, article, fields)], but for [author]. *)
Definition assigned (a : Article.view loc) (f : Article.fields)
    (author : option string) : Article.draft :=
  {| Article.d_id := Some (Article.over (Article.f_id f) (Article.v_id a));
     Article.d_slug := Some (Article.over (Article.f_slug f) (Article.v_slug a));
     Article.d_title :=
       Some (Article.over (Article.f_title f) (Article.v_title a));
     Article.d_body := Some (Article.over (Article.f_body f) (Article.v_body a));
     Article.d_description :=
       Some (Article.over (Article.f_description f) (Article.v_description a));
     Article.d_favoritesCount :=
       Some (Article.over (Article.f_favoritesCount f)
               (Article.v_favorites_count a));
     Article.d_createdAt :=
       Some (Article.over (Article.f_createdAt f) (Article.v_created_at a));
     Article.d_updatedAt :=
       Some (Article.over (Article.f_updatedAt f) (Article.v_updated_at a));
     Article.d_author := author;
     Article.d_tagList :=
       first_some (Article.f_tagList f) (Article.v_tagList a);
     Article.d_favorited :=
       Some (Article.over (Article.f_favorited f) (Article.v_favorited a)) |}.

(** [newArticle.author = newArticle.author.id], where [newArticle.author] is
    the author object of the article unless the payload has the key. *)
Definition author_id_of (f : Article.fields) (o : User.obj) : M (option string) :=
  match Article.f_author f with
  | None => ret (User.o_id o)
  | Some Article.AuthorNull => throw (TypeError "newArticle.author")
  | Some (Article.AuthorScalar _) => ret None
  | Some (Article.AuthorObject i) => ret i
  end.

(** The [try]/[catch] around the update. *)
Definition update_article (row : Article.row) (id : string) : M Article.row :=
  catch
    (issue (UpdateArticle (picked row) id) ;; ret row)
    (fun err =>
       assert (recognised err) err ;;
       u <- uuid ;;
       let row' := Article.with_slug (suffixed (Article.slug row) u) row in
       issue (UpdateArticle (picked row') id) ;;
       ret row').

Definition ownership_error : Exn :=
  ValidationError 422 ["not owned by user"] "" "article".

Definition put (user : User.row) (fields : Article.fields) (params : Params)
  : M Body :=
  let article := article params in
  owner <- deref (Article.v_author article) ;;
  assert (some_eqb (User.o_id owner) (User.id user)) ownership_error ;;
  author_id <- author_id_of fields owner ;;
  validated <- lift (validate_article E (assigned article fields author_id)) ;;
  let row := Article.columns validated in
  let row :=
    if truthy_string (Article.f_title fields)
    then Article.with_slug (slugify E (Article.title row)) row
    else row in
  stamp <- now ;;
  let row := Article.with_updated_at stamp row in
  row <- update_article row (Article.v_id article) ;;
  match Article.f_tagList fields with
  | Some [] => issue (DeleteArticleTags (Article.v_id article))
  | _ => ret tt
  end ;;
  match Article.f_tagList fields with
  | Some (n :: names) =>
      if nonempty (lodash_difference
                     (match Article.v_tagList article with
                      | Some l => l | None => [] end) [])
         || nonempty (lodash_difference (n :: names) [])
      then
        issue (DeleteArticleTags (Article.v_id article)) ;;
        match Article.tagList validated with
        | None => throw (TypeError "newArticle.tagList")
        | Some names' =>
            ts <- new_tags names' ;;
            vs <- validate_tags ts ;;
            link_tags vs (Article.v_id article)
        end
      else ret tt
  | _ => ret tt
  end ;;
  ret (BodyArticle
         (Article.view_of_row row (author params) (Article.tagList validated)
            (Article.v_favorited article))).

(** ** [del] *)

Definition del (user : User.row) (params : Params) : M Body :=
  let article := article params in
  owner <- deref (Article.v_author article) ;;
  assert (some_eqb (User.o_id owner) (User.id user)) ownership_error ;;
  promise_all
    [ issue (DeleteFavorites (User.id user) (Article.v_id article));
      issue (DeleteArticleTags (Article.v_id article));
      issue (DeleteArticle (Article.v_id article)) ] ;;
  ret BodyEmpty.

(** ** [favorite.post] and [favorite.del] *)

Definition favorite_post (user : User.row) (params : Params) : M Body :=
  let article := article params in
  if Article.v_favorited article
  then ret (BodyArticle article)
  else
    id <- uuid ;;
    promise_all
      [ issue (InsertFavorite
                 (Favorite.mk id (User.id user) (Article.v_id article)));
        issue (IncrementFavorites (Article.v_id article) 1) ] ;;
    ret (BodyArticle
           (Article.with_favorite true
              (Article.v_favorites_count article + 1)%Z article)).

Definition favorite_del (user : User.row) (params : Params) : M Body :=
  let article := article params in
  if negb (Article.v_favorited article)
  then ret (BodyArticle article)
  else
    promise_all
      [ issue (DeleteFavorites (User.id user) (Article.v_id article));
        issue (DecrementFavorites (Article.v_id article) 1) ] ;;
    ret (BodyArticle
           (Article.with_favorite false
              (Article.v_favorites_count article - 1)%Z article)).

End Controller.

(* ===================================================================== *)
(** * Requests                                                            *)
(* ===================================================================== *)

(** The operations of the controller as a caller reaches them.  The routes
    are not among the sources: as the signature of [bySlug] and its own
    comment have it, the operations on one article run [bySlug] on the slug
    of the path and are its [next]; the caller of a mutation is
    authenticated, the caller of a read may be anonymous. *)
Inductive Request :=
| GetOne (slug : string) (user : option User.row)
| List (user : option User.row) (q : Query.t)
| Feed (user : User.row) (limit offset : nat)
| Create (user : User.row) (payload : Article.fields)
| Update (slug : string) (user : User.row) (fields : Article.fields)
| Delete (slug : string) (user : User.row)
| Favorite (slug : string) (user : User.row)
| Unfavorite (slug : string) (user : User.row).

Definition handle (E : Env) (req : Request) : M Body :=
  match req with
  | GetOne slug user => bySlug E slug user getOne
  | List user q => get E user q
  | Feed user limit offset => feed_get E user limit offset
  | Create user payload => post E user payload
  | Update slug user fields => bySlug E slug (Some user) (put E user fields)
  | Delete slug user => bySlug E slug (Some user) (del E user)
  | Favorite slug user => bySlug E slug (Some user) (favorite_post E user)
  | Unfavorite slug user => bySlug E slug (Some user) (favorite_del E user)
  end.

Definition serve (E : Env) (req : Request) : World -> World * Result Json :=
  respond (handle E req).

(* ===================================================================== *)
(** * A small instance, for the examples                                  *)
(* ===================================================================== *)

Module Demo.

Definition uuid_at (n : nat) : string :=
  "3f2b8c1e-7d4a-4e6f-9a1b-5c0d1000" ++ Js.decimal (1000 + n).

Definition now_at (n : nat) : string := "2024-05-02T09:30:00.000Z".

Definition lower (c : ascii) : ascii :=
  let n := nat_of_ascii c in
  if (65 <=? n)%nat && (n <=? 90)%nat then ascii_of_nat (n + 32)
  else if (n =? 32)%nat then "-"%char else c.

Fixpoint slugify (s : string) : string :=
  match s with
  | EmptyString => EmptyString
  | String c r => String (lower c) (slugify r)
  end.

(** A schema that wants an id, an author, a title, a body and a description
    and fills in the other columns. *)
Definition validate_article (d : Article.draft) : Exn + Article.valid :=
  match Article.d_id d, Article.d_author d, Article.d_title d,
        Article.d_body d, Article.d_description d with
  | Some i, Some a, Some t, Some b, Some ds =>
      inr {| Article.columns :=
               {| Article.id := i;
                  Article.slug := Article.over (Article.d_slug d) "";
                  Article.title := t;
                  Article.body := b;
                  Article.description := ds;
                  Article.favorites_count :=
                    Article.over (Article.d_favoritesCount d) 0%Z;
                  Article.created_at :=
                    Article.over (Article.d_createdAt d) (now_at 0);
                  Article.updated_at :=
                    Article.over (Article.d_updatedAt d) (now_at 0);
                  Article.author := a |};
             Article.tagList := Article.d_tagList d |}
  | _, _, _, _, _ => inl (ValidationError 422 ["is a required field"] "" "article")
  end.

Definition validate_tag (t : Tag.row) : Exn + Tag.row :=
  if Tag.name t =? "" then inl (ValidationError 422 ["is a required field"] "" "name")
  else inr t.

Definition env (d : Dialect) (faults : nat -> option DbError) : Env :=
  mkEnv d faults uuid_at now_at slugify validate_article validate_tag.

Definition no_fault : nat -> option DbError := fun _ => None.

Definition alice : User.row := User.mk "u-alice" "alice" "writes" "".
Definition bob : User.row := User.mk "u-bob" "bob" "reads" "".
Definition carol : User.row := User.mk "u-carol" "carol" "" "".

Definition hello : Article.row :=
  Article.mk "a-1" "hello-world" "Hello World" "Lorem ipsum" "A greeting" 1
    "2024-04-01T08:00:00.000Z" "2024-04-01T08:00:00.000Z" "u-alice".

Definition second : Article.row :=
  Article.mk "a-2" "second-post" "Second post" "Dolor sit" "More" 0
    "2024-04-03T08:00:00.000Z" "2024-04-03T08:00:00.000Z" "u-bob".

(** Alice wrote [hello], tagged [a] and [b]; Bob favorited it and follows
    Alice; Bob wrote [second], untagged. *)
Definition store : Store :=
  {| articles := [hello; second];
     users := [alice; bob; carol];
     tags := [Tag.mk "t-a" "a"; Tag.mk "t-b" "b"];
     articles_tags := [ArticleTag.mk "r-1" "t-a" "a-1";
                       ArticleTag.mk "r-2" "t-b" "a-1"];
     favorites := [Favorite.mk "f-1" "u-bob" "a-1"];
     followers := [Follower.mk "w-1" "u-alice" "u-bob"] |}.

Definition world : World := mkWorld store [] 0 [].

Definition no_fields : Article.fields :=
  Article.mkFields None None None None None None None None None None None.

Definition with_tags (l : list string) : Article.fields :=
  Article.mkFields None None None None None None None None None (Some l) None.

Definition new_article (title : string) (tags : option (list string))
  : Article.fields :=
  Article.mkFields None None (Some title) (Some "Body") (Some "About") None
    None None None tags None.

End Demo.

(* ===================================================================== *)
(** * Vocabulary of the statements below                                  *)
(* ===================================================================== *)

(** A computation [respects] a relation between worlds when every run of it,
    whatever its result, takes a world to a related one. *)
Definition respects {A} (R : World -> World -> Prop) (m : M A) : Prop :=
  forall w w' r, m w = (w', r) -> R w w'.

(** The request left the heap as it was. *)
Definition same_heap (w w' : World) : Prop := heap w' = heap w.

(** The statements sent between two worlds all satisfy [P], and the rows
    went from a store to one related by [Rs]. *)
Definition within (P : Stmt -> Prop) (Rs : Store -> Store -> Prop)
    (w w' : World) : Prop :=
  Rs (db w) (db w')
  /\ exists tr, log w' = log w ++ tr /\ Forall (fun e => P (stmt e)) tr.

(** Nothing was written: the rows are the same and only selects went out. *)
Definition reads_only : World -> World -> Prop :=
  within (fun s => is_mutation s = false) eq.

(** [bySlug] up to the call of [next]: the reads, the author object and the
    two flags. *)
Definition load (E : Env) (slug : string) (user : option User.row) : M Params :=
  assert (negb (slug =? "")) (HttpError 404) ;;
  found <- read E (SelectArticleBySlug slug) (fun st => first_article st slug) ;;
  match found with
  | None => throw (HttpError 404)
  | Some row =>
      tagsRelations <- read E (SelectArticleTags (Article.id row))
                         (fun st => rows_articles_tags st (Article.id row)) ;;
      tagList <-
        (if nonempty tagsRelations
         then
           let ids := map ArticleTag.tag tagsRelations in
           rows <- read E (SelectTagsById ids)
                     (fun st => rows_tags_by_id st ids) ;;
           ret (map Tag.name rows)
         else ret []) ;;
      author <- read E (SelectUserById (Article.author row))
                  (fun st => first_user st (Article.author row)) ;;
      match author with
      | None => throw (TypeError "article.author")
      | Some u =>
          l <- alloc {| User.o_id := Some (User.id u);
                        User.o_username := User.username u;
                        User.o_bio := User.bio u;
                        User.o_image := User.image u;
                        User.o_following := false |} ;;
          match user with
          | Some me =>
              if negb (User.username me =? User.username u)
              then
                res <- read E (SelectFollowers (User.id u) (User.id me))
                         (fun st => rows_followers st (User.id u) (User.id me)) ;;
                if nonempty res then modify_obj l (set_following true)
                else ret tt
              else ret tt
          | None => ret tt
          end ;;
          favorites <-
            match user with
            | Some me =>
                read E (SelectFavorites (User.id me) (Article.id row))
                  (fun st => rows_favorites st (User.id me) (Article.id row))
            | None => ret []
            end ;;
          ret {| article := Article.view_of_row row l (Some tagList)
                              (nonempty favorites);
                 favorites_ := favorites;
                 author := l;
                 tagList := tagList;
                 tagsRelations := tagsRelations |}
      end
  end.

(** What [load] finds in a store: the parameters of the handler and the
    author object they refer to, allocated at [l]. *)
Definition follows (st : Store) (user : option User.row) (u : User.row) : bool :=
  match user with
  | Some me =>
      negb (User.username me =? User.username u)
      && nonempty (rows_followers st (User.id u) (User.id me))
  | None => false
  end.

Definition favorites_of (st : Store) (user : option User.row) (a : string)
  : list Favorite.row :=
  match user with
  | Some me => rows_favorites st (User.id me) a
  | None => []
  end.

Definition tag_names_of (st : Store) (trs : list ArticleTag.row) : list string :=
  if nonempty trs
  then map Tag.name (rows_tags_by_id st (map ArticleTag.tag trs))
  else [].

Definition loaded (st : Store) (slug : string) (user : option User.row)
    (l : loc) : option (Params * User.obj) :=
  match first_article st slug with
  | None => None
  | Some row =>
      match first_user st (Article.author row) with
      | None => None
      | Some u =>
          let trs := rows_articles_tags st (Article.id row) in
          let tl := tag_names_of st trs in
          let favs := favorites_of st user (Article.id row) in
          Some ({| article := Article.view_of_row row l (Some tl)
                                (nonempty favs);
                   favorites_ := favs;
                   author := l;
                   tagList := tl;
                   tagsRelations := trs |},
                {| User.o_id := Some (User.id u);
                   User.o_username := User.username u;
                   User.o_bio := User.bio u;
                   User.o_image := User.image u;
                   User.o_following := follows st user u |})
      end
  end.

(** Every successful run of [m] returns a value that satisfies [Q]. *)
Definition returns {A} (Q : A -> Prop) (m : M A) : Prop :=
  forall w w' a, m w = (w', Ok a) -> Q a.

(** The article of a body has the author object of the parameters for
    author. *)
Definition refers (p : Params) (b : Body) : Prop :=
  match b with
  | BodyArticle a => Article.v_author a = author p
  | BodyArticles _ _ => False
  | BodyEmpty => True
  end.

(** A body rendered with [o] for the author object it refers to. *)
Definition render_with (o : User.obj) (b : Body) : Json :=
  match b with
  | BodyArticle a => JsonArticle (Article.with_author o a)
  | BodyArticles l n => JsonArticles l n
  | BodyEmpty => JsonEmpty
  end.

(** No author object of the response has an [id]. *)
Definition hides_author_id (j : Json) : Prop :=
  match j with
  | JsonArticle a => User.o_id (Article.v_author a) = None
  | JsonArticles l _ =>
      Forall (fun a => User.o_id (Article.v_author a) = None) l
  | JsonEmpty => True
  end.

(** The caller has a Favorite row for the article of this slug. *)
Definition favorited_in (st : Store) (slug : string) (user : User.row) : bool :=
  match first_article st slug with
  | Some row => nonempty (rows_favorites st (User.id user) (Article.id row))
  | None => false
  end.

(** Only selects were sent between two worlds. *)
Definition only_selects (w w' : World) : Prop :=
  exists tr, log w' = log w ++ tr
             /\ Forall (fun e => is_mutation (stmt e) = false) tr.

(** No row of the three tables refers to the article [a]. *)
Definition leaves_no_reference (st : Store) (a : string) : Prop :=
  (forall r, In r (articles st) -> Article.id r <> a)
  /\ (forall r, In r (articles_tags st) -> ArticleTag.article r <> a)
  /\ (forall f, In f (favorites st) -> Favorite.article f <> a).

(** The columns an update must leave alone. *)
Definition frame (r : Article.row) : string * Z * string * string :=
  (Article.id r, Article.favorites_count r, Article.created_at r,
   Article.author r).

(** Row by row, the articles of [st'] are those of [st]: the same ids,
    counters, creation times and authors, and the very same row when it is
    not the article [a]. *)
Definition update_frame (a : string) (st st' : Store) : Prop :=
  Forall2 (fun r r' => frame r' = frame r /\ (Article.id r <> a -> r' = r))
    (articles st) (articles st').

(** The statements an update of the article [a] may send: selects, writes to
    the tag tables, and updates of [a] that set none of the framed columns. *)
Definition update_statement (a : string) (s : Stmt) : Prop :=
  match s with
  | UpdateArticle p i =>
      i = a /\ Article.p_id p = None /\ Article.p_favorites_count p = None
      /\ Article.p_created_at p = None /\ Article.p_author p = None
  | InsertArticle _ | DeleteArticle _
  | IncrementFavorites _ _ | DecrementFavorites _ _
  | InsertFavorite _ | DeleteFavorites _ _ => False
  | _ => True
  end.

(** Nothing was sent to the store and the rows are the same. *)
Definition same_log (w w' : World) : Prop :=
  log w' = log w /\ db w' = db w.

Definition not_article_insert (s : Stmt) : Prop :=
  match s with InsertArticle _ => False | _ => True end.

Definition anything (st st' : Store) : Prop := True.

(** The statements sent between [w] and [w'], in order, are [tr]. *)
Definition sent (w w' : World) (tr : list Event) : Prop :=
  log w' = log w ++ tr.

Definition retried (row : Article.row) (u : string) : Article.row :=
  Article.with_slug (suffixed (Article.slug row) u) row.

(** The row of the second insert, spelled out: the columns of [row] under
    its slug followed by "-" and the last six characters of the uuid [u]. *)
Definition with_suffix (u : string) (row : Article.row) : Article.row :=
  {| Article.id := Article.id row;
     Article.slug :=
       Article.slug row ++ "-"
       ++ substring (String.length u - 6) 6 u;
     Article.title := Article.title row;
     Article.body := Article.body row;
     Article.description := Article.description row;
     Article.favorites_count := Article.favorites_count row;
     Article.created_at := Article.created_at row;
     Article.updated_at := Article.updated_at row;
     Article.author := Article.author row |}.

(** The draw that gives the uuid of the suffix: the one after the id of the
    article and the ids of the tags of the validated list. *)
Definition retry_draw (E : Env) (user : User.row) (payload : Article.fields)
    (w : World) : nat :=
  match validate_article E
          (draft_of_payload payload (uuid_at E (drawn w)) (User.id user)) with
  | inr v =>
      S (drawn w)
      + match Article.tagList v with
        | Some names => List.length names
        | None => 0
        end
  | inl _ => S (drawn w)
  end.

(** The signal of a unique violation, in words: the integer read at the head
    of [errno] is 19, or the one read at the head of [code] is 23505. *)
Definition signals_violation (err : DbError) : Prop :=
  Js.parseInt (errno err) = Some 19%Z \/ Js.parseInt (code err) = Some 23505%Z.

(** The five shapes of the statements [tr] of a create request that ended
    with [r], by what became of the insert of the article; [u] is the uuid
    the suffix is cut from:
    - it was never sent (a schema refused the payload);
    - it went in at once, and no other insert of an article follows;
    - it was refused with an error that does not signal a violation: that
      error is the result and nothing else was sent;
    - it was refused with the signal of a violation, the same row went in
      under the slug with the suffix, and no other insert of an article
      follows;
    - it was refused with the signal of a violation and the second insert
      was refused too, whatever the error: the second error is the result
      and nothing else was sent. *)
Definition one_retry (u : string) (tr : list Event) (r : Result Body) : Prop :=
  (tr = [] /\ exists e, r = Throw e)
  \/ (exists row rest,
        tr = mkEvent (InsertArticle row) None :: rest
        /\ Forall (fun e => not_article_insert (stmt e)) rest)
  \/ (exists row err,
        tr = [mkEvent (InsertArticle row) (Some err)]
        /\ ~ signals_violation err
        /\ r = Throw (StoreError err))
  \/ (exists row err rest,
        tr = mkEvent (InsertArticle row) (Some err)
             :: mkEvent (InsertArticle (with_suffix u row)) None :: rest
        /\ signals_violation err
        /\ Forall (fun e => not_article_insert (stmt e)) rest)
  \/ (exists row err err2,
        tr = [mkEvent (InsertArticle row) (Some err);
              mkEvent (InsertArticle (with_suffix u row)) (Some err2)]
        /\ signals_violation err
        /\ r = Throw (StoreError err2)).

(** An insert that went in, or was refused with the signal of a violation. *)
Definition absorbed (e : Event) : Prop :=
  match answer e with
  | None => True
  | Some err => signals_violation err
  end.

Definition not_tag_insert (s : Stmt) : Prop :=
  match s with InsertTag _ => False | _ => True end.

(** The statements [evs] of the loop over the tags [ts] that ended with [r]:
    either the loop went through, one insert per tag in the order of the
    tags, each one in or absorbed; or it stopped at the first insert refused
    with an error that does not signal a violation, one insert per tag up
    to that one, and that error is the result. *)
Definition tag_loop (ts : list Tag.row) (evs : list Event) (r : Result unit)
  : Prop :=
  (r = Ok tt /\ map stmt evs = map InsertTag ts /\ Forall absorbed evs)
  \/ (exists done t rest evs0 err,
        ts = done ++ t :: rest
        /\ evs = evs0 ++ [mkEvent (InsertTag t) (Some err)]
        /\ map stmt evs0 = map InsertTag done
        /\ Forall absorbed evs0
        /\ ~ signals_violation err
        /\ r = Throw (StoreError err)).

(** The statements [tr] of the whole tag block: the loop, then, if the loop
    went through, statements that insert no tag. *)
Definition tag_block (ts : list Tag.row) (tr : list Event) (r : Result unit)
  : Prop :=
  exists evs rest,
    tr = evs ++ rest
    /\ ((tag_loop ts evs r /\ rest = [] /\ exists e, r = Throw e)
        \/ (tag_loop ts evs (Ok tt)
            /\ Forall (fun e => not_tag_insert (stmt e)) rest)).

(** The tags of a create request: one per name of the list, in its order,
    each as the schema of the tags returns it for the name under some id. *)
Definition validated_tags (E : Env) (names : list string) (vs : list Tag.row)
  : Prop :=
  Forall2 (fun n t => exists i, validate_tag E (Tag.mk i n) = inr t) names vs.

(** The name the schema of the tags returns for one of [names]. *)
Definition validated_name (E : Env) (names : list string) (x : string) : Prop :=
  exists n i t,
    In n names /\ validate_tag E (Tag.mk i n) = inr t /\ Tag.name t = x.

(** The tag tables apart, the rows are the same. *)
Definition tags_only (st st' : Store) : Prop :=
  articles st' = articles st /\ articles_tags st' = articles_tags st
  /\ favorites st' = favorites st.

(** The articles table apart, the rows are the same. *)
Definition articles_only (st st' : Store) : Prop :=
  tags st' = tags st /\ articles_tags st' = articles_tags st.

(** The tags of a create request, from the validated article: fresh ids for
    the names, then the schema of the tags. *)
Definition tags_of (E : Env) (v : Article.valid) : M (option (list Tag.row)) :=
  match Article.tagList v with
  | Some (n :: names) =>
      ts <- new_tags E (n :: names) ;;
      vs <- validate_tags E ts ;;
      ret (Some vs)
  | _ => ret None
  end.

(** The tag block of a create request. *)
Definition tags_block (E : Env) (tags : option (list Tag.row)) (a : string)
  : M unit :=
  match tags with
  | Some (t :: ts) => link_tags E (t :: ts) a
  | _ => ret tt
  end.

(** The row a create request first tries to insert. *)
Definition first_row (E : Env) (v : Article.valid) : Article.row :=
  Article.with_slug (slugify E (Article.title (Article.columns v)))
    (Article.columns v).

(** The articles a list request is about: those that satisfy its filters. *)
Definition matching (st : Store) (q : Query.t) : list Article.row :=
  filter (satisfies st q) (articles st).

Definition row_id (j : Joined) : string := Article.id (j_article j).

Definition mapped_id (m : Mapped) : string := Article.id (m_columns m).

(** The ids of a list, each at its first appearance. *)
Definition first_seen (seen : list string) (i : string) : list string :=
  if mem i seen then seen else seen ++ [i].










(** The articles of a list response, from the rows of the store. *)
Definition listing (st : Store) (q : Query.t) (viewer : option string)
  : Result (list (Article.view User.obj)) :=
  map_result finish_listed (joinjs_map (rows_articles st q viewer)).



(* ===================================================================== *)
(** * Vocabulary of the further properties                                *)
(* ===================================================================== *)

(** The slug and the caller of a request on one article. *)
Definition slug_of (req : Request) : option string :=
  match req with
  | GetOne s _ | Update s _ _ | Delete s _ | Favorite s _ | Unfavorite s _ =>
      Some s
  | _ => None
  end.

(** The store answered a statement with an error it was told to inject. *)
Definition injected (E : Env) (e : Exn) : Prop :=
  exists err n, e = StoreError err /\ fault_at E n = Some err.

(** Users and followers are the same and the tags have only grown. *)
Definition tables_kept (st st' : Store) : Prop :=
  users st' = users st /\ followers st' = followers st
  /\ exists l, tags st' = tags st ++ l.

(** The requests of the three [GET] routes. *)
Definition is_read (req : Request) : bool :=
  match req with
  | GetOne _ _ | List _ _ | Feed _ _ _ => true
  | _ => false
  end.

(** The rows after a favorite of the article [a] by the user [u] that wrote:
    one Favorite row more, with the id [i], and the counter of [a] one up. *)
Definition favorited_rows (i u a : string) (st : Store) : Store :=
  set_articles
    (map (fun r => if Article.id r =? a then Article.bump 1 r else r)
       (articles st))
    (set_favorites (favorites st ++ [Favorite.mk i u a]) st).

(** The rows after an unfavorite that wrote: no Favorite row of [u] for [a],
    and the counter of [a] one down. *)
Definition unfavorited_rows (u a : string) (st : Store) : Store :=
  set_articles
    (map (fun r => if Article.id r =? a then Article.bump (- (1)) r else r)
       (articles st))
    (set_favorites
       (filter (fun f => negb ((Favorite.user f =? u)
                               && (Favorite.article f =? a)))
          (favorites st)) st).

(** The counter of every article [a] is the number of its Favorite rows. *)
Definition counted (st : Store) : Prop :=
  forall r, In r (articles st) ->
    Article.favorites_count r
    = Z.of_nat (List.length
                  (filter (fun f => Favorite.article f =? Article.id r)
                     (favorites st))).

(** The rows after a delete of the article [a] by the user [u]. *)
Definition deleted_rows (u a : string) (st : Store) : Store :=
  set_articles (filter (fun r => negb (Article.id r =? a)) (articles st))
    (set_articles_tags
       (filter (fun r => negb (ArticleTag.article r =? a)) (articles_tags st))
       (set_favorites
          (filter (fun f => negb ((Favorite.user f =? u)
                                  && (Favorite.article f =? a)))
             (favorites st)) st)).

(** The slug names one article at most. *)
Definition slug_names_one (st : Store) (slug : string) (a : string) : Prop :=
  forall r, In r (articles st) -> Article.slug r = slug -> Article.id r = a.

(** A select, or an update of an article row. *)
Definition update_or_select (s : Stmt) : Prop :=
  match s with
  | UpdateArticle _ _ => True
  | _ => is_mutation s = false
  end.

(** The articles apart, the rows are the same. *)
Definition article_rows_only (st st' : Store) : Prop :=
  users st' = users st /\ tags st' = tags st
  /\ articles_tags st' = articles_tags st
  /\ favorites st' = favorites st /\ followers st' = followers st.

(** The three filters of a list request, in words.  The article [a] meets
    the query when, for each filter that names something: its author is a
    user with one of the usernames of [author]; a user with one of the
    usernames of [favorited] has a Favorite row for it; an ArticleTag row
    links it to a tag with one of the names of [tag]. *)
Definition meets (st : Store) (q : Query.t) (a : Article.row) : Prop :=
  (Query.author q = []
   \/ exists u,
        In u (users st) /\ In (User.username u) (Query.author q)
        /\ User.id u = Article.author a)
  /\ (Query.favorited q = []
      \/ exists u f,
           In u (users st) /\ In (User.username u) (Query.favorited q)
           /\ In f (favorites st) /\ Favorite.user f = User.id u
           /\ Favorite.article f = Article.id a)
  /\ (Query.tag q = []
      \/ exists t r,
           In t (tags st) /\ In (Tag.name t) (Query.tag q)
           /\ In r (articles_tags st) /\ ArticleTag.tag r = Tag.id t
           /\ ArticleTag.article r = Article.id a).



(** The articles of a response are distinct, no more than [limit], and each
    is one of [rows]. *)
Definition page_of (rows : list Article.row) (limit : nat)
    (l : list (Article.view User.obj)) : Prop :=
  NoDup (map (@Article.v_id _) l)
  /\ List.length l <= limit
  /\ forall x, In x l ->
       exists a, In a rows /\ Article.id a = Article.v_id x.

(** The articles are the same. *)
Definition same_articles (st st' : Store) : Prop :=
  articles st' = articles st.

(** The author object of the response to a create request:
    [_.pick(ctx.state.user, ["username", "bio", "image"])], not following. *)
Definition profile (user : User.row) : User.obj :=
  {| User.o_id := None;
     User.o_username := User.username user;
     User.o_bio := User.bio user;
     User.o_image := User.image user;
     User.o_following := false |}.

(** The columns of an article as a response shows them. *)
Definition shown {A} (a : Article.view A)
  : string * string * string * string * string * Z * string * string :=
  (Article.v_id a, Article.v_slug a, Article.v_title a, Article.v_body a,
   Article.v_description a, Article.v_favorites_count a,
   Article.v_created_at a, Article.v_updated_at a).

(** The row [r] with the five columns an update writes taken from the
    response [a]. *)
Definition rewritten {A} (a : Article.view A) (r : Article.row) : Article.row :=
  {| Article.id := Article.id r;
     Article.slug := Article.v_slug a;
     Article.title := Article.v_title a;
     Article.body := Article.v_body a;
     Article.description := Article.v_description a;
     Article.favorites_count := Article.favorites_count r;
     Article.created_at := Article.created_at r;
     Article.updated_at := Article.v_updated_at a;
     Article.author := Article.author r |}.

(** The articles, the tags and the ArticleTag rows of [st] are in [st']. *)
Definition grown (st st' : Store) : Prop :=
  (forall x, In x (articles st) -> In x (articles st'))
  /\ (forall x, In x (tags st) -> In x (tags st'))
  /\ (forall x, In x (articles_tags st) -> In x (articles_tags st')).

(** The rows of an insert are in the store. *)
Definition inserted (s : Stmt) (st : Store) : Prop :=
  match s with
  | InsertArticle r => In r (articles st)
  | InsertTag t => In t (tags st)
  | InsertArticleTags rs => forall r, In r rs -> In r (articles_tags st)
  | _ => True
  end.

(** Nothing was taken back between two worlds: the three tables have only
    grown, and the rows of every insert the store accepted are there at the
    end. *)
Definition keeps_inserts (w w' : World) : Prop :=
  grown (db w) (db w')
  /\ exists tr, log w' = log w ++ tr
                /\ Forall (fun e => answer e = None -> inserted (stmt e) (db w'))
                     tr.

(** An insert into one of the three tables, or a select. *)
Definition insert_or_select (s : Stmt) : Prop :=
  match s with
  | InsertArticle _ | InsertTag _ | InsertArticleTags _ => True
  | _ => is_mutation s = false
  end.

(* ===================================================================== *)
(** * The seed of the users                                               *)
(* ===================================================================== *)

Module Seeds.

(** An entry of the list [users] of the seed file; [email] is absent from
    most of them. *)
Record entry := mkEntry {
  name : string;
  email : option string;
  id : string
}.

(** A row of the users table as the seed writes it. *)
Record account := mkAccount {
  a_id : string;
  a_email : string;
  a_username : string;
  a_password : string;
  a_bio : string;
  a_image : string;
  a_created_at : string;
  a_updated_at : string
}.

Definition users : list entry :=
  [ mkEntry "noname" None "345ae4d0-f2c3-4342-91a2-5b45cb8db57f";
    mkEntry "greg.p" None "16c1ef84-df72-4be1-ad46-1168ee53cd60";
    mkEntry "jack-london" None "b8d2586f-4746-418c-82b2-db9eff7a7f42";
    mkEntry "some_user" (Some "john@jacob.com")
      "52e1cc10-20b9-4cf2-ad94-3b0c135d35a5" ].

(** [u.email || `${u.name}@demo.com`]: an absent or an empty email gives the
    address made of the name. *)
Definition email_of (u : entry) : string :=
  match email u with
  | Some e => if e =? "" then name u ++ "@demo.com" else e
  | None => name u ++ "@demo.com"
  end.

(** What the seed takes from outside: [bcrypt.hashSync] (salted, so two
    calls differ), [faker.lorem.sentences] and [new Date()]; the argument
    counts the calls. *)
Record Gen := mkGen {
  hashSync : nat -> string -> string;
  sentences : nat -> string;
  clock : nat -> string
}.

(** The callback of [users.map] in [getUsers], for the [k]-th entry. *)
Definition account_of (g : Gen) (k : nat) (u : entry) : account :=
  {| a_id := id u;
     a_email := email_of u;
     a_username := name u;
     a_password := hashSync g k "X12345678";
     a_bio := sentences g k;
     a_image := "";
     a_created_at := clock g (2 * k);
     a_updated_at := clock g (2 * k + 1) |}.

Fixpoint accounts (g : Gen) (k : nat) (us : list entry) : list account :=
  match us with
  | [] => []
  | u :: r => account_of g k u :: accounts g (S k) r
  end.

(** [getUsers()], for the list [us] of entries ([users] in the source). *)
Definition getUsers (g : Gen) (us : list entry) : list account :=
  accounts g 0 us.

(** [knex("users").whereIn("email", emails).del()] *)
Definition del_where_email (emails : list string) (table : list account)
  : list account :=
  filter (fun a => negb (mem (a_email a) emails)) table.

(** [exports.seed]: the delete, by email in production and of every row
    otherwise, then the insert of [getUsers()] in one statement.  [accepts]
    stands for the constraints of the users table, which are not among the
    sources: the insert goes in as a whole or not at all, and the delete is
    not taken back when it does not.  The result is the table and whether
    the insert went in. *)
Definition seed (accepts : list account -> list account -> bool) (g : Gen)
    (production : bool) (us : list entry) (table : list account)
  : list account * bool :=
  let kept :=
    if production then del_where_email (map email_of us) table else [] in
  let rows := getUsers g us in
  if accepts kept rows then (kept ++ rows, true) else (kept, false).

(** The columns of an account that do not come from a generator. *)
Definition identity (a : account) : string * string * string * string :=
  (a_id a, a_email a, a_username a, a_image a).

(** The accounts of a table that the seed does not name. *)
Definition others (us : list entry) (table : list account) : list account :=
  filter (fun a => negb (mem (a_email a) (map email_of us))) table.

End Seeds.

(* ===================================================================== *)
(** * Runs of the monad                                                   *)
(* ===================================================================== *)

Unset Implicit Arguments.

Lemma bind_ok {A B} (m : M A) (k : A -> M B) w w1 a :
  m w = (w1, Ok a) -> bind m k w = k a w1.
Proof. intros H. unfold bind. rewrite H. reflexivity. Qed.

Lemma bind_throw {A B} (m : M A) (k : A -> M B) w w1 e :
  m w = (w1, Throw e) -> bind m k w = (w1, Throw e).
Proof. intros H. unfold bind. rewrite H. reflexivity. Qed.

Lemma bind_inv {A B} (m : M A) (k : A -> M B) w w' r :
  bind m k w = (w', r) ->
  (exists w1 a, m w = (w1, Ok a) /\ k a w1 = (w', r))
  \/ (exists e, m w = (w', Throw e) /\ r = Throw e).
Proof.
  unfold bind. destruct (m w) as [w1 [a|e]]; intros H.
  - left. eauto.
  - right. inversion H; subst. eauto.
Qed.

Lemma catch_inv {A} (m : M A) (h : Exn -> M A) w w' r :
  catch m h w = (w', r) ->
  (exists a, m w = (w', Ok a) /\ r = Ok a)
  \/ (exists w1 e, m w = (w1, Throw e) /\ h e w1 = (w', r)).
Proof.
  unfold catch. destruct (m w) as [w1 [a|e]]; intros H.
  - left. inversion H; subst. eauto.
  - right. eauto.
Qed.

Section Respects.

Variable R : World -> World -> Prop.
Hypothesis R_refl : forall w, R w w.
Hypothesis R_trans : forall a b c, R a b -> R b c -> R a c.

Lemma respects_ret {A} (a : A) : respects R (ret a).
Proof. intros w w' r H. inversion H; subst. apply R_refl. Qed.

Lemma respects_throw {A} (e : Exn) : respects R (@throw A e).
Proof. intros w w' r H. inversion H; subst. apply R_refl. Qed.

Lemma respects_bind {A B} (m : M A) (k : A -> M B) :
  respects R m -> (forall a, respects R (k a)) -> respects R (bind m k).
Proof.
  intros Hm Hk w w' r H.
  destruct (bind_inv _ _ _ _ _ H) as [(w1 & a & H1 & H2) | (e & H1 & _)].
  - eapply R_trans; [eapply Hm | eapply Hk]; eauto.
  - eapply Hm; eauto.
Qed.

Lemma respects_catch {A} (m : M A) (h : Exn -> M A) :
  respects R m -> (forall e, respects R (h e)) -> respects R (catch m h).
Proof.
  intros Hm Hh w w' r H.
  destruct (catch_inv _ _ _ _ _ H) as [(a & H1 & _) | (w1 & e & H1 & H2)].
  - eapply Hm; eauto.
  - eapply R_trans; [eapply Hm | eapply Hh]; eauto.
Qed.

Lemma respects_assert c e : respects R (assert c e).
Proof. destruct c; [apply respects_ret | apply respects_throw]. Qed.

Lemma respects_lift {A} (x : Exn + A) : respects R (lift x).
Proof. destruct x; [apply respects_throw | apply respects_ret]. Qed.

Lemma respects_lift_result {A} (x : Result A) : respects R (lift_result x).
Proof. destruct x; [apply respects_ret | apply respects_throw]. Qed.

Lemma respects_promise_all ps :
  Forall (respects R) ps -> respects R (promise_all ps).
Proof.
  induction 1 as [|p ps Hp _ IH]; intros w w' r H; simpl in H.
  - inversion H; subst. apply R_refl.
  - destruct (p w) as [w1 r1] eqn:E1.
    destruct (promise_all ps w1) as [w2 r2] eqn:E2.
    inversion H; subst.
    eapply R_trans; [eapply Hp | eapply IH]; eauto.
Qed.

Lemma respects_promise_all2 {A B} (p : M A) (q : M B) :
  respects R p -> respects R q -> respects R (promise_all2 p q).
Proof.
  intros Hp Hq w w' r H. unfold promise_all2 in H.
  destruct (p w) as [w1 r1] eqn:E1. destruct (q w1) as [w2 r2] eqn:E2.
  inversion H; subst.
  eapply R_trans; [eapply Hp | eapply Hq]; eauto.
Qed.

Lemma respects_map_m {A B} (f : A -> M B) l :
  (forall a, respects R (f a)) -> respects R (map_m f l).
Proof.
  intros Hf. induction l as [|x l IH]; simpl.
  - apply respects_ret.
  - apply respects_bind; [apply Hf | intros y].
    apply respects_bind; [apply IH | intros ys]. apply respects_ret.
Qed.

End Respects.

(** One step of a proof that a handler respects a relation: the shape of the
    computation decides the lemma; [leaf] is tried on what is left, and the
    reflexivity and transitivity of the relation come from the hints. *)
Create HintDb rel.

Ltac rel_side := solve [eauto with rel].

Ltac respects_step leaf :=
  lazymatch goal with
  | |- respects _ (bind _ _) => apply respects_bind; [rel_side | | intro]
  | |- respects _ (catch _ _) => apply respects_catch; [rel_side | | intro]
  | |- respects _ (ret _) => apply respects_ret; rel_side
  | |- respects _ (throw _) => apply respects_throw; rel_side
  | |- respects _ (assert _ _) => apply respects_assert; rel_side
  | |- respects _ (lift _) => apply respects_lift; rel_side
  | |- respects _ (lift_result _) => apply respects_lift_result; rel_side
  | |- respects _ (map_m _ _) =>
      apply respects_map_m; [rel_side | rel_side | intro]
  | |- respects _ (promise_all2 _ _) =>
      apply respects_promise_all2; [rel_side | | ]
  | |- respects _ (promise_all _) =>
      apply respects_promise_all; [rel_side | rel_side | repeat constructor]
  | |- respects _ (match ?x with _ => _ end) => destruct x
  | |- respects _ (let _ := _ in _) => cbv zeta
  | |- _ => leaf
  end.

(** ** [bySlug] is [load], then the handler, then the deletion of the id *)

Lemma bind_assoc_run {A B C} (m : M A) (k : A -> M B) (h : B -> M C) w :
  bind (bind m k) h w = bind m (fun a => bind (k a) h) w.
Proof. unfold bind. destruct (m w) as [w1 [a|e]]; reflexivity. Qed.

Lemma bind_cong_run {A B} (m : M A) (k k' : A -> M B) w :
  (forall a w1, k a w1 = k' a w1) -> bind m k w = bind m k' w.
Proof. intros H. unfold bind. destruct (m w) as [w1 [a|e]]; auto. Qed.

Lemma bind_ret_run {A B} (a : A) (k : A -> M B) w : bind (ret a) k w = k a w.
Proof. reflexivity. Qed.

Ltac assoc_step := rewrite bind_assoc_run; apply bind_cong_run; intros ? ?.

Lemma bySlug_load E slug user next w :
  bySlug E slug user next w
  = (params <- load E slug user ;;
     body <- next params ;;
     modify_obj (author params) delete_id ;;
     ret body) w.
Proof.
  unfold bySlug, load.
  assoc_step. assoc_step.
  destruct a0 as [row|]; [| reflexivity].
  do 3 assoc_step.
  destruct a2 as [u|]; [| reflexivity].
  do 3 assoc_step.
  reflexivity.
Qed.

(* ===================================================================== *)
(** * What the primitives do to the world                                 *)
(* ===================================================================== *)

Lemma apply_select d s st :
  is_mutation s = false -> apply_stmt d s st = inr st.
Proof. destruct s; simpl; intros H; try discriminate; reflexivity. Qed.

Lemma issue_inv E s w w' r :
  issue E s w = (w', r) ->
  drawn w' = drawn w /\ heap w' = heap w
  /\ ((exists st, apply_stmt (dialect E) s (db w) = inr st
                  /\ fault_at E (List.length (log w)) = None
                  /\ r = Ok tt /\ db w' = st
                  /\ log w' = log w ++ [mkEvent s None])
      \/ (exists e, r = Throw (StoreError e) /\ db w' = db w
                    /\ log w' = log w ++ [mkEvent s (Some e)]
                    /\ (fault_at E (List.length (log w)) = Some e
                        \/ (fault_at E (List.length (log w)) = None
                            /\ apply_stmt (dialect E) s (db w) = inl e)))).
Proof.
  unfold issue. intros H.
  destruct (fault_at E (List.length (log w))) as [e|] eqn:Hf.
  - inversion H; subst; simpl. repeat split. right. exists e. auto.
  - destruct (apply_stmt (dialect E) s (db w)) as [e|st] eqn:Ha;
      inversion H; subst; simpl; repeat split.
    + right. exists e. auto 6.
    + left. exists st. auto.
Qed.

Lemma read_inv {A} E s (f : Store -> A) w w' r :
  is_mutation s = false ->
  read E s f w = (w', r) ->
  db w' = db w /\ drawn w' = drawn w /\ heap w' = heap w
  /\ ((r = Ok (f (db w)) /\ log w' = log w ++ [mkEvent s None]
       /\ fault_at E (List.length (log w)) = None)
      \/ (exists e, r = Throw (StoreError e)
                    /\ log w' = log w ++ [mkEvent s (Some e)]
                    /\ fault_at E (List.length (log w)) = Some e)).
Proof.
  intros Hs H. unfold read in H.
  destruct (bind_inv _ _ _ _ _ H) as [(w1 & [] & H1 & H2) | (e & H1 & ->)].
  - inversion H2; subst; clear H2.
    destruct (issue_inv _ _ _ _ _ H1) as (Hd & Hh & [(st & Ha & Hf & _ & Hdb & Hl)
                                               | (e & He & _)]);
      [| discriminate].
    rewrite apply_select in Ha by exact Hs.
    assert (Hst : db w' = db w) by congruence.
    rewrite Hst. auto 8.
  - destruct (issue_inv _ _ _ _ _ H1) as (Hd & Hh & [(st & _ & _ & He & _)
                                               | (e' & He & Hdb & Hl & Hc)]);
      [discriminate |].
    inversion He; subst.
    destruct Hc as [Hf | (_ & Ha)].
    + repeat split; auto. right. eauto.
    + rewrite apply_select in Ha by exact Hs. discriminate.
Qed.

(** ** Relations the handlers respect *)

Lemma within_refl P (Rs : Store -> Store -> Prop) :
  (forall s, Rs s s) -> forall w, within P Rs w w.
Proof.
  intros Hr w. split; [apply Hr |].
  exists []. rewrite app_nil_r. auto.
Qed.

Lemma within_trans P (Rs : Store -> Store -> Prop) :
  (forall a b c, Rs a b -> Rs b c -> Rs a c) ->
  forall a b c, within P Rs a b -> within P Rs b c -> within P Rs a c.
Proof.
  intros Ht a b c (H1 & t1 & L1 & F1) (H2 & t2 & L2 & F2).
  split; [eauto |].
  exists (t1 ++ t2). rewrite L2, L1, app_assoc. split; [reflexivity |].
  apply Forall_app; auto.
Qed.

Lemma within_silent P (Rs : Store -> Store -> Prop) w w' :
  (forall s, Rs s s) -> db w' = db w -> log w' = log w -> within P Rs w w'.
Proof.
  intros Hr Hd Hl. split; [rewrite Hd; apply Hr |].
  exists []. rewrite app_nil_r. auto.
Qed.

Lemma same_heap_refl w : same_heap w w.
Proof. reflexivity. Qed.

Lemma same_heap_trans a b c : same_heap a b -> same_heap b c -> same_heap a c.
Proof. unfold same_heap. congruence. Qed.

#[export] Hint Resolve within_refl within_trans same_heap_refl same_heap_trans
  eq_trans : rel.

Section Within.

Variable E : Env.
Variable P : Stmt -> Prop.
Variable Rs : Store -> Store -> Prop.
Hypothesis Rs_refl : forall s, Rs s s.

Lemma within_uuid : respects (within P Rs) (uuid E).
Proof.
  intros w w' r H. inversion H; subst. apply within_silent; auto.
Qed.

Lemma within_now : respects (within P Rs) (now E).
Proof.
  intros w w' r H. inversion H; subst. apply within_silent; auto.
Qed.

Lemma within_alloc o : respects (within P Rs) (alloc o).
Proof.
  intros w w' r H. inversion H; subst. apply within_silent; auto.
Qed.

Lemma within_deref l : respects (within P Rs) (deref l).
Proof.
  intros w w' r H. unfold deref in H.
  destruct (nth_error (heap w) l); inversion H; subst;
    apply within_silent; auto.
Qed.

Lemma within_modify_obj l f : respects (within P Rs) (modify_obj l f).
Proof.
  intros w w' r H. inversion H; subst. apply within_silent; auto.
Qed.

Lemma within_issue s :
  P s ->
  (forall st st', apply_stmt (dialect E) s st = inr st' -> Rs st st') ->
  respects (within P Rs) (issue E s).
Proof.
  intros Hp Hs w w' r H.
  destruct (issue_inv _ _ _ _ _ H) as (_ & _ & [(st & Ha & _ & _ & Hdb & Hl)
                                          | (e & _ & Hdb & Hl & _)]).
  - split; [subst st; eauto |].
    exists [mkEvent s None]. split; [assumption |]. repeat constructor; auto.
  - split; [rewrite Hdb; apply Rs_refl |].
    exists [mkEvent s (Some e)]. split; [assumption |].
    repeat constructor; auto.
Qed.

Lemma within_read {A} s (f : Store -> A) :
  P s ->
  (forall st st', apply_stmt (dialect E) s st = inr st' -> Rs st st') ->
  (forall a b c, Rs a b -> Rs b c -> Rs a c) ->
  respects (within P Rs) (read E s f).
Proof.
  intros Hp Hs Ht. unfold read.
  apply respects_bind; [apply within_trans; auto | apply within_issue; auto |].
  intros _ w w' r H. inversion H; subst. apply within_refl; auto.
Qed.

End Within.

Section SameHeap.

Variable E : Env.

Lemma heap_uuid : respects same_heap (uuid E).
Proof. intros w w' r H. inversion H; subst. reflexivity. Qed.

Lemma heap_now : respects same_heap (now E).
Proof. intros w w' r H. inversion H; subst. reflexivity. Qed.

Lemma heap_deref l : respects same_heap (deref l).
Proof.
  intros w w' r H. unfold deref in H.
  destruct (nth_error (heap w) l); inversion H; subst; reflexivity.
Qed.

Lemma heap_issue s : respects same_heap (issue E s).
Proof.
  intros w w' r H. destruct (issue_inv _ _ _ _ _ H) as (_ & Hh & _). exact Hh.
Qed.

Lemma heap_read {A} s (f : Store -> A) : respects same_heap (read E s f).
Proof.
  unfold read. apply respects_bind; [eauto with rel | apply heap_issue |].
  intros _ w w' r H. inversion H; subst. reflexivity.
Qed.

End SameHeap.

Ltac heap_leaf :=
  first [ apply heap_uuid | apply heap_now | apply heap_deref
        | apply heap_issue | apply heap_read ].

(** The statements of a handler that only sends selects. *)
Ltac reads_leaf :=
  first [ apply within_uuid; rel_side
        | apply within_now; rel_side
        | apply within_alloc; rel_side
        | apply within_deref; rel_side
        | apply within_modify_obj; rel_side
        | apply within_read;
            [rel_side | reflexivity
            | intros ? ? Hst; inversion Hst; reflexivity | rel_side]
        ].

(* ===================================================================== *)
(** * [load]                                                              *)
(* ===================================================================== *)

Lemma bind_inv_ok {A B} (m : M A) (k : A -> M B) w w' b :
  bind m k w = (w', Ok b) ->
  exists w1 a, m w = (w1, Ok a) /\ k a w1 = (w', Ok b).
Proof.
  intros H. destruct (bind_inv _ _ _ _ _ H) as [? | (e & _ & He)];
    [assumption | discriminate].
Qed.

Lemma read_ok {A} E s (f : Store -> A) w w' a :
  is_mutation s = false ->
  read E s f w = (w', Ok a) ->
  a = f (db w) /\ db w' = db w /\ drawn w' = drawn w /\ heap w' = heap w.
Proof.
  intros Hs H.
  destruct (read_inv _ _ _ _ _ _ Hs H) as (Hd & Hn & Hh & [(Hr & _) | (e & Hr & _)]);
    [| discriminate].
  inversion Hr; subst. auto.
Qed.

Lemma load_reads E slug user : respects reads_only (load E slug user).
Proof.
  unfold load, reads_only. repeat respects_step reads_leaf.
Qed.

Tactic Notation "read_ok_in" hyp(H) "as" simple_intropattern(pat) :=
  apply read_ok in H; [destruct H as pat | reflexivity].

Lemma update_nth_last {A} (f : A -> A) (l : list A) (x : A) :
  update_nth (List.length l) f (l ++ [x]) = l ++ [f x].
Proof. induction l; simpl; congruence. Qed.

Lemma load_ok E slug user w w1 p :
  load E slug user w = (w1, Ok p) ->
  exists o,
    loaded (db w) slug user (List.length (heap w)) = Some (p, o)
    /\ db w1 = db w /\ drawn w1 = drawn w /\ heap w1 = heap w ++ [o].
Proof.
  unfold load. intros H.
  apply bind_inv_ok in H. destruct H as (w2 & [] & H0 & H).
  assert (w2 = w) as ->.
  { unfold assert in H0. destruct (negb (slug =? "")); inversion H0; auto. }
  clear H0.
  apply bind_inv_ok in H. destruct H as (w3 & found & H1 & H).
  read_ok_in H1 as (-> & Hd3 & Hn3 & Hh3).
  unfold loaded.
  destruct (first_article (db w) slug) as [row|]; [| discriminate].
  apply bind_inv_ok in H. destruct H as (w4 & trs & H2 & H).
  read_ok_in H2 as (-> & Hd4 & Hn4 & Hh4). rewrite Hd3 in *.
  apply bind_inv_ok in H. destruct H as (w5 & tl & H3 & H).
  assert (tl = tag_names_of (db w) (rows_articles_tags (db w) (Article.id row))
          /\ db w5 = db w /\ drawn w5 = drawn w /\ heap w5 = heap w)
    as (-> & Hd5 & Hn5 & Hh5).
  { unfold tag_names_of.
    destruct (nonempty (rows_articles_tags (db w) (Article.id row))).
    - cbv zeta in H3. apply bind_inv_ok in H3.
      destruct H3 as (w6 & rows & H3 & H4).
      read_ok_in H3 as (-> & Hd6 & Hn6 & Hh6).
      inversion H4; subst. repeat split; congruence.
    - inversion H3; subst. repeat split; congruence. }
  apply bind_inv_ok in H. destruct H as (w6 & au & H4 & H).
  read_ok_in H4 as (-> & Hd6 & Hn6 & Hh6). rewrite Hd5 in *.
  destruct (first_user (db w) (Article.author row)) as [u|]; [| discriminate].
  apply bind_inv_ok in H. destruct H as (w7 & l & H5 & H).
  inversion H5; subst w7 l; clear H5.
  apply bind_inv_ok in H. destruct H as (w8 & [] & H6 & H).
  apply bind_inv_ok in H. destruct H as (w9 & favs & H7 & H).
  inversion H; subst w1 p; clear H.
  assert (Hlen : List.length (heap w6) = List.length (heap w))
    by congruence.
  assert (Hw8 : db w8 = db w /\ drawn w8 = drawn w
                /\ heap w8
                   = heap w ++
                     [{| User.o_id := Some (User.id u);
                         User.o_username := User.username u;
                         User.o_bio := User.bio u;
                         User.o_image := User.image u;
                         User.o_following := follows (db w) user u |}]).
  { unfold follows. destruct user as [me|].
    - destruct (negb (User.username me =? User.username u)); simpl.
      + apply bind_inv_ok in H6. destruct H6 as (wa & res & H6 & H8).
        read_ok_in H6 as (-> & Hda & Hna & Hha). simpl in Hda, Hna, Hha.
        cbn [db] in H8. rewrite Hd6 in *.
        destruct (nonempty (rows_followers (db w) (User.id u) (User.id me))).
        * inversion H8; subst; simpl.
          rewrite Hha, update_nth_last. simpl.
          repeat split; try congruence.
          unfold set_following; simpl. congruence.
        * inversion H8; subst.
          repeat split; congruence.
      + inversion H6; subst; simpl. repeat split; congruence.
    - inversion H6; subst; simpl. repeat split; congruence. }
  destruct Hw8 as (Hd8 & Hn8 & Hh8).
  assert (favs = favorites_of (db w) user (Article.id row)
          /\ db w9 = db w /\ drawn w9 = drawn w /\ heap w9 = heap w8)
    as (-> & Hd9 & Hn9 & Hh9).
  { unfold favorites_of. destruct user as [me|].
    - read_ok_in H7 as (-> & Hd9 & Hn9 & Hh9). repeat split; congruence.
    - inversion H7; subst. auto. }
  eexists. split.
  - simpl. rewrite Hlen. reflexivity.
  - repeat split; congruence.
Qed.

(* ===================================================================== *)
(** * Requests that go through [bySlug]                                   *)
(* ===================================================================== *)

Lemma returns_ret {A} (Q : A -> Prop) a : Q a -> returns Q (ret a).
Proof. intros H w w' b Hr. inversion Hr; subst. exact H. Qed.

Lemma returns_throw {A} (Q : A -> Prop) e : returns Q (throw e).
Proof. intros w w' b Hr. discriminate. Qed.

Lemma returns_bind {A B} (Q : B -> Prop) (m : M A) (k : A -> M B) :
  (forall a, returns Q (k a)) -> returns Q (bind m k).
Proof.
  intros Hk w w' b Hr. apply bind_inv_ok in Hr.
  destruct Hr as (w1 & a & _ & Hr). eapply Hk; eauto.
Qed.

Ltac returns_step :=
  lazymatch goal with
  | |- returns _ (bind _ _) => apply returns_bind; intro
  | |- returns _ (ret _) => apply returns_ret
  | |- returns _ (throw _) => apply returns_throw
  | |- returns _ (match ?x with _ => _ end) => destruct x
  | |- returns _ (let _ := _ in _) => cbv zeta
  end.

Lemma heap_getOne p : respects same_heap (getOne p).
Proof. unfold getOne. repeat respects_step heap_leaf. Qed.

Lemma heap_insert_tags E ts : respects same_heap (insert_tags E ts).
Proof.
  induction ts as [|t ts IH]; simpl.
  - repeat respects_step heap_leaf.
  - apply respects_bind; [rel_side | | intros _; exact IH].
    repeat respects_step heap_leaf.
Qed.

Lemma heap_link_tags E ts a : respects same_heap (link_tags E ts a).
Proof.
  unfold link_tags, new_relations.
  repeat respects_step ltac:(first [apply heap_insert_tags | heap_leaf]).
Qed.

Lemma heap_put E user fields p : respects same_heap (put E user fields p).
Proof.
  unfold put, author_id_of, update_article, new_tags, validate_tags.
  repeat respects_step ltac:(first [apply heap_link_tags | heap_leaf]).
Qed.

Lemma heap_del E user p : respects same_heap (del E user p).
Proof. unfold del. repeat respects_step heap_leaf. Qed.

Lemma heap_favorite_post E user p : respects same_heap (favorite_post E user p).
Proof. unfold favorite_post. repeat respects_step heap_leaf. Qed.

Lemma heap_favorite_del E user p : respects same_heap (favorite_del E user p).
Proof. unfold favorite_del. repeat respects_step heap_leaf. Qed.

Lemma refers_getOne p :
  Article.v_author (article p) = author p -> returns (refers p) (getOne p).
Proof. intros H. unfold getOne. apply returns_ret. exact H. Qed.

Lemma refers_put E user fields p :
  Article.v_author (article p) = author p ->
  returns (refers p) (put E user fields p).
Proof. intros H. unfold put. repeat returns_step. reflexivity. Qed.

Lemma refers_del E user p : returns (refers p) (del E user p).
Proof. unfold del. repeat returns_step. exact I. Qed.

Lemma refers_favorite_post E user p :
  Article.v_author (article p) = author p ->
  returns (refers p) (favorite_post E user p).
Proof. intros H. unfold favorite_post. repeat returns_step; exact H. Qed.

Lemma refers_favorite_del E user p :
  Article.v_author (article p) = author p ->
  returns (refers p) (favorite_del E user p).
Proof. intros H. unfold favorite_del. repeat returns_step; exact H. Qed.

Lemma loaded_author st slug user l p o :
  loaded st slug user l = Some (p, o) ->
  author p = l /\ Article.v_author (article p) = l
  /\ exists u, User.o_id o = Some (User.id u).
Proof.
  unfold loaded. intros H.
  destruct (first_article st slug) as [row|]; [| discriminate].
  destruct (first_user st (Article.author row)) as [u|]; [| discriminate].
  inversion H; subst; simpl. eauto.
Qed.

Lemma nth_error_last {A} (l : list A) (x : A) :
  nth_error (l ++ [x]) (List.length l) = Some x.
Proof. induction l; simpl; auto. Qed.

(** A request through [bySlug] that answers: [load] found the article, the
    handler ran on what it found, and the response shows the author object
    without its id. *)
Lemma respond_bySlug E slug user (h : Params -> M Body) w w' j :
  (forall p, respects same_heap (h p)) ->
  (forall p, Article.v_author (article p) = author p ->
             returns (refers p) (h p)) ->
  respond (bySlug E slug user h) w = (w', Ok j) ->
  exists w1 p o w2 b,
    load E slug user w = (w1, Ok p)
    /\ loaded (db w) slug user (List.length (heap w)) = Some (p, o)
    /\ db w1 = db w /\ drawn w1 = drawn w /\ heap w1 = heap w ++ [o]
    /\ h p w1 = (w2, Ok b)
    /\ db w' = db w2 /\ log w' = log w2 /\ drawn w' = drawn w2
    /\ heap w' = heap w ++ [delete_id o]
    /\ j = render_with (delete_id o) b.
Proof.
  intros Hheap Href H. unfold respond in H. rewrite bySlug_load in H.
  destruct (bind (load E slug user) _ w) as [wf [b|e]] eqn:Hrun;
    [| discriminate].
  apply bind_inv_ok in Hrun. destruct Hrun as (w1 & p & Hload & Hrun).
  apply bind_inv_ok in Hrun. destruct Hrun as (w2 & b' & Hh & Hrun).
  apply bind_inv_ok in Hrun. destruct Hrun as (w3 & [] & Hm & Hrun).
  inversion Hrun; subst wf b'; clear Hrun.
  inversion Hm; subst w3; clear Hm. cbn [heap db log drawn] in H.
  destruct (load_ok _ _ _ _ _ _ Hload) as (o & Hl & Hd1 & Hn1 & Hh1).
  destruct (loaded_author _ _ _ _ _ _ Hl) as (Ha & Hv & _).
  assert (Hh2 : heap w2 = heap w ++ [o]).
  { rewrite <- Hh1. eapply Hheap; eauto. }
  assert (Hup : update_nth (author p) delete_id (heap w2)
                = heap w ++ [delete_id o]).
  { rewrite Hh2, Ha. apply update_nth_last. }
  rewrite Hup in H.
  assert (Hr : refers p b) by (eapply Href; eauto; congruence).
  exists w1, p, o, w2, b.
  destruct b as [a | l n |]; simpl in H, Hr.
  - rewrite Hr, Ha, nth_error_last in H. simpl in H.
    inversion H; subst; simpl. repeat split; auto.
  - inversion H; subst; simpl. repeat split; auto.
  - inversion H; subst; simpl. repeat split; auto.
Qed.

(* ===================================================================== *)
(** * The author id never leaves the server                               *)
(* ===================================================================== *)

Lemma map_result_Forall {A B} (f : A -> Result B) (Q : B -> Prop) l ys :
  (forall x y, f x = Ok y -> Q y) ->
  map_result f l = Ok ys -> Forall Q ys.
Proof.
  intros Hf. revert ys. induction l as [|x l IH]; simpl; intros ys H.
  - inversion H; subst. constructor.
  - destruct (f x) as [y|e] eqn:Hx; [| discriminate].
    destruct (map_result f l) as [ys'|e]; [| discriminate].
    inversion H; subst. constructor; eauto.
Qed.

Lemma hides_bySlug E slug user (h : Params -> M Body) w w' j :
  (forall p, respects same_heap (h p)) ->
  (forall p, Article.v_author (article p) = author p ->
             returns (refers p) (h p)) ->
  respond (bySlug E slug user h) w = (w', Ok j) ->
  hides_author_id j.
Proof.
  intros Hh Hr H.
  destruct (respond_bySlug _ _ _ _ _ _ _ Hh Hr H)
    as (w1 & p & o & w2 & b & Hload & Hl & _ & _ & _ & Hrun & _ & _ & _ & _ & ->).
  destruct (loaded_author _ _ _ _ _ _ Hl) as (Ha & Hv & _).
  assert (Hb : refers p b) by (eapply Hr; eauto; congruence).
  destruct b; simpl in *; [reflexivity | contradiction | exact I].
Qed.

Lemma hides_listed (f : Mapped -> Result (Article.view User.obj)) rows l :
  f = finish_listed \/ f = finish_fed ->
  map_result f (joinjs_map rows) = Ok l ->
  Forall (fun a => User.o_id (Article.v_author a) = None) l.
Proof.
  intros Hf. apply map_result_Forall.
  intros m y Hy.
  destruct Hf as [-> | ->]; unfold finish_listed, finish_fed in Hy;
    destruct (m_author m); inversion Hy; reflexivity.
Qed.

Lemma lift_result_ok {A} (x : Result A) w w' a :
  lift_result x w = (w', Ok a) -> x = Ok a /\ w' = w.
Proof. destruct x; simpl; intros H; inversion H; auto. Qed.

Ltac invert_binds H :=
  repeat (apply bind_inv_ok in H;
          let wn := fresh "w" in
          let an := fresh "a" in
          let Hn := fresh "Hs" in
          destruct H as (wn & an & Hn & H)).

Lemma hides_post E user payload w w' j :
  respond (post E user payload) w = (w', Ok j) -> hides_author_id j.
Proof.
  unfold respond. intros H.
  destruct (post E user payload w) as [w1 [b|e]] eqn:Hrun; [| discriminate].
  unfold post in Hrun. invert_binds Hrun.
  inversion Hrun; subst; clear Hrun.
  inversion Hs4; subst; clear Hs4.
  cbn [render heap Article.v_author Article.view_of_row] in H.
  rewrite nth_error_last in H. simpl in H.
  inversion H; subst. reflexivity.
Qed.

Lemma hides_get E user q w w' j :
  respond (get E user q) w = (w', Ok j) -> hides_author_id j.
Proof.
  unfold respond. intros H.
  destruct (get E user q w) as [w1 [b|e]] eqn:Hrun; [| discriminate].
  unfold get in Hrun. invert_binds Hrun.
  inversion Hrun; subst; clear Hrun.
  apply lift_result_ok in Hs0. destruct Hs0 as (Hm & _).
  simpl in H. inversion H; subst. simpl.
  exact (hides_listed finish_listed _ _ (or_introl eq_refl) Hm).
Qed.

Lemma hides_feed E user limit offset w w' j :
  respond (feed_get E user limit offset) w = (w', Ok j) -> hides_author_id j.
Proof.
  unfold respond. intros H.
  destruct (feed_get E user limit offset w) as [w1 [b|e]] eqn:Hrun;
    [| discriminate].
  unfold feed_get in Hrun. invert_binds Hrun.
  inversion Hrun; subst; clear Hrun.
  apply lift_result_ok in Hs1. destruct Hs1 as (Hm & _).
  simpl in H. inversion H; subst. simpl.
  exact (hides_listed finish_fed _ _ (or_intror eq_refl) Hm).
Qed.

(** C8.  Whatever operation returns articles (one by slug, the list, the
    feed, create, update, favorite, unfavorite), and delete as well: when
    the request is answered, no author object of the response has an [id]
    key.  For the operations on one article the key is still there while the
    handler runs (the ownership check of [put] and [del] reads it) and is
    deleted from the shared author object before the response is written. *)
Theorem C8_author_id_not_exposed E req w w' j :
  serve E req w = (w', Ok j) -> hides_author_id j.
Proof.
  unfold serve. destruct req; simpl handle; intros H.
  - eapply hides_bySlug; [| | exact H].
    + apply heap_getOne.
    + apply refers_getOne.
  - eapply hides_get; eauto.
  - eapply hides_feed; eauto.
  - eapply hides_post; eauto.
  - eapply hides_bySlug; [| | exact H].
    + apply heap_put.
    + apply refers_put.
  - eapply hides_bySlug; [| | exact H].
    + apply heap_del.
    + intros p _. apply refers_del.
  - eapply hides_bySlug; [| | exact H].
    + apply heap_favorite_post.
    + apply refers_favorite_post.
  - eapply hides_bySlug; [| | exact H].
    + apply heap_favorite_del.
    + apply refers_favorite_del.
Qed.

Lemma C8_author_id_not_exposed_witness :
  exists w' j,
    serve (Demo.env Sqlite3 Demo.no_fault)
      (Update "hello-world" Demo.alice (Demo.with_tags ["a"; "c"]))
      Demo.world = (w', Ok j)
    /\ hides_author_id j.
Proof.
  eexists. eexists.
  assert (H : serve (Demo.env Sqlite3 Demo.no_fault)
                (Update "hello-world" Demo.alice (Demo.with_tags ["a"; "c"]))
                Demo.world = (_, Ok _)) by (lazy; reflexivity).
  split; [exact H | exact (C8_author_id_not_exposed _ _ _ _ _ H)].
Defined.

(* ===================================================================== *)
(** * Ownership                                                           *)
(* ===================================================================== *)

Lemma first_user_id st i u : first_user st i = Some u -> User.id u = i.
Proof.
  unfold first_user. intros H. apply find_some in H.
  destruct H as (_ & H). apply String.eqb_eq in H. exact H.
Qed.

Lemma loaded_owner st slug user l p o row :
  loaded st slug user l = Some (p, o) ->
  first_article st slug = Some row ->
  User.o_id o = Some (Article.author row)
  /\ Article.v_id (article p) = Article.id row.
Proof.
  unfold loaded. intros H Hrow. rewrite Hrow in H.
  destruct (first_user st (Article.author row)) as [u|] eqn:Hu;
    [| discriminate].
  inversion H; subst; simpl. rewrite (first_user_id _ _ _ Hu). auto.
Qed.

Lemma put_not_owner E user fields p w owner :
  nth_error (heap w) (Article.v_author (article p)) = Some owner ->
  some_eqb (User.o_id owner) (User.id user) = false ->
  put E user fields p w = (w, Throw ownership_error).
Proof.
  intros Hn Ho. unfold put. cbv zeta. unfold bind at 1, deref at 1.
  rewrite Hn. unfold bind at 1. rewrite Ho. reflexivity.
Qed.

Lemma del_not_owner E user p w owner :
  nth_error (heap w) (Article.v_author (article p)) = Some owner ->
  some_eqb (User.o_id owner) (User.id user) = false ->
  del E user p w = (w, Throw ownership_error).
Proof.
  intros Hn Ho. unfold del. cbv zeta. unfold bind at 1, deref at 1.
  rewrite Hn. unfold bind at 1. rewrite Ho. reflexivity.
Qed.

Lemma some_eqb_false (a b : string) : a <> b -> some_eqb (Some a) b = false.
Proof. intros H. simpl. apply String.eqb_neq. exact H. Qed.

(** A request through [bySlug] whose handler refuses what [load] found. *)
Lemma bySlug_refused E slug user (h : Params -> M Body) e w w' r :
  (forall w1 p o,
      loaded (db w) slug user (List.length (heap w)) = Some (p, o) ->
      heap w1 = heap w ++ [o] ->
      h p w1 = (w1, Throw e)) ->
  bySlug E slug user h w = (w', r) ->
  reads_only w w'
  /\ (exists e', r = Throw e')
  /\ forall w1 p, load E slug user w = (w1, Ok p) -> w' = w1 /\ r = Throw e.
Proof.
  intros Hh H. rewrite bySlug_load in H.
  destruct (load E slug user w) as [w1 [p|e1]] eqn:Hload.
  - destruct (load_ok _ _ _ _ _ _ Hload) as (o & Hl & Hd & Hn & Hhp).
    rewrite (bind_ok _ _ _ _ _ Hload) in H.
    rewrite (bind_throw _ _ _ _ _ (Hh _ _ _ Hl Hhp)) in H.
    inversion H; subst.
    split; [eapply load_reads; eauto |].
    split; [eauto |]. intros w2 p2 Heq. inversion Heq; subst. auto.
  - rewrite (bind_throw _ _ _ _ _ Hload) in H. inversion H; subst.
    split; [eapply load_reads; eauto |].
    split; [eauto |]. intros w2 p2 Heq. discriminate.
Qed.

(** C9.  An update or a delete asked by a caller who is not the author of the
    article: nothing is written (the rows are those of before the request and
    the only statements sent are the selects of [bySlug]) and the request
    fails; when [bySlug] has read the article, it fails where the handler
    starts, with the validation error that names [article]. *)
Theorem C9_non_author_rejected E slug user fields req row w :
  req = Update slug user fields \/ req = Delete slug user ->
  first_article (db w) slug = Some row ->
  Article.author row <> User.id user ->
  forall w' r,
    handle E req w = (w', r) ->
    db w' = db w
    /\ (exists tr, log w' = log w ++ tr
                   /\ Forall (fun e => is_mutation (stmt e) = false) tr)
    /\ (exists e, r = Throw e)
    /\ forall w1 p,
         load E slug (Some user) w = (w1, Ok p) ->
         w' = w1
         /\ r = Throw (ValidationError 422 ["not owned by user"] "" "article").
Proof.
  intros Hreq Hrow Hne w' r H.
  assert (Hown : forall w1 p o,
             loaded (db w) slug (Some user) (List.length (heap w)) = Some (p, o) ->
             heap w1 = heap w ++ [o] ->
             nth_error (heap w1) (Article.v_author (article p)) = Some o
             /\ some_eqb (User.o_id o) (User.id user) = false).
  { intros w1 p o Hl Hh.
    destruct (loaded_author _ _ _ _ _ _ Hl) as (_ & Hv & _).
    destruct (loaded_owner _ _ _ _ _ _ _ Hl Hrow) as (Ho & _).
    rewrite Hh, Hv, nth_error_last, Ho.
    split; [reflexivity | apply some_eqb_false; exact Hne]. }
  assert (Hgoal : reads_only w w'
                  /\ (exists e', r = Throw e')
                  /\ forall w1 p, load E slug (Some user) w = (w1, Ok p) ->
                                  w' = w1 /\ r = Throw ownership_error).
  { destruct Hreq as [-> | ->]; simpl in H;
      (eapply bySlug_refused; [| exact H]);
      intros w1 p o Hl Hh; destruct (Hown _ _ _ Hl Hh) as (Hn & Ho).
    - eapply put_not_owner; eauto.
    - eapply del_not_owner; eauto. }
  destruct Hgoal as ((Hdb & Htr) & He & Hv).
  repeat split; auto.
  - apply Hv in H0. tauto.
  - apply Hv in H0. tauto.
Qed.

Lemma C9_non_author_rejected_witness :
  exists w' r,
    handle (Demo.env Postgres Demo.no_fault) (Delete "hello-world" Demo.bob)
      Demo.world = (w', r)
    /\ db w' = db Demo.world
    /\ r = Throw (ValidationError 422 ["not owned by user"] "" "article").
Proof.
  eexists. eexists.
  assert (H : handle (Demo.env Postgres Demo.no_fault)
                (Delete "hello-world" Demo.bob) Demo.world = (_, _))
    by (lazy; reflexivity).
  destruct (C9_non_author_rejected (Demo.env Postgres Demo.no_fault)
              "hello-world" Demo.bob Demo.no_fields
              (Delete "hello-world" Demo.bob) Demo.hello Demo.world
              (or_intror eq_refl) eq_refl
              ltac:(simpl; discriminate) _ _ H)
    as (Hdb & _ & _ & Hv).
  split; [exact H |]. split; [exact Hdb |].
  eapply Hv. lazy. reflexivity.
Defined.

(* ===================================================================== *)
(** * Favorite and unfavorite                                             *)
(* ===================================================================== *)

Lemma loaded_favorited st slug user l p o :
  loaded st slug (Some user) l = Some (p, o) ->
  Article.v_favorited (article p) = favorited_in st slug user.
Proof.
  unfold loaded, favorited_in. intros H.
  destruct (first_article st slug) as [row|]; [| discriminate].
  destruct (first_user st (Article.author row)) as [u|]; [| discriminate].
  inversion H; subst; reflexivity.
Qed.

(** Two handlers that agree on what [load] finds give the same request. *)
Lemma respond_bySlug_ext E slug user (h h' : Params -> M Body) w :
  (forall w1 p o,
      loaded (db w) slug user (List.length (heap w)) = Some (p, o) ->
      h p w1 = h' p w1) ->
  respond (bySlug E slug user h) w = respond (bySlug E slug user h') w.
Proof.
  intros Hh. unfold respond. rewrite !bySlug_load.
  destruct (load E slug user w) as [w1 [p|e]] eqn:Hload.
  - destruct (load_ok _ _ _ _ _ _ Hload) as (o & Hl & _).
    rewrite !(bind_ok _ _ _ _ _ Hload).
    unfold bind at 1 3. rewrite (Hh _ _ _ Hl). reflexivity.
  - rewrite !(bind_throw _ _ _ _ _ Hload). reflexivity.
Qed.

Lemma favorite_noop E slug user w :
  favorited_in (db w) slug user = true ->
  serve E (Favorite slug user) w = serve E (GetOne slug (Some user)) w.
Proof.
  intros Hf. unfold serve, handle. apply respond_bySlug_ext.
  intros w1 p o Hl. unfold favorite_post, getOne.
  rewrite (loaded_favorited _ _ _ _ _ _ Hl), Hf. reflexivity.
Qed.

Lemma unfavorite_noop E slug user w :
  favorited_in (db w) slug user = false ->
  serve E (Unfavorite slug user) w = serve E (GetOne slug (Some user)) w.
Proof.
  intros Hf. unfold serve, handle. apply respond_bySlug_ext.
  intros w1 p o Hl. unfold favorite_del, getOne.
  rewrite (loaded_favorited _ _ _ _ _ _ Hl), Hf. reflexivity.
Qed.

Lemma respond_db (m : M Body) w w' r :
  respond m w = (w', r) -> exists r', m w = (w', r').
Proof.
  unfold respond. destruct (m w) as [w1 [b|e]]; intros H.
  - destruct (render (heap w1) b); inversion H; subst; eauto.
  - inversion H; subst; eauto.
Qed.

Lemma getOne_reads E slug user w w' r :
  serve E (GetOne slug user) w = (w', r) ->
  db w' = db w /\ only_selects w w'.
Proof.
  unfold serve, handle. intros H.
  destruct (respond_db _ _ _ _ H) as (r' & Hr). clear H.
  rewrite bySlug_load in Hr.
  assert (Hres : respects reads_only
                   (params <- load E slug user ;;
                    body <- getOne params ;;
                    modify_obj (author params) delete_id ;; ret body)).
  { unfold reads_only, getOne.
    apply respects_bind; [rel_side | apply load_reads | intro].
    repeat respects_step reads_leaf. }
  destruct (Hres _ _ _ Hr) as (Hd & Ht). split; [symmetry |]; assumption.
Qed.

Lemma find_slug_map (g : Article.row -> Article.row) s l :
  (forall r, Article.slug (g r) = Article.slug r) ->
  find (fun r => Article.slug r =? s) (map g l)
  = option_map g (find (fun r => Article.slug r =? s) l).
Proof.
  intros Hg. induction l as [|x l IH]; simpl; [reflexivity |].
  rewrite Hg. destruct (Article.slug x =? s); [reflexivity | exact IH].
Qed.

Lemma loaded_bumped st st' slug user l l' p o row n :
  loaded st slug (Some user) l = Some (p, o) ->
  first_article st slug = Some row ->
  articles st'
  = map (fun r => if Article.id r =? Article.id row then Article.bump n r
                  else r) (articles st) ->
  users st' = users st -> tags st' = tags st ->
  articles_tags st' = articles_tags st -> followers st' = followers st ->
  exists p',
    loaded st' slug (Some user) l' = Some (p', o)
    /\ forall x : User.obj,
        Article.with_author x (article p')
        = Article.with_author x
            (Article.with_favorite
               (nonempty (rows_favorites st' (User.id user) (Article.id row)))
               (Article.v_favorites_count (article p) + n)%Z (article p)).
Proof.
  intros Hl Hrow Ha Hu Ht Hat Hf.
  unfold loaded in *. rewrite Hrow in Hl.
  assert (Hrow' : first_article st' slug = Some (Article.bump n row)).
  { unfold first_article in *. rewrite Ha, find_slug_map.
    - rewrite Hrow. simpl. rewrite String.eqb_refl. reflexivity.
    - intros r. destruct (Article.id r =? Article.id row); reflexivity. }
  rewrite Hrow'. cbn [Article.bump Article.author Article.id].
  assert (Hfu : first_user st' (Article.author row)
                = first_user st (Article.author row))
    by (unfold first_user; rewrite Hu; reflexivity).
  rewrite Hfu.
  destruct (first_user st (Article.author row)) as [u|]; [| discriminate].
  inversion Hl; subst p o; clear Hl.
  assert (Hrt : rows_articles_tags st' (Article.id row)
                = rows_articles_tags st (Article.id row))
    by (unfold rows_articles_tags; rewrite Hat; reflexivity).
  assert (Htn : forall trs, tag_names_of st' trs = tag_names_of st trs)
    by (intros trs; unfold tag_names_of, rows_tags_by_id; rewrite Ht;
        reflexivity).
  assert (Hfo : follows st' (Some user) u = follows st (Some user) u)
    by (unfold follows, rows_followers; rewrite Hf; reflexivity).
  eexists. split.
  - rewrite Hrt, Htn, Hfo. reflexivity.
  - intros x. reflexivity.
Qed.

Lemma issue_ok E s w w' :
  issue E s w = (w', Ok tt) ->
  apply_stmt (dialect E) s (db w) = inr (db w').
Proof.
  intros H.
  destruct (issue_inv _ _ _ _ _ H) as (_ & _ & [(st & Ha & _ & _ & Hd & _)
                                               | (e & He & _)]);
    [congruence | discriminate].
Qed.

Lemma promise_pair_ok E s1 s2 w w' :
  promise_all [issue E s1; issue E s2] w = (w', Ok tt) ->
  exists st1, apply_stmt (dialect E) s1 (db w) = inr st1
              /\ apply_stmt (dialect E) s2 st1 = inr (db w').
Proof.
  simpl. intros H.
  destruct (issue E s1 w) as [w1 r1] eqn:H1.
  destruct (issue E s2 w1) as [w2 r2] eqn:H2.
  inversion H; subst; clear H.
  destruct r1 as [[]|e1]; [| discriminate].
  destruct r2 as [[]|e2]; [| discriminate].
  exists (db w1). split; eapply issue_ok; eauto.
Qed.

(** After a favorite request that was answered, the caller has a Favorite row
    and the next read shows what the request answered; likewise after an
    unfavorite request, with no row. *)
Lemma favorite_settles E slug user w w1 j1 :
  serve E (Favorite slug user) w = (w1, Ok j1) ->
  favorited_in (db w1) slug user = true
  /\ forall w2 j2, serve E (GetOne slug (Some user)) w1 = (w2, Ok j2) -> j2 = j1.
Proof.
  unfold serve, handle. intros H.
  destruct (respond_bySlug _ _ _ _ _ _ _ (heap_favorite_post E user)
              (refers_favorite_post E user) H)
    as (wl & p & o & wh & b & Hload & Hl & Hdl & _ & _ & Hrun & Hd1 & _ & _
        & _ & ->).
  pose proof (loaded_favorited _ _ _ _ _ _ Hl) as Hfav.
  assert (Hrow : exists row, first_article (db w) slug = Some row).
  { unfold loaded in Hl. destruct (first_article (db w) slug); [eauto |].
    discriminate. }
  destruct Hrow as (row & Hrow).
  destruct (loaded_owner _ _ _ _ _ _ _ Hl Hrow) as (_ & Hid).
  unfold favorite_post in Hrun.
  destruct (Article.v_favorited (article p)) eqn:Hv.
  - (* already favorited: nothing was written *)
    inversion Hrun; subst wh b; clear Hrun.
    rewrite Hd1, Hdl. split; [congruence |].
    intros w2 j2 H2.
    destruct (respond_bySlug _ _ _ _ _ _ _ heap_getOne refers_getOne H2)
      as (wl2 & p2 & o2 & wh2 & b2 & _ & Hl2 & _ & _ & _ & Hrun2 & _ & _ & _
          & _ & ->).
    inversion Hrun2; subst. rewrite Hd1, Hdl in Hl2.
    destruct (loaded_bumped (db w) (db w) slug user _
                (List.length (heap w1)) p o row 0 Hl Hrow)
      as (p' & Hl' & Heq); try reflexivity.
    { rewrite <- (map_id (articles (db w))) at 1. apply map_ext. intros r.
      destruct (Article.id r =? Article.id row); [| reflexivity].
      destruct r; unfold Article.bump; simpl. f_equal. lia. }
    rewrite Hl' in Hl2. inversion Hl2; subst p2 o2. simpl.
    rewrite Heq. f_equal. f_equal.
    destruct (article p); unfold Article.with_favorite; simpl in *.
    f_equal; [lia |].
    unfold favorited_in in Hfav. rewrite Hrow in Hfav. congruence.
  - (* newly favorited: the row went in and the counter went up *)
    apply bind_inv_ok in Hrun. destruct Hrun as (wu & id & Hu & Hrun).
    inversion Hu; subst wu id; clear Hu.
    apply bind_inv_ok in Hrun. destruct Hrun as (wp & [] & Hp & Hrun).
    inversion Hrun; subst wh b; clear Hrun.
    apply promise_pair_ok in Hp. destruct Hp as (st1 & Hs1 & Hs2).
    cbn [db apply_stmt] in Hs1, Hs2. inversion Hs1; subst st1; clear Hs1.
    inversion Hs2 as [Hst]; clear Hs2.
    rewrite Hdl, Hid in Hst. rewrite <- Hst in Hd1. clear Hst.
    rewrite Hd1.
    set (st' := set_articles _ _) in *.
    destruct (loaded_bumped (db w) st' slug user _
                (List.length (heap w1)) p o row 1 Hl Hrow)
      as (p' & Hl' & Heq); try reflexivity.
    assert (Hnew : nonempty (rows_favorites st' (User.id user) (Article.id row))
                   = true).
    { unfold rows_favorites, st'. simpl. rewrite filter_app. simpl.
      rewrite !String.eqb_refl. simpl.
      destruct (filter _ (favorites (db w))); reflexivity. }
    split.
    + unfold favorited_in.
      unfold loaded in Hl'.
      destruct (first_article st' slug) as [row'|] eqn:Hrow'; [| discriminate].
      assert (Article.id row' = Article.id row) as ->; [| exact Hnew].
      unfold first_article, st' in Hrow'. simpl in Hrow'.
      rewrite find_slug_map in Hrow'.
      * unfold first_article in Hrow. rewrite Hrow in Hrow'. simpl in Hrow'.
        rewrite String.eqb_refl in Hrow'. inversion Hrow'; reflexivity.
      * intros r. destruct (Article.id r =? Article.id row); reflexivity.
    + intros w2 j2 H2.
      destruct (respond_bySlug _ _ _ _ _ _ _ heap_getOne refers_getOne H2)
        as (wl2 & p2 & o2 & wh2 & b2 & _ & Hl2 & _ & _ & _ & Hrun2 & _ & _ & _
            & _ & ->).
      inversion Hrun2; subst. rewrite Hd1 in Hl2.
      rewrite Hl' in Hl2. inversion Hl2; subst p2 o2. simpl.
      rewrite Heq, Hnew. reflexivity.
Qed.

Lemma filter_after_removal {A} (f : A -> bool) (l : list A) :
  filter f (filter (fun x => negb (f x)) l) = [].
Proof.
  induction l as [|x l IH]; simpl; [reflexivity |].
  destruct (f x) eqn:Hx; simpl; [exact IH |]. rewrite Hx. exact IH.
Qed.

Lemma unfavorite_settles E slug user w w1 j1 :
  serve E (Unfavorite slug user) w = (w1, Ok j1) ->
  favorited_in (db w1) slug user = false
  /\ forall w2 j2, serve E (GetOne slug (Some user)) w1 = (w2, Ok j2) -> j2 = j1.
Proof.
  unfold serve, handle. intros H.
  destruct (respond_bySlug _ _ _ _ _ _ _ (heap_favorite_del E user)
              (refers_favorite_del E user) H)
    as (wl & p & o & wh & b & Hload & Hl & Hdl & _ & _ & Hrun & Hd1 & _ & _
        & _ & ->).
  pose proof (loaded_favorited _ _ _ _ _ _ Hl) as Hfav.
  assert (Hrow : exists row, first_article (db w) slug = Some row).
  { unfold loaded in Hl. destruct (first_article (db w) slug); [eauto |].
    discriminate. }
  destruct Hrow as (row & Hrow).
  destruct (loaded_owner _ _ _ _ _ _ _ Hl Hrow) as (_ & Hid).
  unfold favorite_del in Hrun.
  destruct (Article.v_favorited (article p)) eqn:Hv; cbn [negb] in Hrun.
  - (* favorited: the rows went out and the counter went down *)
    apply bind_inv_ok in Hrun. destruct Hrun as (wp & [] & Hp & Hrun).
    inversion Hrun; subst wh b; clear Hrun.
    apply promise_pair_ok in Hp. destruct Hp as (st1 & Hs1 & Hs2).
    cbn [db apply_stmt] in Hs1, Hs2. inversion Hs1; subst st1; clear Hs1.
    inversion Hs2 as [Hst]; clear Hs2.
    rewrite Hdl, Hid in Hst. rewrite <- Hst in Hd1. clear Hst.
    rewrite Hd1.
    set (st' := set_articles _ _) in *.
    destruct (loaded_bumped (db w) st' slug user _
                (List.length (heap w1)) p o row (- (1)) Hl Hrow)
      as (p' & Hl' & Heq); try reflexivity.
    assert (Hnew : nonempty (rows_favorites st' (User.id user) (Article.id row))
                   = false).
    { unfold rows_favorites, st'. simpl.
      rewrite (filter_after_removal
                 (fun r => (Favorite.user r =? User.id user)
                           && (Favorite.article r =? Article.id row))).
      reflexivity. }
    split.
    + unfold favorited_in.
      unfold loaded in Hl'.
      destruct (first_article st' slug) as [row'|] eqn:Hrow'; [| discriminate].
      assert (Article.id row' = Article.id row) as ->; [| exact Hnew].
      unfold first_article, st' in Hrow'. simpl in Hrow'.
      rewrite find_slug_map in Hrow'.
      * unfold first_article in Hrow. rewrite Hrow in Hrow'. simpl in Hrow'.
        rewrite String.eqb_refl in Hrow'. inversion Hrow'; reflexivity.
      * intros r. destruct (Article.id r =? Article.id row); reflexivity.
    + intros w2 j2 H2.
      destruct (respond_bySlug _ _ _ _ _ _ _ heap_getOne refers_getOne H2)
        as (wl2 & p2 & o2 & wh2 & b2 & _ & Hl2 & _ & _ & _ & Hrun2 & _ & _ & _
            & _ & ->).
      inversion Hrun2; subst. rewrite Hd1 in Hl2.
      rewrite Hl' in Hl2. inversion Hl2; subst p2 o2. simpl.
      rewrite Heq, Hnew. reflexivity.
  - (* not favorited: nothing was written *)
    inversion Hrun; subst wh b; clear Hrun.
    rewrite Hd1, Hdl. split; [congruence |].
    intros w2 j2 H2.
    destruct (respond_bySlug _ _ _ _ _ _ _ heap_getOne refers_getOne H2)
      as (wl2 & p2 & o2 & wh2 & b2 & _ & Hl2 & _ & _ & _ & Hrun2 & _ & _ & _
          & _ & ->).
    inversion Hrun2; subst. rewrite Hd1, Hdl in Hl2.
    destruct (loaded_bumped (db w) (db w) slug user _
                (List.length (heap w1)) p o row 0 Hl Hrow)
      as (p' & Hl' & Heq); try reflexivity.
    { rewrite <- (map_id (articles (db w))) at 1. apply map_ext. intros r.
      destruct (Article.id r =? Article.id row); [| reflexivity].
      destruct r; unfold Article.bump; simpl. f_equal. lia. }
    rewrite Hl' in Hl2. inversion Hl2; subst p2 o2. simpl.
    rewrite Heq. f_equal. f_equal.
    destruct (article p); unfold Article.with_favorite; simpl in *.
    f_equal; [lia |].
    unfold favorited_in in Hfav. rewrite Hrow in Hfav. congruence.
Qed.

(** C3.  Favoriting an article the caller has favorited, and unfavoriting one
    the caller has not, is the read of that article: same response, same
    world, and the read sends selects only and leaves the rows alone.  Hence
    a favorite (or unfavorite) that was answered and is asked again changes
    no row, sends no insert, delete, increment or decrement, and, when it is
    answered, gives the answer of the first. *)
Theorem C3_favorite_idempotent E slug user :
  (forall w, favorited_in (db w) slug user = true ->
             serve E (Favorite slug user) w
             = serve E (GetOne slug (Some user)) w)
  /\ (forall w, favorited_in (db w) slug user = false ->
                serve E (Unfavorite slug user) w
                = serve E (GetOne slug (Some user)) w)
  /\ (forall w w' r, serve E (GetOne slug (Some user)) w = (w', r) ->
                     db w' = db w /\ only_selects w w')
  /\ (forall req, req = Favorite slug user \/ req = Unfavorite slug user ->
      forall w w1 j1, serve E req w = (w1, Ok j1) ->
      forall w2 r2, serve E req w1 = (w2, r2) ->
        db w2 = db w1 /\ only_selects w1 w2
        /\ forall j2, r2 = Ok j2 -> j2 = j1).
Proof.
  split; [intros w; apply favorite_noop |].
  split; [intros w; apply unfavorite_noop |].
  split; [intros w w' r; apply getOne_reads |].
  intros req Hreq w w1 j1 H1 w2 r2 H2.
  destruct Hreq as [-> | ->].
  - destruct (favorite_settles _ _ _ _ _ _ H1) as (Hf & Hj).
    rewrite (favorite_noop _ _ _ _ Hf) in H2.
    destruct (getOne_reads _ _ _ _ _ _ H2) as (Hd & Hs).
    repeat split; auto. intros j2 ->. eapply Hj; eauto.
  - destruct (unfavorite_settles _ _ _ _ _ _ H1) as (Hf & Hj).
    rewrite (unfavorite_noop _ _ _ _ Hf) in H2.
    destruct (getOne_reads _ _ _ _ _ _ H2) as (Hd & Hs).
    repeat split; auto. intros j2 ->. eapply Hj; eauto.
Qed.

Lemma C3_favorite_idempotent_witness :
  exists w1 j1,
    serve (Demo.env Sqlite3 Demo.no_fault) (Favorite "hello-world" Demo.carol)
      Demo.world = (w1, Ok j1)
    /\ exists w2,
        serve (Demo.env Sqlite3 Demo.no_fault)
          (Favorite "hello-world" Demo.carol) w1 = (w2, Ok j1)
        /\ db w2 = db w1.
Proof.
  eexists. eexists. split; [lazy; reflexivity |].
  eexists.
  match goal with
  | |- serve ?E ?req ?w1 = (_, Ok ?j1) /\ _ =>
      assert (H1 : serve E req Demo.world = (w1, Ok j1))
        by (lazy; reflexivity);
      assert (H2 : serve E req w1 = (_, Ok _)) by (lazy; reflexivity);
      destruct (proj2 (proj2 (proj2
                  (C3_favorite_idempotent E "hello-world" Demo.carol)))
                  req (or_introl eq_refl) _ _ _ H1 _ _ H2)
        as (Hd & _ & Hj)
  end.
  split; [| exact Hd].
  exact (eq_trans H2 (f_equal (fun j => (_, Ok j)) (Hj _ eq_refl))).
Defined.

(* ===================================================================== *)
(** * Delete                                                              *)
(* ===================================================================== *)

Lemma promise_all_cons_ok (p : M unit) ps w w' :
  promise_all (p :: ps) w = (w', Ok tt) ->
  exists w1, p w = (w1, Ok tt) /\ promise_all ps w1 = (w', Ok tt).
Proof.
  simpl. intros H.
  destruct (p w) as [w1 r1] eqn:H1.
  destruct (promise_all ps w1) as [w2 r2] eqn:H2.
  inversion H; subst; clear H.
  destruct r1 as [[]|e1]; [| discriminate].
  destruct r2 as [[]|e2]; [| discriminate].
  eauto.
Qed.

Lemma some_eqb_true o s : some_eqb o s = true -> o = Some s.
Proof.
  destruct o as [x|]; simpl; intros H; [| discriminate].
  apply String.eqb_eq in H. congruence.
Qed.

(** What an answered delete has done to the rows. *)
Lemma delete_rows E slug user w w' j row :
  first_article (db w) slug = Some row ->
  serve E (Delete slug user) w = (w', Ok j) ->
  Article.author row = User.id user
  /\ articles (db w')
     = filter (fun r => negb (Article.id r =? Article.id row))
         (articles (db w))
  /\ articles_tags (db w')
     = filter (fun r => negb (ArticleTag.article r =? Article.id row))
         (articles_tags (db w))
  /\ favorites (db w')
     = filter (fun f => negb ((Favorite.user f =? User.id user)
                              && (Favorite.article f =? Article.id row)))
         (favorites (db w)).
Proof.
  unfold serve, handle. intros Hrow H.
  destruct (respond_bySlug _ _ _ _ _ _ _ (heap_del E user)
              (fun p _ => refers_del E user p) H)
    as (wl & p & o & wh & b & Hload & Hl & Hdl & _ & Hhl & Hrun & Hd1 & _ & _
        & _ & _).
  destruct (loaded_author _ _ _ _ _ _ Hl) as (_ & Hv & _).
  destruct (loaded_owner _ _ _ _ _ _ _ Hl Hrow) as (Ho & Hid).
  unfold del in Hrun. cbv zeta in Hrun.
  apply bind_inv_ok in Hrun. destruct Hrun as (w2 & owner & Hde & Hrun).
  unfold deref in Hde. rewrite Hhl, Hv, nth_error_last in Hde.
  inversion Hde; subst w2 owner; clear Hde.
  apply bind_inv_ok in Hrun. destruct Hrun as (w3 & [] & Has & Hrun).
  unfold assert in Has.
  destruct (some_eqb (User.o_id o) (User.id user)) eqn:Hown;
    [| discriminate].
  inversion Has; subst w3; clear Has.
  apply some_eqb_true in Hown.
  apply bind_inv_ok in Hrun. destruct Hrun as (w4 & [] & Hp & Hrun).
  inversion Hrun; subst wh b; clear Hrun.
  apply promise_all_cons_ok in Hp. destruct Hp as (wa & Ha & Hp).
  apply promise_all_cons_ok in Hp. destruct Hp as (wb & Hb & Hp).
  apply promise_all_cons_ok in Hp. destruct Hp as (wc & Hc & Hp).
  inversion Hp; subst wc; clear Hp.
  apply issue_ok in Ha, Hb, Hc. cbn [apply_stmt] in Ha, Hb, Hc.
  inversion Ha as [Ha']. inversion Hb as [Hb']. inversion Hc as [Hc'].
  rewrite Hd1, <- Hc', <- Hb', <- Ha', Hdl, Hid. simpl.
  split; [congruence | auto].
Qed.

(** C1, as the code has it.  After a delete that was answered, asked by the
    author of the article: no Article row has the id of the article, no
    ArticleTag row refers to it, and no Favorite row of the author refers
    to it. *)
Theorem C1_delete_removes E slug user w w' j row :
  first_article (db w) slug = Some row ->
  serve E (Delete slug user) w = (w', Ok j) ->
  Article.author row = User.id user
  /\ (forall r, In r (articles (db w')) -> Article.id r <> Article.id row)
  /\ (forall r, In r (articles_tags (db w')) ->
                ArticleTag.article r <> Article.id row)
  /\ (forall f, In f (favorites (db w')) ->
                Favorite.user f = User.id user ->
                Favorite.article f <> Article.id row).
Proof.
  intros Hrow H.
  destruct (delete_rows _ _ _ _ _ _ _ Hrow H) as (Ha & -> & -> & ->).
  split; [exact Ha |].
  repeat split; intros x Hx; apply filter_In in Hx; destruct Hx as (_ & Hx).
  - intros Heq. rewrite Heq, String.eqb_refl in Hx. discriminate.
  - intros Heq. rewrite Heq, String.eqb_refl in Hx. discriminate.
  - intros Hu Heq. rewrite Hu, Heq, !String.eqb_refl in Hx. discriminate.
Qed.

(** C1, as it is stated, fails: Bob has favorited Alice's article; Alice
    deletes it; Bob's Favorite row still refers to it. *)
Lemma C1_delete_leaves_favorites :
  exists w',
    serve (Demo.env Sqlite3 Demo.no_fault) (Delete "hello-world" Demo.alice)
      Demo.world = (w', Ok JsonEmpty)
    /\ first_article (db Demo.world) "hello-world" = Some Demo.hello
    /\ Article.author Demo.hello = User.id Demo.alice
    /\ ~ leaves_no_reference (db w') (Article.id Demo.hello).
Proof.
  eexists. split; [lazy; reflexivity |].
  split; [reflexivity |]. split; [reflexivity |].
  intros (_ & _ & Hf).
  apply (Hf (Favorite.mk "f-1" "u-bob" "a-1")); [| reflexivity].
  simpl. left. reflexivity.
Qed.

Lemma C1_delete_removes_witness :
  exists w',
    serve (Demo.env Sqlite3 Demo.no_fault) (Delete "hello-world" Demo.alice)
      Demo.world = (w', Ok JsonEmpty)
    /\ (forall r, In r (articles (db w')) -> Article.id r <> "a-1")
    /\ (forall r, In r (articles_tags (db w')) -> ArticleTag.article r <> "a-1").
Proof.
  eexists.
  assert (H : serve (Demo.env Sqlite3 Demo.no_fault)
                (Delete "hello-world" Demo.alice) Demo.world
              = (_, Ok JsonEmpty)) by (lazy; reflexivity).
  destruct (C1_delete_removes (Demo.env Sqlite3 Demo.no_fault) "hello-world"
              Demo.alice Demo.world _ _ Demo.hello eq_refl H)
    as (_ & Ha & Ht & _).
  split; [exact H |]. split; [exact Ha | exact Ht].
Defined.

(* ===================================================================== *)
(** * Update: the frame of the article row                                *)
(* ===================================================================== *)

Lemma update_frame_refl a st : update_frame a st st.
Proof.
  unfold update_frame. induction (articles st); constructor; auto.
Qed.

Lemma update_frame_trans a st1 st2 st3 :
  update_frame a st1 st2 -> update_frame a st2 st3 -> update_frame a st1 st3.
Proof.
  unfold update_frame. intros H12. revert st3.
  generalize dependent (articles st2). generalize (articles st1).
  intros l1 l2 H12. induction H12 as [|x y l1 l2 (Hf & He) _ IH]; intros st3 H23.
  - inversion H23. constructor.
  - inversion H23 as [|y' z l2' l3 (Hf' & He') Hrest Hy Hz]; subst.
    constructor.
    + split; [congruence |].
      intros Hne. rewrite He' by (unfold frame in Hf; congruence). auto.
    + specialize (IH (set_articles l3 st3)). simpl in IH. auto.
Qed.

#[export] Hint Resolve update_frame_refl update_frame_trans : rel.

Lemma update_frame_same a st st' :
  articles st' = articles st -> update_frame a st st'.
Proof. unfold update_frame. intros ->. apply update_frame_refl. Qed.

Lemma frame_patched p a l :
  Article.p_id p = None -> Article.p_favorites_count p = None ->
  Article.p_created_at p = None -> Article.p_author p = None ->
  Forall2 (fun r r' => frame r' = frame r /\ (Article.id r <> a -> r' = r)) l
    (map (fun r => if Article.id r =? a then Article.apply p r else r) l).
Proof.
  intros Hi Hc Ht Hu.
  induction l as [|r l IH]; simpl; constructor; auto.
  destruct (Article.id r =? a) eqn:Heq.
  - split.
    + unfold frame, Article.apply. simpl. rewrite Hi, Hc, Ht, Hu.
      reflexivity.
    + intros Hne. apply String.eqb_eq in Heq. contradiction.
  - auto.
Qed.

Lemma frame_step d s a st st' :
  update_statement a s -> apply_stmt d s st = inr st' -> update_frame a st st'.
Proof.
  intros Hs H. destruct s; simpl in Hs, H; try contradiction;
    try (inversion H; subst; apply update_frame_same; reflexivity).
  - (* an update of the five columns *)
    destruct Hs as (-> & Hi & Hc & Ht & Hu).
    pose proof (frame_patched p a (articles st) Hi Hc Ht Hu) as Hrows.
    destruct (Article.p_slug p);
      [destruct (has_id a (articles st) && _) |];
      inversion H; subst; exact Hrows.
  - (* a tag *)
    destruct (existsb _ (tags st)); inversion H; subst.
    apply update_frame_same. reflexivity.
Qed.

Ltac frame_leaf :=
  first [ apply within_uuid; rel_side
        | apply within_now; rel_side
        | apply within_alloc; rel_side
        | apply within_deref; rel_side
        | apply within_modify_obj; rel_side
        | apply within_read;
            [rel_side | exact I | intros ? ?; apply frame_step; exact I
            | rel_side]
        | apply within_issue;
            [rel_side | | intros ? ?; apply frame_step];
            simpl; auto 6
        ].

Lemma frame_insert_tags E a ts :
  respects (within (update_statement a) (update_frame a)) (insert_tags E ts).
Proof.
  induction ts as [|t ts IH]; simpl.
  - repeat respects_step frame_leaf.
  - apply respects_bind; [rel_side | | intros _; exact IH].
    repeat respects_step frame_leaf.
Qed.

Lemma frame_link_tags E a ts i :
  respects (within (update_statement a) (update_frame a)) (link_tags E ts i).
Proof.
  unfold link_tags, new_relations.
  repeat respects_step ltac:(first [apply frame_insert_tags | frame_leaf]).
Qed.

Lemma frame_put E user fields p :
  respects (within (update_statement (Article.v_id (article p)))
              (update_frame (Article.v_id (article p))))
    (put E user fields p).
Proof.
  unfold put, author_id_of, update_article, new_tags, validate_tags.
  repeat respects_step ltac:(first [apply frame_link_tags | frame_leaf]).
Qed.

Lemma select_is_update_statement a s :
  is_mutation s = false -> update_statement a s.
Proof. destruct s; simpl; intros H; try discriminate; exact I. Qed.

Lemma reads_only_frame a w w' :
  reads_only w w' -> within (update_statement a) (update_frame a) w w'.
Proof.
  intros (Hd & tr & Hl & Ht). split.
  - apply update_frame_same. congruence.
  - exists tr. split; [exact Hl |].
    eapply Forall_impl; [| exact Ht].
    intros e. apply select_is_update_statement.
Qed.

(** C10.  Whatever the payload of an update and however the request ends:
    row by row the articles keep their id, favorites counter, creation time
    and author, and every row but the one of the article is untouched; the
    only writes to the articles table are updates of that article that set
    none of these four columns. *)
Theorem C10_update_frame E slug user fields row w w' r :
  first_article (db w) slug = Some row ->
  handle E (Update slug user fields) w = (w', r) ->
  Forall2 (fun x x' =>
             Article.id x' = Article.id x
             /\ Article.favorites_count x' = Article.favorites_count x
             /\ Article.created_at x' = Article.created_at x
             /\ Article.author x' = Article.author x
             /\ (Article.id x <> Article.id row -> x' = x))
    (articles (db w)) (articles (db w'))
  /\ exists tr,
      log w' = log w ++ tr
      /\ Forall (fun e => update_statement (Article.id row) (stmt e)) tr.
Proof.
  intros Hrow H. simpl in H. rewrite bySlug_load in H.
  assert (Hw : within (update_statement (Article.id row))
                 (update_frame (Article.id row)) w w').
  { destruct (bind_inv _ _ _ _ _ H) as [(w1 & p & Hload & Hrest)
                                       | (e & Hload & _)].
    - destruct (load_ok _ _ _ _ _ _ Hload) as (o & Hl & _).
      destruct (loaded_owner _ _ _ _ _ _ _ Hl Hrow) as (_ & Hid).
      eapply within_trans; [apply update_frame_trans | |].
      + apply reads_only_frame. eapply load_reads; eauto.
      + rewrite <- Hid. revert Hrest.
        generalize w1 w' r. change (respects
          (within (update_statement (Article.v_id (article p)))
             (update_frame (Article.v_id (article p))))
          (body <- put E user fields p ;;
           modify_obj (author p) delete_id ;; ret body)).
        apply respects_bind; [rel_side | apply frame_put | intro].
        repeat respects_step frame_leaf.
    - apply reads_only_frame. eapply load_reads; eauto. }
  destruct Hw as (Hf & Ht). split; [| exact Ht].
  unfold update_frame in Hf.
  eapply Forall2_impl; [| exact Hf].
  intros x x' (Hfr & Hsame). unfold frame in Hfr.
  injection Hfr as H1 H2 H3 H4. repeat split; assumption.
Qed.

Lemma C10_update_frame_witness :
  exists w' r,
    handle (Demo.env Sqlite3 Demo.no_fault)
      (Update "hello-world" Demo.alice
         (Article.mkFields (Some "a-9") None (Some "Second Post") None None
            (Some 99%Z) (Some "1999-01-01T00:00:00.000Z") None
            (Some (Article.AuthorObject (Some "u-bob"))) None None))
      Demo.world = (w', r)
    /\ map frame (articles (db w')) = map frame (articles (db Demo.world)).
Proof.
  eexists. eexists.
  assert (H : handle (Demo.env Sqlite3 Demo.no_fault)
      (Update "hello-world" Demo.alice
         (Article.mkFields (Some "a-9") None (Some "Second Post") None None
            (Some 99%Z) (Some "1999-01-01T00:00:00.000Z") None
            (Some (Article.AuthorObject (Some "u-bob"))) None None))
      Demo.world = (_, _)) by (lazy; reflexivity).
  split; [exact H |].
  destruct (C10_update_frame (Demo.env Sqlite3 Demo.no_fault) "hello-world"
              Demo.alice _ Demo.hello Demo.world _ _ eq_refl H) as (Hf & _).
  revert Hf. generalize (articles (db Demo.world)).
  match goal with |- forall l, Forall2 _ l (articles (db ?w)) -> _ =>
    generalize (articles (db w)) end.
  intros l' l Hf. induction Hf as [|x x' l l' (Hi & Hc & Ht & Ha & _) _ IH];
    simpl; [reflexivity |].
  unfold frame at 1 3. rewrite Hi, Hc, Ht, Ha, IH. reflexivity.
Defined.

(* ===================================================================== *)
(** * Update: a tag list that changes nothing                             *)
(* ===================================================================== *)

Lemma difference_of_nothing l : lodash_difference l [] = l.
Proof.
  unfold lodash_difference. simpl.
  induction l as [|x l IH]; simpl; congruence.
Qed.

(** The test that guards the replacement of the tags is true as soon as the
    payload has a tag: the stored tags are not compared with it. *)
Lemma replacement_test_always stored n names :
  nonempty (lodash_difference stored []) || nonempty (lodash_difference (n :: names) [])
  = true.
Proof. rewrite !difference_of_nothing. apply orb_true_r. Qed.

(** C2 on the code.  Alice's article has the tags [a] and [b]; she updates it
    with the tag list [a], [b].  The update is answered, and it has deleted
    the two ArticleTag rows and inserted two new ones, under new ids. *)
Theorem C2_same_tags_are_replaced :
  exists w' j rows,
    serve (Demo.env Sqlite3 Demo.no_fault)
      (Update "hello-world" Demo.alice (Demo.with_tags ["a"; "b"]))
      Demo.world = (w', Ok j)
    /\ rows_articles_tags (db Demo.world) "a-1"
       = [ArticleTag.mk "r-1" "t-a" "a-1"; ArticleTag.mk "r-2" "t-b" "a-1"]
    /\ In (mkEvent (DeleteArticleTags "a-1") None) (log w')
    /\ In (mkEvent (InsertArticleTags rows) None) (log w')
    /\ rows_articles_tags (db w') "a-1" = rows
    /\ map ArticleTag.id rows <> ["r-1"; "r-2"]
    /\ map ArticleTag.tag rows = ["t-a"; "t-b"].
Proof.
  eexists. eexists. eexists.
  split; [lazy; reflexivity |].
  split; [reflexivity |].
  split; [simpl; tauto |].
  split; [simpl; do 10 right; left; reflexivity |].
  split; [reflexivity |].
  split; [simpl; discriminate | reflexivity].
Qed.

(* ===================================================================== *)
(** * Create: the insert and its one retry                                *)
(* ===================================================================== *)

Lemma same_log_refl w : same_log w w.
Proof. split; reflexivity. Qed.

Lemma same_log_trans a b c : same_log a b -> same_log b c -> same_log a c.
Proof. unfold same_log. intros (? & ?) (? & ?). split; congruence. Qed.

#[export] Hint Resolve same_log_refl same_log_trans : rel.

Lemma log_uuid E : respects same_log (uuid E).
Proof. intros w w' r H. inversion H; subst. split; reflexivity. Qed.

Lemma log_now E : respects same_log (now E).
Proof. intros w w' r H. inversion H; subst. split; reflexivity. Qed.

Lemma log_alloc o : respects same_log (alloc o).
Proof. intros w w' r H. inversion H; subst. split; reflexivity. Qed.

Lemma log_deref l : respects same_log (deref l).
Proof.
  intros w w' r H. unfold deref in H.
  destruct (nth_error (heap w) l); inversion H; subst; split; reflexivity.
Qed.

Ltac log_leaf :=
  first [ apply log_uuid | apply log_now | apply log_alloc | apply log_deref ].

Lemma log_new_tags E names : respects same_log (new_tags E names).
Proof. unfold new_tags. repeat respects_step log_leaf. Qed.

Lemma log_validate_tags E ts : respects same_log (validate_tags E ts).
Proof. unfold validate_tags. repeat respects_step log_leaf. Qed.

Lemma anything_refl st : anything st st.
Proof. exact I. Qed.

Lemma anything_trans a b c : anything a b -> anything b c -> anything a c.
Proof. intros _ _. exact I. Qed.

#[export] Hint Resolve anything_refl anything_trans : rel.

Ltac tail_leaf :=
  first [ apply within_uuid; rel_side
        | apply within_now; rel_side
        | apply within_alloc; rel_side
        | apply within_deref; rel_side
        | apply within_modify_obj; rel_side
        | apply within_read; [rel_side | exact I | intros; exact I | rel_side]
        | apply within_issue; [rel_side | exact I | intros; exact I]
        ].

Lemma tail_insert_tags E ts :
  respects (within not_article_insert anything) (insert_tags E ts).
Proof.
  induction ts as [|t ts IH]; simpl.
  - repeat respects_step tail_leaf.
  - apply respects_bind; [rel_side | | intros _; exact IH].
    repeat respects_step tail_leaf.
Qed.

Lemma tail_link_tags E ts i :
  respects (within not_article_insert anything) (link_tags E ts i).
Proof.
  unfold link_tags, new_relations.
  repeat respects_step ltac:(first [apply tail_insert_tags | tail_leaf]).
Qed.

(** The four ways the [try]/[catch] around the insert can go. *)
Lemma insert_article_cases E row w w1 r1 :
  insert_article E row w = (w1, r1) ->
  (r1 = Ok row /\ sent w w1 [mkEvent (InsertArticle row) None])
  \/ (exists err,
        r1 = Throw (StoreError err)
        /\ is_unique_violation err = false
        /\ sent w w1 [mkEvent (InsertArticle row) (Some err)])
  \/ (exists err row',
        row' = Article.with_slug
                 (suffixed (Article.slug row) (uuid_at E (drawn w))) row
        /\ is_unique_violation err = true
        /\ ((r1 = Ok row'
             /\ sent w w1 [mkEvent (InsertArticle row) (Some err);
                           mkEvent (InsertArticle row') None])
            \/ (exists err2,
                  r1 = Throw (StoreError err2)
                  /\ sent w w1 [mkEvent (InsertArticle row) (Some err);
                                mkEvent (InsertArticle row') (Some err2)]))).
Proof.
  unfold insert_article, sent. intros H.
  apply catch_inv in H. destruct H as [(a & H & ->) | (w2 & e & H & Hh)].
  - (* the insert went in *)
    apply bind_inv_ok in H. destruct H as (w2 & [] & Hi & Hr).
    inversion Hr; subst; clear Hr.
    destruct (issue_inv _ _ _ _ _ Hi)
      as (_ & _ & [(st & _ & _ & _ & _ & Hl) | (e & He & _)]);
      [| discriminate].
    left. auto.
  - (* the insert was refused *)
    destruct (bind_inv _ _ _ _ _ H) as [(w3 & [] & Hi & Hr) | (e' & Hi & He)];
      [inversion Hr |].
    inversion He; subst e'; clear He.
    destruct (issue_inv _ _ _ _ _ Hi)
      as (Hn & _ & [(st & _ & _ & He & _) | (err & He & _ & Hl & _)]);
      [discriminate |].
    inversion He; subst e; clear He.
    simpl recognised in Hh.
    destruct (is_unique_violation err) eqn:Hu.
    + (* a recognised violation: one more insert, under a new slug *)
      right. right. simpl assert in Hh. rewrite bind_ret_run in Hh.
      unfold bind at 1, uuid at 1 in Hh. rewrite Hn in Hh.
      set (row' := Article.with_slug _ row) in *.
      exists err, row'. split; [reflexivity |]. split; [exact Hu |].
      destruct (bind_inv _ _ _ _ _ Hh) as [(w3 & [] & Hi2 & Hr)
                                          | (e2 & Hi2 & ->)].
      * inversion Hr; subst; clear Hr.
        destruct (issue_inv _ _ _ _ _ Hi2)
          as (_ & _ & [(st & _ & _ & _ & _ & Hl2) | (e & He & _)]);
          [| discriminate].
        left. split; [reflexivity |].
        rewrite Hl2. simpl. rewrite Hl, <- app_assoc. reflexivity.
      * destruct (issue_inv _ _ _ _ _ Hi2)
          as (_ & _ & [(st & _ & _ & He & _) | (err2 & He & _ & Hl2 & _)]);
          [discriminate |].
        inversion He; subst e2; clear He.
        right. exists err2. split; [reflexivity |].
        rewrite Hl2. simpl. rewrite Hl, <- app_assoc. reflexivity.
    + (* anything else goes to the caller *)
      right. left. simpl in Hh. inversion Hh; subst. exists err. auto.
Qed.

Lemma lift_inv {A} (x : Exn + A) w w' r :
  lift x w = (w', r) ->
  w' = w /\ ((exists a, x = inr a /\ r = Ok a) \/ (exists e, r = Throw e)).
Proof.
  destruct x as [e|a]; simpl; intros H; inversion H; subst; split; eauto.
Qed.

Lemma log_post_tags E (tl : option (list string)) :
  respects same_log
    (match tl with
     | Some (n :: names) =>
         ts <- new_tags E (n :: names) ;;
         vs <- validate_tags E ts ;;
         ret (Some vs)
     | _ => ret None
     end).
Proof.
  destruct tl as [[|n names]|];
    repeat respects_step ltac:(first [apply log_new_tags
                                     | apply log_validate_tags
                                     | log_leaf]).
Qed.

Lemma tail_post E user (tl : option (list string)) (tags : option (list Tag.row))
    (row1 : Article.row) :
  respects (within not_article_insert anything)
    (match tags with
     | Some (t :: ts) => link_tags E (t :: ts) (Article.id row1)
     | _ => ret tt
     end ;;
     l <- alloc {| User.o_id := None;
                   User.o_username := User.username user;
                   User.o_bio := User.bio user;
                   User.o_image := User.image user;
                   User.o_following := false |} ;;
     ret (BodyArticle (Article.view_of_row row1 l tl false))).
Proof.
  destruct tags as [[|t ts]|];
    repeat respects_step ltac:(first [apply tail_link_tags | tail_leaf]).
Qed.

(** The condition of the three [ctx.assert] is the signal of a violation. *)
Lemma violation_signal err :
  is_unique_violation err = true <-> signals_violation err.
Proof.
  unfold is_unique_violation, signals_violation.
  destruct (Js.parseInt (errno err)) as [n|];
    destruct (Js.parseInt (code err)) as [m|];
    rewrite orb_true_iff, ?Z.eqb_eq; split; intros [H | H];
    try discriminate; try (inversion H; subst); auto; congruence.
Qed.

Lemma not_violation_signal err :
  is_unique_violation err = false -> ~ signals_violation err.
Proof.
  intros H Hs. apply violation_signal in Hs. congruence.
Qed.

(** The draws of the tags: one uuid per name, none for the schema. *)
Lemma new_tags_drawn E names w w' ts :
  new_tags E names w = (w', Ok ts) ->
  drawn w' = drawn w + List.length names.
Proof.
  unfold new_tags. revert w w' ts.
  induction names as [|n names IH]; simpl; intros w w' ts H.
  - inversion H; subst. lia.
  - apply bind_inv_ok in H. destruct H as (w1 & t & Ht & H).
    apply bind_inv_ok in H. destruct H as (w2 & ts' & Hts & H).
    inversion H; subst w2; clear H.
    apply bind_inv_ok in Ht. destruct Ht as (w0 & i & Hu & Ht).
    inversion Hu; subst w0 i; clear Hu. inversion Ht; subst w1; clear Ht.
    rewrite (IH _ _ _ Hts). simpl. lia.
Qed.

Lemma validate_tags_world E ts w w' r :
  validate_tags E ts w = (w', r) -> w' = w.
Proof.
  unfold validate_tags. revert w w' r.
  induction ts as [|t ts IH]; simpl; intros w w' r H.
  - inversion H; reflexivity.
  - destruct (bind_inv _ _ _ _ _ H) as [(w1 & y & Hy & H1) | (e & Hy & _)].
    + apply lift_inv in Hy. destruct Hy as (-> & _).
      destruct (bind_inv _ _ _ _ _ H1) as [(w2 & ys & Hys & H2)
                                          | (e & Hys & _)].
      * inversion H2; subst. exact (IH _ _ _ Hys).
      * exact (IH _ _ _ Hys).
    + apply lift_inv in Hy. tauto.
Qed.

Lemma post_tags_drawn E (tl : option (list string)) w w' tags :
  (match tl with
   | Some (n :: names) =>
       ts <- new_tags E (n :: names) ;;
       vs <- validate_tags E ts ;;
       ret (Some vs)
   | _ => ret None
   end) w = (w', Ok tags) ->
  drawn w'
  = drawn w + match tl with Some names => List.length names | None => 0 end.
Proof.
  destruct tl as [[|n names]|]; intros H;
    try (inversion H; subst; simpl; lia).
  apply bind_inv_ok in H. destruct H as (w1 & ts & Hn & H).
  apply bind_inv_ok in H. destruct H as (w2 & vs & Hs & H).
  inversion H; subst w2; clear H.
  apply validate_tags_world in Hs. subst w'.
  exact (new_tags_drawn _ _ _ _ _ Hn).
Qed.

(** C4.  A create request sends the insert of the article once.  It sends it
    a second time exactly when the first was answered with the signal of a
    unique violation (the integer read from [errno] is 19, or the one read
    from [code] is 23505), and then with the same columns under the slug
    followed by "-" and the last six characters of a uuid drawn for it,
    after the id of the article and the ids of its tags.  An error of the
    second insert, or an error of the first that does not signal a
    violation, is the result of the request, and no statement follows it. *)
Theorem C4_insert_retried_once E user payload w w' r :
  post E user payload w = (w', r) ->
  exists tr,
    sent w w' tr
    /\ one_retry (uuid_at E (retry_draw E user payload w)) tr r.
Proof.
  unfold post, sent, retry_draw. intros H.
  (* the id *)
  destruct (bind_inv _ _ _ _ _ H) as [(w1 & id & Hu & H1) | (e & Hu & _)];
    [| inversion Hu].
  clear H. inversion Hu; subst w1 id; clear Hu.
  (* the schema of the article *)
  destruct (bind_inv _ _ _ _ _ H1) as [(w2 & v & Hv & H2) | (e & Hv & ->)];
    clear H1.
  2:{ apply lift_inv in Hv. destruct Hv as (-> & _).
      exists []. rewrite app_nil_r. split; [reflexivity |].
      left. eauto. }
  apply lift_inv in Hv.
  destruct Hv as (-> & [(v' & Hv & Hv') | (e & He)]); [| discriminate].
  inversion Hv'; subst v'; clear Hv'. rewrite Hv.
  (* the tags and their schema *)
  destruct (bind_inv _ _ _ _ _ H2) as [(w3 & tags & Ht & H3) | (e & Ht & ->)];
    clear H2.
  2:{ destruct (log_post_tags E _ _ _ _ Ht) as (Hl & _). simpl in Hl.
      exists []. rewrite app_nil_r. split; [exact Hl |]. left. eauto. }
  destruct (log_post_tags E _ _ _ _ Ht) as (Hl3 & _). simpl in Hl3.
  pose proof (post_tags_drawn _ _ _ _ _ Ht) as Hd3. simpl in Hd3. clear Ht.
  (* the insert *)
  set (row := Article.with_slug _ (Article.columns v)) in *.
  destruct (bind_inv _ _ _ _ _ H3) as [(w4 & row1 & Hi & H4) | (e & Hi & ->)];
    clear H3.
  - (* the article is in *)
    destruct (tail_post E user _ _ _ _ _ _ H4) as (_ & rest & Hrest & Hno).
    destruct (insert_article_cases _ _ _ _ _ Hi)
      as [(_ & Hs) | [(err & He & _) | (err & row' & Hr' & Hu & [(_ & Hs) | (err2 & He & _)])]];
      try discriminate; unfold sent in Hs.
    + exists (mkEvent (InsertArticle row) None :: rest).
      split; [rewrite Hrest, Hs, Hl3, <- app_assoc; reflexivity |].
      right. left. eauto.
    + exists (mkEvent (InsertArticle row) (Some err)
              :: mkEvent (InsertArticle row') None :: rest).
      split; [rewrite Hrest, Hs, Hl3, <- app_assoc; reflexivity |].
      do 3 right. left. exists row, err, rest. subst row'. rewrite Hd3.
      split; [reflexivity |].
      split; [apply violation_signal; exact Hu | exact Hno].
  - (* the article is not in *)
    destruct (insert_article_cases _ _ _ _ _ Hi)
      as [(He & _) | [(err & He & Hu & Hs)
                     | (err & row' & Hr' & Hu & [(He & _) | (err2 & He & Hs)])]];
      try discriminate; unfold sent in Hs; inversion He; subst e; clear He.
    + exists [mkEvent (InsertArticle row) (Some err)].
      split; [rewrite Hs, Hl3; reflexivity |].
      do 2 right. left. apply not_violation_signal in Hu. eauto.
    + exists [mkEvent (InsertArticle row) (Some err);
              mkEvent (InsertArticle row') (Some err2)].
      split; [rewrite Hs, Hl3; reflexivity |].
      do 4 right. exists row, err, err2. subst row'. rewrite Hd3.
      split; [reflexivity |].
      split; [apply violation_signal; exact Hu | reflexivity].
Qed.

(** Bob creates an article whose title gives the slug of an article of the
    store: the first insert is refused with code 23505, the second goes in
    under the slug with the last six characters of the second uuid, and the
    request is answered. *)
Lemma C4_insert_retried_once_witness :
  exists w' b row,
    post (Demo.env Postgres Demo.no_fault) Demo.bob
      (Demo.new_article "Hello World" (Some ["a"])) Demo.world = (w', Ok b)
    /\ Article.slug row = "hello-world"
    /\ log w'
       = [mkEvent (InsertArticle row) (Some (unique_error Postgres));
          mkEvent (InsertArticle
                     (Article.with_slug "hello-world-001002" row)) None;
          mkEvent (InsertTag (Tag.mk (Demo.uuid_at 1) "a"))
            (Some (unique_error Postgres));
          mkEvent (SelectTagsByName ["a"]) None;
          mkEvent (InsertArticleTags
                     [ArticleTag.mk (Demo.uuid_at 3) "t-a" (Demo.uuid_at 0)])
            None].
Proof.
  do 2 eexists.
  assert (H : post (Demo.env Postgres Demo.no_fault) Demo.bob
                (Demo.new_article "Hello World" (Some ["a"])) Demo.world
              = (_, Ok _)) by (lazy; reflexivity).
  destruct (C4_insert_retried_once _ _ _ _ _ _ H) as (tr & Hs & Ho).
  unfold sent in Hs. simpl in Hs. subst tr.
  destruct Ho as [(Hc & _) | [(row & rest & Hc & _)
                 | [(row & err & Hc & _)
                 | [(row & err & rest & Hc & _ & _)
                 | (row & err & err2 & _ & _ & Hc)]]]];
    try discriminate.
  exists row. split; [exact H |].
  inversion Hc; subst. split; reflexivity.
Defined.

(* ===================================================================== *)
(** * Create: the tags                                                    *)
(* ===================================================================== *)

Lemma insert_tags_cases E ts w w' r :
  insert_tags E ts w = (w', r) ->
  exists evs, sent w w' evs /\ tag_loop ts evs r.
Proof.
  unfold sent. revert w. induction ts as [|t ts IH]; intros w H.
  - inversion H; subst. exists []. rewrite app_nil_r.
    split; [reflexivity |]. left. auto.
  - simpl in H.
    destruct (bind_inv _ _ _ _ _ H) as [(w1 & [] & Hc & Hrest)
                                       | (e & Hc & ->)]; clear H.
    + (* this tag is in or absorbed; the loop goes on *)
      assert (Hev : exists ev, log w1 = log w ++ [ev]
                               /\ stmt ev = InsertTag t /\ absorbed ev).
      { apply catch_inv in Hc.
        destruct Hc as [(a & Hi & _) | (w2 & e & Hi & Hh)].
        - destruct (issue_inv _ _ _ _ _ Hi)
            as (_ & _ & [(st & _ & _ & _ & _ & Hl) | (e & He & _)]);
            [| discriminate].
          eexists. split; [exact Hl |]. split; [reflexivity | exact I].
        - destruct (issue_inv _ _ _ _ _ Hi)
            as (_ & _ & [(st & _ & _ & He & _) | (err & He & _ & Hl & _)]);
            [discriminate |].
          inversion He; subst e. simpl in Hh. unfold assert in Hh.
          destruct (is_unique_violation err) eqn:Hu; inversion Hh; subst.
          eexists. split; [exact Hl |].
          split; [reflexivity | apply violation_signal; exact Hu]. }
      destruct Hev as (ev & Hl1 & Hs & Ha).
      destruct (IH _ Hrest) as (evs & Hl & Hloop).
      exists (ev :: evs). split.
      * rewrite Hl, Hl1, <- app_assoc. reflexivity.
      * destruct Hloop as [(-> & Hm & Hf)
                          | (done & t' & rest & evs0 & err & -> & -> & Hm & Hf
                             & Hu & ->)].
        -- left. split; [reflexivity |]. simpl. rewrite Hs, Hm. auto.
        -- right. exists (t :: done), t', rest, (ev :: evs0), err.
           simpl. rewrite Hs, Hm. auto 8.
    + (* this insert was refused and not absorbed *)
      apply catch_inv in Hc.
      destruct Hc as [(a & _ & He) | (w2 & e' & Hi & Hh)]; [discriminate |].
      destruct (issue_inv _ _ _ _ _ Hi)
        as (_ & _ & [(st & _ & _ & He & _) | (err & He & _ & Hl & _)]);
        [discriminate |].
      inversion He; subst e'. simpl in Hh. unfold assert in Hh.
      destruct (is_unique_violation err) eqn:Hu; inversion Hh; subst.
      apply not_violation_signal in Hu.
      exists [mkEvent (InsertTag t) (Some err)]. split; [exact Hl |].
      right. exists [], t, ts, [], err. simpl. auto 8.
Qed.

Ltac block_leaf :=
  first [ apply within_uuid; rel_side
        | apply within_now; rel_side
        | apply within_alloc; rel_side
        | apply within_read; [rel_side | exact I | intros; exact I | rel_side]
        | apply within_issue; [rel_side | exact I | intros; exact I]
        ].

Lemma link_tags_cases E ts a w w' r :
  link_tags E ts a w = (w', r) ->
  exists tr, sent w w' tr /\ tag_block ts tr r.
Proof.
  unfold link_tags, sent. intros H.
  destruct (bind_inv _ _ _ _ _ H) as [(w1 & [] & Hloop & Hrest)
                                     | (e & Hloop & ->)]; clear H.
  - destruct (insert_tags_cases _ _ _ _ _ Hloop) as (evs & Hl & Ht).
    assert (Hw : within not_tag_insert anything w1 w').
    { revert Hrest. generalize w1 w' r.
      change (respects (within not_tag_insert anything)
                (found <- read E (SelectTagsByName (map Tag.name ts))
                            (fun st => rows_tags_by_name st (map Tag.name ts)) ;;
                 relations <- new_relations E found a ;;
                 issue E (InsertArticleTags relations))).
      unfold new_relations. repeat respects_step block_leaf. }
    destruct Hw as (_ & rest & Hl' & Hf).
    exists (evs ++ rest). split.
    + unfold sent in Hl. rewrite Hl', Hl, <- app_assoc. reflexivity.
    + exists evs, rest. split; [reflexivity |]. right. auto.
  - destruct (insert_tags_cases _ _ _ _ _ Hloop) as (evs & Hl & Ht).
    exists evs. split; [exact Hl |].
    exists evs, []. rewrite app_nil_r. split; [reflexivity |].
    left. eauto.
Qed.

Lemma map_m_ok {A B} (f : A -> M B) (Q : A -> B -> Prop) l :
  (forall x w w' y, f x w = (w', Ok y) -> Q x y) ->
  forall w w' ys, map_m f l w = (w', Ok ys) -> Forall2 Q l ys.
Proof.
  intros Hf. induction l as [|x l IH]; simpl; intros w w' ys H.
  - inversion H; subst. constructor.
  - apply bind_inv_ok in H. destruct H as (w1 & y & Hx & H).
    apply bind_inv_ok in H. destruct H as (w2 & ys' & Hl & H).
    inversion H; subst. constructor; eauto.
Qed.

Lemma new_tags_names E names w w' ts :
  new_tags E names w = (w', Ok ts) -> map Tag.name ts = names.
Proof.
  intros H.
  assert (HF : Forall2 (fun n t => Tag.name t = n) names ts).
  { eapply map_m_ok; [| exact H].
    intros x wa wb y Hy. apply bind_inv_ok in Hy.
    destruct Hy as (wc & id & _ & Hy). inversion Hy; reflexivity. }
  clear H. induction HF; simpl in *; congruence.
Qed.

Lemma validate_tags_names E ts w w' vs :
  (forall t t', validate_tag E t = inr t' -> Tag.name t' = Tag.name t) ->
  validate_tags E ts w = (w', Ok vs) -> map Tag.name vs = map Tag.name ts.
Proof.
  intros Hk H.
  assert (HF : Forall2 (fun t v => Tag.name v = Tag.name t) ts vs).
  { eapply map_m_ok; [| exact H].
    intros x wa wb y Hy. apply lift_inv in Hy.
    destruct Hy as (_ & [(a & Ha & Hy) | (e & Hy)]); [| discriminate].
    inversion Hy; subst. eauto. }
  clear H. induction HF; simpl in *; congruence.
Qed.

Lemma new_relations_ok E found a w w' rels :
  new_relations E found a w = (w', Ok rels) ->
  Forall2 (fun t r => ArticleTag.tag r = Tag.id t /\ ArticleTag.article r = a)
    found rels.
Proof.
  apply map_m_ok. intros x wa wb y Hy. apply bind_inv_ok in Hy.
  destruct Hy as (wc & id & _ & Hy). inversion Hy; subst. auto.
Qed.

Lemma tags_only_refl st : tags_only st st.
Proof. repeat split. Qed.

Lemma tags_only_trans a b c : tags_only a b -> tags_only b c -> tags_only a c.
Proof.
  unfold tags_only. intros (? & ? & ?) (? & ? & ?). repeat split; congruence.
Qed.

Lemma articles_only_refl st : articles_only st st.
Proof. repeat split. Qed.

Lemma articles_only_trans a b c :
  articles_only a b -> articles_only b c -> articles_only a c.
Proof.
  unfold articles_only. intros (? & ?) (? & ?). repeat split; congruence.
Qed.

#[export] Hint Resolve tags_only_refl tags_only_trans articles_only_refl
  articles_only_trans : rel.

Lemma insert_tags_rows E ts :
  respects (within (fun _ => True) tags_only) (insert_tags E ts).
Proof.
  induction ts as [|t ts IH]; simpl.
  - apply respects_ret. rel_side.
  - apply respects_bind; [rel_side | | intros _; exact IH].
    apply respects_catch; [rel_side | | intro; apply respects_assert; rel_side].
    apply within_issue; [rel_side | exact I |].
    intros st st' H. simpl in H.
    destruct (existsb _ (tags st)); inversion H; subst. repeat split.
Qed.

Lemma insert_article_rows E row :
  respects (within (fun _ => True) articles_only) (insert_article E row).
Proof.
  unfold insert_article.
  assert (Hi : forall r, respects (within (fun _ => True) articles_only)
                           (issue E (InsertArticle r))).
  { intros r. apply within_issue; [rel_side | exact I |].
    intros st st' H. simpl in H.
    destruct (0 <? _)%nat; inversion H; subst. repeat split. }
  repeat respects_step ltac:(first [apply Hi | apply within_uuid; rel_side]).
Qed.

Lemma insert_article_id E row w w' row1 :
  insert_article E row w = (w', Ok row1) -> Article.id row1 = Article.id row.
Proof.
  intros H.
  destruct (insert_article_cases _ _ _ _ _ H)
    as [(He & _) | [(err & He & _)
                   | (err & row' & -> & _ & [(He & _) | (err2 & He & _)])]];
    try discriminate; inversion He; reflexivity.
Qed.

Lemma mem_In x l : mem x l = true -> In x l.
Proof.
  unfold mem. intros H. apply existsb_exists in H.
  destruct H as (y & Hy & Heq). apply String.eqb_eq in Heq. congruence.
Qed.

Lemma In_mem x l : In x l -> mem x l = true.
Proof.
  unfold mem. intros H. apply existsb_exists. exists x.
  split; [exact H | apply String.eqb_refl].
Qed.

Lemma Forall2_right {A B} (Q : A -> B -> Prop) l l' :
  Forall2 Q l l' -> Forall (fun y => exists x, In x l /\ Q x y) l'.
Proof.
  induction 1 as [|x y l l' Hq _ IH]; constructor.
  - exists x. split; [left; reflexivity | exact Hq].
  - eapply Forall_impl; [| exact IH].
    intros b (a & Ha & Hb). exists a. split; [right |]; assumption.
Qed.

(** What a tag block that went through has done to the rows. *)
Lemma link_tags_rows E ts a w w' :
  link_tags E ts a w = (w', Ok tt) ->
  exists rels,
    articles_tags (db w') = articles_tags (db w) ++ rels
    /\ Forall (fun r => ArticleTag.article r = a
                        /\ exists t, In t (tags (db w'))
                                     /\ Tag.id t = ArticleTag.tag r
                                     /\ In (Tag.name t) (map Tag.name ts))
         rels.
Proof.
  unfold link_tags. intros H.
  apply bind_inv_ok in H. destruct H as (w1 & [] & Hloop & H).
  destruct (insert_tags_rows E ts _ _ _ Hloop) as ((_ & Hat & _) & _).
  apply bind_inv_ok in H. destruct H as (w2 & found & Hread & H).
  apply read_ok in Hread; [| reflexivity].
  destruct Hread as (-> & Hd2 & _).
  apply bind_inv_ok in H. destruct H as (w3 & rels & Hrel & H).
  assert (Hd3 : db w3 = db w2).
  { eapply (fun Hm : respects same_log (new_relations E _ a) =>
              proj2 (Hm _ _ _ Hrel)).
    unfold new_relations. repeat respects_step log_leaf. }
  apply new_relations_ok in Hrel.
  apply issue_ok in H. simpl in H. injection H as Hdb.
  exists rels. rewrite <- Hdb. simpl. rewrite Hd3, Hd2, Hat.
  split; [reflexivity |].
  apply Forall2_right in Hrel.
  eapply Forall_impl; [| exact Hrel].
  intros r (t & Hin & Ht & Ha). split; [exact Ha |].
  unfold rows_tags_by_name in Hin. apply filter_In in Hin.
  destruct Hin as (Hin & Hm).
  exists t. split; [exact Hin |]. split; [congruence |].
  apply mem_In. exact Hm.
Qed.

(** The course of a create request. *)
Lemma post_inv E user payload w w' r :
  post E user payload w = (w', r) ->
  (log w' = log w /\ db w' = db w /\ exists e, r = Throw e)
  \/ exists v w0 tags w1 ri,
       validate_article E
         (draft_of_payload payload (uuid_at E (drawn w)) (User.id user))
       = inr v
       /\ tags_of E v (mkWorld (db w) (log w) (S (drawn w)) (heap w))
          = (w0, Ok tags)
       /\ log w0 = log w /\ db w0 = db w
       /\ insert_article E (first_row E v) w0 = (w1, ri)
       /\ ((w' = w1 /\ exists e, ri = Throw e /\ r = Throw e)
           \/ exists row1 w2 rl,
                ri = Ok row1
                /\ tags_block E tags (Article.id row1) w1 = (w2, rl)
                /\ log w' = log w2 /\ db w' = db w2
                /\ ((exists e, rl = Throw e /\ r = Throw e)
                    \/ (rl = Ok tt /\ exists b, r = Ok b))).
Proof.
  unfold post. intros H.
  destruct (bind_inv _ _ _ _ _ H) as [(wu & id & Hu & H1) | (e & Hu & _)];
    [| inversion Hu].
  clear H. inversion Hu; subst wu id; clear Hu.
  destruct (bind_inv _ _ _ _ _ H1) as [(w2 & v & Hv & H2) | (e & Hv & ->)];
    clear H1.
  2:{ apply lift_inv in Hv. destruct Hv as (-> & _). left. simpl. eauto. }
  apply lift_inv in Hv.
  destruct Hv as (-> & [(v' & Hv & Hv') | (e & He)]); [| discriminate].
  inversion Hv'; subst v'; clear Hv'.
  destruct (bind_inv _ _ _ _ _ H2) as [(w0 & tags & Ht & H3) | (e & Ht & ->)];
    clear H2.
  2:{ destruct (log_post_tags E _ _ _ _ Ht) as (Hl & Hd). left. eauto. }
  destruct (log_post_tags E _ _ _ _ Ht) as (Hl0 & Hd0). simpl in Hl0, Hd0.
  right. exists v, w0, tags.
  destruct (bind_inv _ _ _ _ _ H3) as [(w1 & row1 & Hi & H4) | (e & Hi & ->)];
    clear H3.
  - exists w1, (Ok row1). repeat (split; [assumption |]).
    right. exists row1.
    destruct (bind_inv _ _ _ _ _ H4) as [(w2 & [] & Hb & H5) | (e & Hb & ->)];
      clear H4.
    + exists w2, (Ok tt). split; [reflexivity |]. split; [exact Hb |].
      unfold bind, alloc, ret in H5. inversion H5; subst; simpl.
      eauto 8.
    + exists w', (Throw e). split; [reflexivity |]. split; [exact Hb |].
      eauto 8.
  - exists w', (Throw e). repeat (split; [assumption |]). left. eauto.
Qed.

Lemma insert_article_no_tag E row :
  respects (within not_tag_insert anything) (insert_article E row).
Proof. unfold insert_article. repeat respects_step block_leaf. Qed.

Lemma tags_of_names E v names w w0 tags :
  (forall t t', validate_tag E t = inr t' -> Tag.name t' = Tag.name t) ->
  Article.tagList v = Some names -> names <> [] ->
  tags_of E v w = (w0, Ok tags) ->
  exists t ts, tags = Some (t :: ts) /\ map Tag.name (t :: ts) = names.
Proof.
  intros Hk Hv Hne H. unfold tags_of in H. rewrite Hv in H.
  destruct names as [|n names]; [contradiction |].
  apply bind_inv_ok in H. destruct H as (w1 & ts & Hn & H).
  apply bind_inv_ok in H. destruct H as (w2 & vs & Hs & H).
  inversion H; subst; clear H.
  apply new_tags_names in Hn.
  apply (validate_tags_names _ _ _ _ _ Hk) in Hs.
  rewrite Hn in Hs.
  destruct vs as [|t vs]; [discriminate |]. eauto.
Qed.

Lemma Forall2_compose {A B C} (P : A -> B -> Prop) (Q : B -> C -> Prop)
    (R : A -> C -> Prop) la lb lc :
  (forall a b c, P a b -> Q b c -> R a c) ->
  Forall2 P la lb -> Forall2 Q lb lc -> Forall2 R la lc.
Proof.
  intros Hr HP. revert lc. induction HP as [|a b la lb Hab _ IH];
    intros lc HQ; inversion HQ; subst; constructor; eauto.
Qed.

(** The tags that come out of the two schemas, for a non-empty list. *)
Lemma tags_of_validated E v names w w0 tags :
  Article.tagList v = Some names -> names <> [] ->
  tags_of E v w = (w0, Ok tags) ->
  exists t ts, tags = Some (t :: ts) /\ validated_tags E names (t :: ts).
Proof.
  intros Hv Hne H. unfold tags_of in H. rewrite Hv in H.
  destruct names as [|n names]; [contradiction |].
  apply bind_inv_ok in H. destruct H as (w1 & ts & Hn & H).
  apply bind_inv_ok in H. destruct H as (w2 & vs & Hs & H).
  inversion H; subst; clear H.
  assert (HF : Forall2 (fun n t => exists i, t = Tag.mk i n) (n :: names) ts).
  { eapply map_m_ok; [| exact Hn].
    intros x wa wb y Hy. apply bind_inv_ok in Hy.
    destruct Hy as (wc & id & _ & Hy). inversion Hy; eauto. }
  assert (HG : Forall2 (fun t v => validate_tag E t = inr v) ts vs).
  { eapply map_m_ok; [| exact Hs].
    intros x wa wb y Hy. apply lift_inv in Hy.
    destruct Hy as (_ & [(a & Ha & Hy) | (e & Hy)]); [| discriminate].
    inversion Hy; subst. exact Ha. }
  assert (HV : validated_tags E (n :: names) vs).
  { eapply Forall2_compose; [| exact HF | exact HG].
    intros a b c (i & ->) Hc. eauto. }
  destruct vs as [|t vs']; [inversion HV |]. eauto.
Qed.

Lemma validated_tags_names E names vs x :
  validated_tags E names vs -> In x (map Tag.name vs) ->
  validated_name E names x.
Proof.
  intros HV Hx. apply in_map_iff in Hx. destruct Hx as (t & <- & Ht).
  apply Forall2_right in HV. rewrite Forall_forall in HV.
  destruct (HV _ Ht) as (n & Hn & i & Hi).
  exists n, i, t. auto.
Qed.

(** C5, as the code has it.  A create request whose validated article
    carries a non-empty tag list.  Its tags are what the schema of the tags
    returns for the names of the list, one per name.  Its statements: the
    inserts of tags all sit in one block, one insert per tag in the order of
    the list and none sent twice; an insert refused with the signal of a
    unique violation is absorbed and the loop goes on; an insert refused
    with any other error ends the request with that error.  Its rows, when
    it is answered and the new id had no ArticleTag row before: every
    ArticleTag row of the new article refers to a Tag row whose name is the
    name the schema returned for a name of the list. *)
Theorem C5_tags_resolved E user payload names v w w' r :
  validate_article E
    (draft_of_payload payload (uuid_at E (drawn w)) (User.id user)) = inr v ->
  Article.tagList v = Some names -> names <> [] ->
  post E user payload w = (w', r) ->
  (exists pre tr,
      sent w w' (pre ++ tr)
      /\ Forall (fun e => not_tag_insert (stmt e)) pre
      /\ ((tr = [] /\ exists e, r = Throw e)
          \/ exists vs rl,
               validated_tags E names vs
               /\ tag_block vs tr rl
               /\ forall e, rl = Throw e -> r = Throw e))
  /\ (rows_articles_tags (db w) (Article.id (Article.columns v)) = [] ->
      (exists b, r = Ok b) ->
      forall x, In x (articles_tags (db w')) ->
                ArticleTag.article x = Article.id (Article.columns v) ->
                exists t, In t (tags (db w'))
                          /\ Tag.id t = ArticleTag.tag x
                          /\ validated_name E names (Tag.name t)).
Proof.
  intros Hv Hnames Hne H.
  destruct (post_inv _ _ _ _ _ _ H)
    as [(Hl & Hd & e & ->)
       | (v' & w0 & tags & w1 & ri & Hv' & Htags & Hl0 & Hd0 & Hi & Hcont)].
  { (* a schema refused the payload *)
    split.
    - exists [], []. unfold sent. rewrite Hl. simpl. rewrite app_nil_r.
      split; [reflexivity |]. split; [constructor |]. left. eauto.
    - intros _ (b & Hb). discriminate. }
  rewrite Hv in Hv'. inversion Hv'; subst v'; clear Hv'.
  destruct (tags_of_validated _ _ _ _ _ _ Hnames Hne Htags)
    as (t & ts & -> & Hval).
  destruct (insert_article_no_tag E _ _ _ _ Hi) as (_ & pre & Hpre & Hfpre).
  destruct (insert_article_rows E _ _ _ _ Hi) as ((Htg1 & Hat1) & _).
  destruct Hcont as [(-> & e & -> & ->)
                    | (row1 & w2 & rl & -> & Hb & Hl2 & Hd2 & Hres)].
  { (* the article did not go in *)
    split.
    - exists pre, []. unfold sent. rewrite app_nil_r, Hpre, Hl0.
      split; [reflexivity |]. split; [exact Hfpre |]. left. eauto.
    - intros _ (b & Hb). discriminate. }
  simpl tags_block in Hb.
  destruct (link_tags_cases _ _ _ _ _ _ Hb) as (tr & Htr & Hblock).
  split.
  - exists pre, tr. unfold sent in *.
    rewrite Hl2, Htr, Hpre, Hl0, app_assoc.
    split; [reflexivity |]. split; [exact Hfpre |].
    right. exists (t :: ts), rl. split; [exact Hval |].
    split; [exact Hblock |].
    intros e ->. destruct Hres as [(e' & He & ->) | (He & _)];
      [congruence | discriminate].
  - intros Hfresh (b & ->) x Hx Hxa.
    destruct Hres as [(e & _ & He) | (-> & _)]; [discriminate |].
    destruct (link_tags_rows _ _ _ _ _ Hb) as (rels & Hat2 & Hrels).
    rewrite Hd2, Hat2, Hat1, Hd0 in Hx.
    apply in_app_or in Hx. destruct Hx as [Hold | Hnew].
    + exfalso.
      assert (Hin : In x (rows_articles_tags (db w)
                            (Article.id (Article.columns v)))).
      { unfold rows_articles_tags. apply filter_In.
        split; [exact Hold |]. rewrite Hxa. apply String.eqb_refl. }
      rewrite Hfresh in Hin. exact Hin.
    + rewrite Forall_forall in Hrels.
      destruct (Hrels _ Hnew) as (_ & t' & Hin & Hid & Hname).
      exists t'. rewrite Hd2. split; [exact Hin |].
      split; [exact Hid |].
      exact (validated_tags_names _ _ _ _ Hval Hname).
Qed.

(** C5, as it is stated, fails where the schema of the tags changes a name:
    with a schema that puts the names in lower case, Carol creates an
    article tagged [News]; the request is answered, and the ArticleTag row
    of the new article refers to a Tag row named [news], which is not in the
    list asked. *)
Lemma C5_schema_changes_the_name :
  exists w' b x,
    post (mkEnv Sqlite3 Demo.no_fault Demo.uuid_at Demo.now_at Demo.slugify
            Demo.validate_article
            (fun t => inr (Tag.mk (Tag.id t) (Demo.slugify (Tag.name t)))))
      Demo.carol (Demo.new_article "Third" (Some ["News"])) Demo.world
    = (w', Ok b)
    /\ In x (articles_tags (db w'))
    /\ ArticleTag.article x = Demo.uuid_at 0
    /\ forall t, In t (tags (db w')) -> Tag.id t = ArticleTag.tag x ->
                 Tag.name t = "news" /\ ~ In (Tag.name t) ["News"].
Proof.
  do 3 eexists. split; [lazy; reflexivity |].
  split; [simpl; right; right; left; reflexivity |].
  split; [reflexivity |].
  intros t [<- | [<- | [<- | []]]] Hid; simpl in Hid; try discriminate.
  split; [reflexivity |]. simpl. intros [Hc | []]. discriminate.
Qed.

Lemma C5_tags_resolved_witness :
  exists w' b,
    post (Demo.env Sqlite3 Demo.no_fault) Demo.alice
      (Demo.new_article "Tagged" (Some ["a"; "z"])) Demo.world = (w', Ok b)
    /\ map ArticleTag.tag
         (rows_articles_tags (db w') (Demo.uuid_at 0))
       = ["t-a"; Demo.uuid_at 2]
    /\ forall x, In x (articles_tags (db w')) ->
                 ArticleTag.article x = Demo.uuid_at 0 ->
                 exists t, In t (tags (db w'))
                           /\ Tag.id t = ArticleTag.tag x
                           /\ validated_name (Demo.env Sqlite3 Demo.no_fault)
                                ["a"; "z"] (Tag.name t).
Proof.
  eexists. eexists.
  assert (H : post (Demo.env Sqlite3 Demo.no_fault) Demo.alice
                (Demo.new_article "Tagged" (Some ["a"; "z"])) Demo.world
              = (_, Ok _)) by (lazy; reflexivity).
  split; [exact H |]. split; [reflexivity |].
  refine (proj2 (C5_tags_resolved (Demo.env Sqlite3 Demo.no_fault) Demo.alice
                   (Demo.new_article "Tagged" (Some ["a"; "z"])) ["a"; "z"]
                   _ Demo.world _ _ eq_refl eq_refl _ H)
            eq_refl (ex_intro _ _ eq_refl)).
  discriminate.
Defined.

(* ===================================================================== *)
(** * The list: its count                                                 *)
(* ===================================================================== *)

Lemma decimal_nonempty n : Js.decimal n <> "".
Proof.
  unfold Js.decimal. intros H.
  assert (Hn : Nat.to_uint n = Decimal.Nil).
  { destruct (Nat.to_uint n); simpl in H; try discriminate; reflexivity. }
  pose proof (DecimalNat.Unsigned.of_to n) as Ho. rewrite Hn in Ho.
  simpl in Ho. subst n. discriminate.
Qed.

(** The count is a number whatever the engine: a number under the key
    "count(*)" or a decimal string under the key "count". *)
Lemma articles_count_row d n :
  articles_count (count_row d n) = Some (Z.of_nat n).
Proof.
  destruct d; unfold articles_count, count_row; simpl; [reflexivity |].
  unfold Js.or, Js.truthy.
  pose proof (decimal_nonempty n) as Hne.
  destruct (Js.decimal n =? "") eqn:He;
    [apply String.eqb_eq in He; contradiction |].
  simpl. unfold Js.decimal in *.
  destruct (NilEmpty.string_of_uint (Nat.to_uint n)) eqn:Hs;
    [contradiction |].
  rewrite <- Hs, NilEmpty.usu. simpl.
  rewrite DecimalNat.Unsigned.of_to. reflexivity.
Qed.

Lemma map_result_length {A B} (f : A -> Result B) l ys :
  map_result f l = Ok ys -> List.length ys = List.length l.
Proof.
  revert ys. induction l as [|x l IH]; simpl; intros ys H.
  - inversion H; reflexivity.
  - destruct (f x); [| discriminate].
    destruct (map_result f l); [| discriminate].
    inversion H; subst. simpl. f_equal. apply IH. reflexivity.
Qed.

Lemma inject_ids j acc :
  map mapped_id (inject j acc) = first_seen (map mapped_id acc) (row_id j).
Proof.
  unfold first_seen, mem. induction acc as [|m acc IH]; [reflexivity |].
  cbn [inject map existsb].
  assert (Hs : (row_id j =? mapped_id m)
               = (Article.id (m_columns m) =? Article.id (j_article j)))
    by apply String.eqb_sym.
  rewrite Hs.
  destruct (Article.id (m_columns m) =? Article.id (j_article j)).
  - reflexivity.
  - cbn [orb map]. rewrite IH.
    destruct (existsb _ (map mapped_id acc)); reflexivity.
Qed.

Lemma joinjs_ids rows acc :
  map mapped_id (fold_left (fun acc j => inject j acc) rows acc)
  = fold_left first_seen (map row_id rows) (map mapped_id acc).
Proof.
  revert acc. induction rows as [|j rows IH]; intros acc; simpl;
    [reflexivity |].
  rewrite IH, inject_ids. reflexivity.
Qed.

Lemma first_seen_spec ids seen :
  NoDup seen ->
  NoDup (fold_left first_seen ids seen)
  /\ forall x, In x (fold_left first_seen ids seen) <-> In x seen \/ In x ids.
Proof.
  revert seen. induction ids as [|i ids IH]; intros seen Hnd; simpl.
  - split; [exact Hnd | intros x; tauto].
  - unfold first_seen at 2 4. destruct (mem i seen) eqn:Hm.
    + destruct (IH seen Hnd) as (H1 & H2). split; [exact H1 |].
      intros x. rewrite H2. apply mem_In in Hm.
      split; [tauto |]. intros [? | [<- | ?]]; auto.
    + assert (Hnd' : NoDup (seen ++ [i])).
      { apply NoDup_app; [exact Hnd | repeat constructor; simpl; tauto |].
        intros x Hx [<- | []]. apply In_mem in Hx. congruence. }
      destruct (IH _ Hnd') as (H1 & H2). split; [exact H1 |].
      intros x. rewrite H2, in_app_iff. simpl. tauto.
Qed.

Lemma insert_desc_perm {A} (key : A -> string) x l :
  Permutation (insert_desc key x l) (x :: l).
Proof.
  induction l as [|y l IH]; simpl; [reflexivity |].
  destruct (String.ltb (key x) (key y)); [| reflexivity].
  rewrite IH. apply perm_swap.
Qed.

Lemma order_desc_perm {A} (key : A -> string) l :
  Permutation (order_desc key l) l.
Proof.
  induction l as [|x l IH]; simpl; [reflexivity |].
  rewrite insert_desc_perm, IH. reflexivity.
Qed.

Lemma left_join_inhabited {A} (l : list A) : exists x, In x (left_join l).
Proof.
  destruct l as [|a l]; simpl; [exists None | exists (Some a)]; auto.
Qed.

Lemma join_article_of st viewer wf a j :
  In j (join_article st viewer wf a) -> j_article j = a.
Proof.
  unfold join_article. intros H.
  repeat (apply in_flat_map in H; destruct H as (? & _ & H)).
  apply in_map_iff in H. destruct H as (? & <- & _). reflexivity.
Qed.

Lemma join_article_inhabited st viewer wf a :
  exists j, In j (join_article st viewer wf a).
Proof.
  unfold join_article.
  destruct (left_join_inhabited
              (filter (fun u => User.id u =? Article.author a) (users st)))
    as (u & Hu).
  destruct (left_join_inhabited (rows_articles_tags st (Article.id a)))
    as (r & Hr).
  assert (Ht : exists t,
             In t (match r with
                   | Some r => left_join
                                 (filter (fun t => Tag.id t =? ArticleTag.tag r)
                                    (tags st))
                   | None => [None]
                   end)).
  { destruct r; [apply left_join_inhabited | exists None; simpl; auto]. }
  destruct Ht as (t & Ht).
  destruct (left_join_inhabited
              (filter (fun r => (Favorite.article r =? Article.id a)
                                && is_viewer viewer (Favorite.user r))
                 (favorites st))) as (f & Hf).
  assert (Hfo : exists fo,
             In fo (if wf
                    then left_join
                           (filter (fun r => (Follower.user r =? Article.author a)
                                             && is_viewer viewer
                                                  (Follower.follower r))
                              (followers st))
                    else [None])).
  { destruct wf; [apply left_join_inhabited | exists None; simpl; auto]. }
  destruct Hfo as (fo & Hfo).
  eexists.
  apply in_flat_map. exists u. split; [exact Hu |].
  apply in_flat_map. exists r. split; [exact Hr |].
  apply in_flat_map. exists t. split; [exact Ht |].
  apply in_flat_map. exists f. split; [exact Hf |].
  apply in_map. exact Hfo.
Qed.

Lemma joined_ids st q viewer x :
  In x (map row_id (joined_articles st q viewer))
  <-> In x (map Article.id (matching st q)).
Proof.
  unfold joined_articles, matching.
  rewrite (Permutation_in' (eq_refl x)
             (Permutation_map row_id (order_desc_perm created _))).
  rewrite !in_map_iff. split.
  - intros (j & <- & Hj). apply in_flat_map in Hj.
    destruct Hj as (a & Ha & Hj). exists a. split; [| exact Ha].
    unfold row_id. rewrite (join_article_of _ _ _ _ _ Hj). reflexivity.
  - intros (a & <- & Ha).
    destruct (join_article_inhabited st viewer true a) as (j & Hj).
    exists j. split.
    + unfold row_id. rewrite (join_article_of _ _ _ _ _ Hj). reflexivity.
    + apply in_flat_map. exists a. auto.
Qed.

Lemma NoDup_map_filter {A B} (f : A -> B) (p : A -> bool) l :
  NoDup (map f l) -> NoDup (map f (filter p l)).
Proof.
  induction l as [|x l IH]; simpl; intros H; [constructor |].
  inversion H as [|? ? Hn Hd]; subst.
  destruct (p x); simpl; [| auto].
  constructor; [| auto].
  intros Hin. apply Hn. apply in_map_iff in Hin.
  destruct Hin as (y & Hy & Hin). apply filter_In in Hin.
  apply in_map_iff. exists y. tauto.
Qed.

(** Without a page, the materializer returns one record per article that
    satisfies the filters. *)
Lemma joinjs_all st q viewer :
  NoDup (map Article.id (articles st)) ->
  List.length (joinjs_map (joined_articles st q viewer))
  = List.length (matching st q).
Proof.
  intros Hnd.
  rewrite <- (length_map mapped_id), <- (length_map Article.id (matching st q)).
  unfold joinjs_map. rewrite joinjs_ids. simpl.
  destruct (first_seen_spec (map row_id (joined_articles st q viewer)) []
              (NoDup_nil _)) as (Hn & Hin).
  apply Permutation_length. apply NoDup_Permutation.
  - exact Hn.
  - apply NoDup_map_filter. exact Hnd.
  - intros x. rewrite Hin, joined_ids. simpl. tauto.
Qed.

Lemma page_all {A} limit (l : list A) :
  (List.length l <= limit)%nat -> page limit 0 l = l.
Proof. intros H. unfold page. simpl. apply firstn_all2. exact H. Qed.

(** What a list request answers, from the rows of the store. *)
Lemma get_listing E user q w w' l n :
  get E user q w = (w', Ok (BodyArticles l n)) ->
  listing (db w) q (option_map User.id user) = Ok l
  /\ n = Some (Z.of_nat (List.length (matching (db w) q))).
Proof.
  unfold get. intros H.
  apply bind_inv_ok in H. destruct H as (w1 & res & Hp & H).
  apply bind_inv_ok in H. destruct H as (w2 & l' & Hm & H).
  inversion H; subst l' n w2; clear H.
  apply lift_result_ok in Hm. destruct Hm as (Hm & _).
  unfold promise_all2 in Hp.
  destruct (read E (SelectArticles q (option_map User.id user)) _ w)
    as [wa ra] eqn:Ha.
  destruct (read E (CountArticles q) _ wa) as [wb rb] eqn:Hb.
  destruct ra as [rows|e]; [| discriminate].
  destruct rb as [c|e]; [| discriminate].
  inversion Hp; subst res w1; clear Hp. simpl in Hm |- *.
  apply read_ok in Ha; [| reflexivity]. destruct Ha as (-> & Hda & _).
  apply read_ok in Hb; [| reflexivity]. destruct Hb as (-> & _).
  rewrite Hda. split; [exact Hm |].
  unfold count_articles. apply articles_count_row.
Qed.


(* ===================================================================== *)
(** * Reads: the flags of the viewer                                      *)
(* ===================================================================== *)




(** What a read of one article answers, from the rows of the store. *)
Lemma getOne_answer E slug user w w' a :
  serve E (GetOne slug user) w = (w', Ok (JsonArticle a)) ->
  exists row u,
    first_article (db w) slug = Some row
    /\ first_user (db w) (Article.author row) = Some u
    /\ a = Article.view_of_row row
             {| User.o_id := None;
                User.o_username := User.username u;
                User.o_bio := User.bio u;
                User.o_image := User.image u;
                User.o_following := follows (db w) user u |}
             (Some (tag_names_of (db w)
                      (rows_articles_tags (db w) (Article.id row))))
             (nonempty (favorites_of (db w) user (Article.id row))).
Proof.
  unfold serve, handle. intros H.
  destruct (respond_bySlug _ _ _ _ _ _ _ heap_getOne refers_getOne H)
    as (wl & p & o & wh & b & _ & Hl & _ & _ & _ & Hrun & _ & _ & _ & _ & Hj).
  inversion Hrun; subst wh b; clear Hrun. simpl in Hj.
  inversion Hj; subst a; clear Hj.
  unfold loaded in Hl.
  destruct (first_article (db w) slug) as [row|] eqn:Hrow; [| discriminate].
  destruct (first_user (db w) (Article.author row)) as [u|] eqn:Hu;
    [| discriminate].
  inversion Hl; subst p o; clear Hl.
  exists row, u. split; [reflexivity |]. split; [exact Hu | reflexivity].
Qed.



















Lemma in_page {A} limit offset (l : list A) x :
  In x (page limit offset l) -> In x l.
Proof.
  unfold page. intros H.
  rewrite <- (firstn_skipn offset l). apply in_or_app. right.
  rewrite <- (firstn_skipn limit (skipn offset l)). apply in_or_app. left.
  exact H.
Qed.






Lemma serve_list E user q w w' l n :
  serve E (List user q) w = (w', Ok (JsonArticles l n)) ->
  get E user q w = (w', Ok (BodyArticles l n)).
Proof.
  unfold serve, handle, respond.
  destruct (get E user q w) as [w1 [b|e]]; [| discriminate].
  destruct b as [a | l' n' |]; simpl.
  - destruct (nth_error (heap w1) (Article.v_author a)); discriminate.
  - intros H. inversion H; subst. reflexivity.
  - discriminate.
Qed.





(* ===================================================================== *)
(** * Update: a tag list in the payload is always a replacement           *)
(* ===================================================================== *)

(** Whatever tags the article has, an update that is answered and whose
    payload has a tag has deleted the ArticleTag rows of the article. *)
Lemma put_replaces_tags E user fields p w w' b n names :
  Article.f_tagList fields = Some (n :: names) ->
  put E user fields p w = (w', Ok b) ->
  In (mkEvent (DeleteArticleTags (Article.v_id (article p))) None) (log w').
Proof.
  intros Htl H. unfold put in H. rewrite Htl in H. cbv zeta in H.
  apply bind_inv_ok in H. destruct H as (w1 & owner & _ & H).
  apply bind_inv_ok in H. destruct H as (w2 & [] & _ & H).
  apply bind_inv_ok in H. destruct H as (w3 & aid & _ & H).
  apply bind_inv_ok in H. destruct H as (w4 & v & _ & H).
  apply bind_inv_ok in H. destruct H as (w5 & stamp & _ & H).
  apply bind_inv_ok in H. destruct H as (w6 & row & _ & H).
  apply bind_inv_ok in H. destruct H as (w7 & [] & _ & H).
  apply bind_inv_ok in H. destruct H as (w8 & [] & Hrep & H).
  inversion H; subst w8 b; clear H.
  rewrite replacement_test_always in Hrep.
  apply bind_inv_ok in Hrep. destruct Hrep as (w9 & [] & Hdel & Hrest).
  destruct (issue_inv _ _ _ _ _ Hdel)
    as (_ & _ & [(st & _ & _ & _ & _ & Hl) | (e & He & _)]);
    [| discriminate].
  assert (Hw : within not_article_insert anything w9 w').
  { revert Hrest. generalize w9 w' (Ok (A:=unit) tt).
    change (respects (within not_article_insert anything)
              (match Article.tagList v with
               | None => throw (TypeError "newArticle.tagList")
               | Some names' =>
                   ts <- new_tags E names' ;;
                   vs <- validate_tags E ts ;;
                   link_tags E vs (Article.v_id (article p))
               end)).
    unfold new_tags, validate_tags.
    repeat respects_step ltac:(first [apply tail_link_tags | tail_leaf]). }
  destruct Hw as (_ & tr & Hl' & _).
  rewrite Hl', Hl. apply in_or_app. left. apply in_or_app. right.
  left. reflexivity.
Qed.

(* ===================================================================== *)
(** * Further properties: how [bySlug] fails                              *)
(* ===================================================================== *)

Lemma read_cases {A} E s (f : Store -> A) w w' r :
  is_mutation s = false ->
  read E s f w = (w', r) ->
  r = Ok (f (db w)) \/ exists e, r = Throw e /\ injected E e.
Proof.
  intros Hs H.
  destruct (read_inv _ _ _ _ _ _ Hs H)
    as (_ & _ & _ & [(Hr & _) | (e & Hr & _ & Hf)]).
  - left. exact Hr.
  - right. exists (StoreError e). split; [exact Hr |].
    exists e, (List.length (log w)). auto.
Qed.

Tactic Notation "read_cases_in" hyp(H) "as" simple_intropattern(pat) :=
  apply read_cases in H; [destruct H as pat | reflexivity].

(** Why [load] throws. *)
Lemma load_throws E slug user w w' e :
  load E slug user w = (w', Throw e) ->
  (e = HttpError 404 /\ (slug = "" \/ first_article (db w) slug = None))
  \/ (e = TypeError "article.author"
      /\ exists row, first_article (db w) slug = Some row
                     /\ first_user (db w) (Article.author row) = None)
  \/ injected E e.
Proof.
  unfold load. intros H.
  destruct (bind_inv _ _ _ _ _ H) as [(w1 & [] & Ha & H1) | (e1 & Ha & He)];
    clear H.
  2:{ unfold assert in Ha. destruct (slug =? "") eqn:Hs; simpl in Ha;
        inversion Ha; subst. inversion He; subst.
      apply String.eqb_eq in Hs. auto. }
  assert (w1 = w) as ->.
  { unfold assert in Ha. destruct (negb (slug =? "")); inversion Ha; auto. }
  clear Ha.
  destruct (bind_inv _ _ _ _ _ H1) as [(w2 & found & Hr & H2) | (e1 & Hr & He)];
    clear H1.
  2:{ inversion He; subst e1.
      read_cases_in Hr as [Hc | (e' & Hc & Hi)];
        [discriminate |]. inversion Hc; subst. auto. }
  read_ok_in Hr as (-> & Hd2 & _).
  destruct (first_article (db w) slug) as [row|] eqn:Hrow;
    [| inversion H2; subst; auto].
  destruct (bind_inv _ _ _ _ _ H2) as [(w3 & trs & Hr3 & H3) | (e1 & Hr3 & He)];
    clear H2.
  2:{ inversion He; subst e1.
      read_cases_in Hr3 as [Hc | (e' & Hc & Hi)];
        [discriminate |]. inversion Hc; subst. auto. }
  read_ok_in Hr3 as (_ & Hd3 & _).
  destruct (bind_inv _ _ _ _ _ H3) as [(w4 & tl & Hr4 & H4) | (e1 & Hr4 & He)];
    clear H3.
  2:{ inversion He; subst e1.
      destruct (nonempty trs); [| discriminate].
      cbv zeta in Hr4.
      destruct (bind_inv _ _ _ _ _ Hr4) as [(w5 & rows & _ & Hc)
                                           | (e1 & Hr5 & He1)];
        [discriminate |].
      inversion He1; subst e1.
      read_cases_in Hr5 as [Hc | (e' & Hc & Hi)];
        [discriminate |]. inversion Hc; subst. auto. }
  assert (Hd4 : db w4 = db w3).
  { destruct (nonempty trs).
    - cbv zeta in Hr4. apply bind_inv_ok in Hr4.
      destruct Hr4 as (w5 & rows & Hr5 & Hc).
      read_ok_in Hr5 as (_ & Hd5 & _).
      inversion Hc; subst. exact Hd5.
    - inversion Hr4; subst. reflexivity. }
  destruct (bind_inv _ _ _ _ _ H4) as [(w5 & au & Hr5 & H5) | (e1 & Hr5 & He)];
    clear H4.
  2:{ inversion He; subst e1.
      read_cases_in Hr5 as [Hc | (e' & Hc & Hi)];
        [discriminate |]. inversion Hc; subst. auto. }
  read_ok_in Hr5 as (-> & _).
  rewrite Hd4, Hd3, Hd2 in H5.
  destruct (first_user (db w) (Article.author row)) as [u|] eqn:Hu.
  2:{ inversion H5; subst. right. left. eauto. }
  (* the author is there: only a select can fail from here on *)
  right. right.
  destruct (bind_inv _ _ _ _ _ H5) as [(w6 & l & Hal & H6) | (e1 & Hal & He)];
    clear H5; [| inversion Hal].
  destruct (bind_inv _ _ _ _ _ H6) as [(w7 & [] & Hfo & H7) | (e1 & Hfo & He)];
    clear H6.
  2:{ inversion He; subst e1.
      destruct user as [me|]; [| discriminate].
      destruct (negb (User.username me =? User.username u)); [| discriminate].
      destruct (bind_inv _ _ _ _ _ Hfo) as [(w8 & res & _ & Hc)
                                           | (e1 & Hr8 & He1)].
      - destruct (nonempty res); discriminate.
      - inversion He1; subst e1.
        read_cases_in Hr8 as [Hc | (e' & Hc & Hi)];
          [discriminate |]. inversion Hc; subst. exact Hi. }
  destruct (bind_inv _ _ _ _ _ H7) as [(w8 & favs & _ & Hc) | (e1 & Hfa & He)];
    [discriminate |].
  inversion He; subst e1.
  destruct user as [me|]; [| discriminate].
  read_cases_in Hfa as [Hc | (e' & Hc & Hi)];
    [discriminate |]. inversion Hc; subst. exact Hi.
Qed.

Lemma load_empty_slug E user w :
  load E "" user w = (w, Throw (HttpError 404)).
Proof. reflexivity. Qed.

(** A request on one article whose [load] throws ends there. *)
Lemma serve_load_throws E req slug w w' r :
  slug_of req = Some slug ->
  serve E req w = (w', r) ->
  forall user w1 e,
    handle E req = bySlug E slug user (match req with
                                       | GetOne _ _ => getOne
                                       | Update _ u f => put E u f
                                       | Delete _ u => del E u
                                       | Favorite _ u => favorite_post E u
                                       | Unfavorite _ u => favorite_del E u
                                       | _ => getOne
                                       end) ->
    load E slug user w = (w1, Throw e) ->
    w' = w1 /\ r = Throw e.
Proof.
  intros Hs H user w1 e Hh Hl. unfold serve, respond in H.
  rewrite Hh, bySlug_load, (bind_throw _ _ _ _ _ Hl) in H.
  inversion H; auto.
Qed.

Lemma handle_bySlug E req slug :
  slug_of req = Some slug ->
  exists user,
    handle E req = bySlug E slug user (match req with
                                       | GetOne _ _ => getOne
                                       | Update _ u f => put E u f
                                       | Delete _ u => del E u
                                       | Favorite _ u => favorite_post E u
                                       | Unfavorite _ u => favorite_del E u
                                       | _ => getOne
                                       end).
Proof.
  destruct req; simpl; intros H; inversion H; subst; eauto.
Qed.

(** A request on one article fails as [load] does when [load] finds no
    article or no author. *)
Lemma serve_not_loaded E req slug w w' r :
  slug_of req = Some slug ->
  slug = ""
  \/ (forall user l, loaded (db w) slug user l = None) ->
  serve E req w = (w', r) ->
  reads_only w w'
  /\ exists user e, r = Throw e /\ load E slug user w = (w', Throw e).
Proof.
  intros Hs Hn H.
  destruct (handle_bySlug E _ _ Hs) as (user & Hh).
  destruct (load E slug user w) as [w1 [p|e]] eqn:Hl.
  - exfalso. destruct Hn as [-> | Hn].
    + rewrite load_empty_slug in Hl. discriminate.
    + destruct (load_ok _ _ _ _ _ _ Hl) as (o & Hlo & _).
      rewrite Hn in Hlo. discriminate.
  - destruct (serve_load_throws _ _ _ _ _ _ Hs H _ _ _ Hh Hl) as (-> & ->).
    split; [eapply load_reads; eauto | eauto].
Qed.

(** X1.  A request on one article (read, update, delete, favorite,
    unfavorite) whose slug is empty or is the slug of no article is answered
    404, or with an error the store injected into a select; with the empty
    slug no statement is sent at all; in every case the rows are those of
    before the request and only selects went out. *)
Theorem X1_unknown_slug E req slug w w' r :
  slug_of req = Some slug ->
  slug = "" \/ first_article (db w) slug = None ->
  serve E req w = (w', r) ->
  db w' = db w
  /\ only_selects w w'
  /\ (slug = "" -> w' = w /\ r = Throw (HttpError 404))
  /\ exists e, r = Throw e /\ (e = HttpError 404 \/ injected E e).
Proof.
  intros Hs Hn H.
  assert (Hn' : slug = ""
                \/ (forall user l, loaded (db w) slug user l = None)).
  { destruct Hn as [-> | Hn]; [auto | right]. intros. unfold loaded.
    rewrite Hn. reflexivity. }
  destruct (serve_not_loaded _ _ _ _ _ _ Hs Hn' H)
    as ((Hd & Ht) & user & e & -> & Hl).
  split; [auto |]. split; [exact Ht |]. split.
  - intros ->. rewrite load_empty_slug in Hl. inversion Hl; auto.
  - exists e. split; [reflexivity |].
    destruct (load_throws _ _ _ _ _ _ Hl)
      as [(-> & _) | [(_ & row & Hrow & _) | Hi]]; auto.
    destruct Hn as [-> | Hn].
    + rewrite load_empty_slug in Hl. inversion Hl; auto.
    + rewrite Hn in Hrow. discriminate.
Qed.

Lemma X1_unknown_slug_witness :
  exists w' r,
    serve (Demo.env Sqlite3 Demo.no_fault)
      (Delete "no-such-article" Demo.alice) Demo.world = (w', r)
    /\ db w' = db Demo.world
    /\ r = Throw (HttpError 404).
Proof.
  destruct (serve (Demo.env Sqlite3 Demo.no_fault)
              (Delete "no-such-article" Demo.alice) Demo.world)
    as [w' r] eqn:H.
  exists w', r. split; [reflexivity |].
  destruct (X1_unknown_slug (Demo.env Sqlite3 Demo.no_fault)
              (Delete "no-such-article" Demo.alice) "no-such-article"
              Demo.world w' r eq_refl (or_intror eq_refl) H)
    as (Hd & _ & _ & e & -> & [-> | (err & n & _ & Hf)]).
  - split; [exact Hd | reflexivity].
  - discriminate Hf.
Defined.

(** X2.  A request on one article whose row names an author that has no
    User row fails with the [TypeError] of [article.author], or with an
    error the store injected into a select; the rows are those of before the
    request and only selects went out. *)
Theorem X2_dangling_author E req slug row w w' r :
  slug_of req = Some slug ->
  slug <> "" ->
  first_article (db w) slug = Some row ->
  first_user (db w) (Article.author row) = None ->
  serve E req w = (w', r) ->
  db w' = db w
  /\ only_selects w w'
  /\ exists e, r = Throw e
               /\ (e = TypeError "article.author" \/ injected E e).
Proof.
  intros Hs Hne Hrow Hu H.
  assert (Hn' : slug = ""
                \/ (forall user l, loaded (db w) slug user l = None)).
  { right. intros. unfold loaded. rewrite Hrow, Hu. reflexivity. }
  destruct (serve_not_loaded _ _ _ _ _ _ Hs Hn' H)
    as ((Hd & Ht) & user & e & -> & Hl).
  split; [auto |]. split; [exact Ht |].
  exists e. split; [reflexivity |].
  destruct (load_throws _ _ _ _ _ _ Hl)
    as [(_ & [-> | Hc]) | [(-> & _) | Hi]]; auto.
  - contradiction.
  - rewrite Hrow in Hc. discriminate.
Qed.

Lemma X2_dangling_author_witness :
  exists w' r,
    serve (Demo.env Postgres Demo.no_fault) (GetOne "hello-world" None)
      (mkWorld (mkStore [Demo.hello] [] [] [] [] []) [] 0 []) = (w', r)
    /\ r = Throw (TypeError "article.author").
Proof.
  destruct (serve (Demo.env Postgres Demo.no_fault)
              (GetOne "hello-world" None)
              (mkWorld (mkStore [Demo.hello] [] [] [] [] []) [] 0 []))
    as [w' r] eqn:H.
  exists w', r. split; [reflexivity |].
  destruct (X2_dangling_author (Demo.env Postgres Demo.no_fault)
              (GetOne "hello-world" None) "hello-world" Demo.hello
              (mkWorld (mkStore [Demo.hello] [] [] [] [] []) [] 0 []) w' r
              eq_refl ltac:(discriminate) eq_refl eq_refl H)
    as (_ & _ & e & -> & [-> | (err & n & _ & Hf)]).
  - reflexivity.
  - discriminate Hf.
Defined.

(* ===================================================================== *)
(** * Further properties: what no request writes                          *)
(* ===================================================================== *)

Lemma respects_bySlug (R : World -> World -> Prop) E slug user
    (h : Params -> M Body) :
  (forall w, R w w) ->
  (forall a b c, R a b -> R b c -> R a c) ->
  respects R (load E slug user) ->
  (forall p, respects R (h p)) ->
  (forall l f, respects R (modify_obj l f)) ->
  respects R (bySlug E slug user h).
Proof.
  intros Hr Ht Hl Hh Hm w w' r H. rewrite bySlug_load in H. revert w w' r H.
  change (respects R (params <- load E slug user ;;
                      body <- h params ;;
                      modify_obj (author params) delete_id ;; ret body)).
  apply respects_bind; [assumption | assumption | intro p].
  apply respects_bind; [assumption | apply Hh | intro b].
  apply respects_bind; [assumption | apply Hm | intros []].
  apply respects_ret. assumption.
Qed.

Lemma respects_get E user q : respects reads_only (get E user q).
Proof. unfold get, reads_only. repeat respects_step reads_leaf. Qed.

Lemma respects_feed_get E user limit offset :
  respects reads_only (feed_get E user limit offset).
Proof. unfold feed_get, reads_only. repeat respects_step reads_leaf. Qed.

(** X3.  The three [GET] routes (one article, the list, the feed) never
    write: whatever the result, the rows are those of before the request and
    every statement sent is a select. *)
Theorem X3_reads_never_write E req w w' r :
  is_read req = true ->
  serve E req w = (w', r) ->
  db w' = db w /\ only_selects w w'.
Proof.
  intros Hq H. unfold serve in H.
  destruct (respond_db _ _ _ _ H) as (r' & Hr). clear H.
  assert (Hres : respects reads_only (handle E req)).
  { destruct req; try discriminate; simpl.
    - apply respects_bySlug.
      + intro. apply within_refl. reflexivity.
      + apply within_trans. apply eq_trans.
      + apply load_reads.
      + intro p. unfold getOne, reads_only. repeat respects_step reads_leaf.
      + intros. unfold reads_only. reads_leaf.
    - apply respects_get.
    - apply respects_feed_get. }
  destruct (Hres _ _ _ Hr) as (Hd & Ht). split; [symmetry |]; assumption.
Qed.

Lemma X3_reads_never_write_witness :
  exists w' r,
    serve (Demo.env Sqlite3 Demo.no_fault)
      (Feed Demo.bob 10 0) Demo.world = (w', r)
    /\ db w' = db Demo.world.
Proof.
  destruct (serve (Demo.env Sqlite3 Demo.no_fault)
              (Feed Demo.bob 10 0) Demo.world) as [w' r] eqn:H.
  exists w', r. split; [reflexivity |].
  exact (proj1 (X3_reads_never_write (Demo.env Sqlite3 Demo.no_fault)
                  (Feed Demo.bob 10 0) Demo.world w' r eq_refl H)).
Defined.

Lemma tables_kept_refl st : tables_kept st st.
Proof.
  split; [reflexivity |]. split; [reflexivity |].
  exists []. rewrite app_nil_r. reflexivity.
Qed.

Lemma tables_kept_trans a b c :
  tables_kept a b -> tables_kept b c -> tables_kept a c.
Proof.
  intros (U1 & F1 & l1 & T1) (U2 & F2 & l2 & T2).
  split; [congruence |]. split; [congruence |].
  exists (l1 ++ l2). rewrite T2, T1, app_assoc. reflexivity.
Qed.

#[export] Hint Resolve tables_kept_refl tables_kept_trans : rel.

Lemma tables_kept_same st st' :
  users st' = users st -> followers st' = followers st ->
  tags st' = tags st -> tables_kept st st'.
Proof.
  intros Hu Hf Ht. split; [assumption |]. split; [assumption |].
  exists []. rewrite app_nil_r. assumption.
Qed.

Lemma kept_step d s st st' :
  apply_stmt d s st = inr st' -> tables_kept st st'.
Proof.
  intros H. destruct s; simpl in H;
    try (inversion H; subst; apply tables_kept_same; reflexivity).
  - destruct (_ <? _)%nat; inversion H; subst.
    apply tables_kept_same; reflexivity.
  - destruct (Article.p_slug p);
      [destruct (has_id _ (articles st) && _) |];
      inversion H; subst; apply tables_kept_same; reflexivity.
  - destruct (existsb _ (tags st)); inversion H; subst.
    split; [reflexivity |]. split; [reflexivity |].
    exists [t]. reflexivity.
Qed.

Ltac kept_leaf :=
  first [ apply within_uuid; rel_side
        | apply within_now; rel_side
        | apply within_alloc; rel_side
        | apply within_deref; rel_side
        | apply within_modify_obj; rel_side
        | apply within_read;
            [rel_side | exact I | intros ? ?; apply kept_step | rel_side]
        | apply within_issue;
            [rel_side | exact I | intros ? ?; apply kept_step]
        ].

(** The statements of a [Promise.all] are taken one by one. *)
Ltac kept_step :=
  lazymatch goal with
  | |- respects _ (promise_all _) =>
      apply respects_promise_all;
      [rel_side | rel_side
      | repeat first [apply Forall_nil | apply Forall_cons]]
  | |- _ => respects_step kept_leaf
  end.

Lemma kept_insert_tags E ts :
  respects (within (fun _ => True) tables_kept) (insert_tags E ts).
Proof.
  induction ts as [|t ts IH]; simpl.
  - repeat respects_step kept_leaf.
  - apply respects_bind; [rel_side | | intros _; exact IH].
    repeat respects_step kept_leaf.
Qed.

Lemma kept_link_tags E ts i :
  respects (within (fun _ => True) tables_kept) (link_tags E ts i).
Proof.
  unfold link_tags, new_relations.
  repeat respects_step ltac:(first [apply kept_insert_tags | kept_leaf]).
Qed.

Lemma kept_handle E req :
  respects (within (fun _ => True) tables_kept) (handle E req).
Proof.
  assert (Hload : forall slug user,
             respects (within (fun _ => True) tables_kept)
               (load E slug user)).
  { intros. unfold load. repeat respects_step kept_leaf. }
  assert (Hmod : forall l f,
             respects (within (fun _ => True) tables_kept)
               (modify_obj l f)).
  { intros. kept_leaf. }
  destruct req; simpl;
    try (apply respects_bySlug;
         [rel_side | rel_side | apply Hload | intro p | apply Hmod]).
  - unfold getOne. repeat respects_step kept_leaf.
  - unfold get. repeat respects_step kept_leaf.
  - unfold feed_get. repeat respects_step kept_leaf.
  - unfold post, insert_article, new_tags, validate_tags.
    repeat respects_step ltac:(first [apply kept_link_tags | kept_leaf]).
  - unfold put, author_id_of, update_article, new_tags, validate_tags.
    repeat respects_step ltac:(first [apply kept_link_tags | kept_leaf]).
  - unfold del. repeat kept_step.
  - unfold favorite_post. repeat kept_step.
  - unfold favorite_del. repeat kept_step.
Qed.

(** X4.  No request of the controller, whatever its result, writes to the
    users or to the followers, and none removes or changes a tag: after the
    request the tags are those of before, in their order, followed by the
    tags it inserted. *)
Theorem X4_users_followers_tags_kept E req w w' r :
  serve E req w = (w', r) ->
  users (db w') = users (db w)
  /\ followers (db w') = followers (db w)
  /\ exists l, tags (db w') = tags (db w) ++ l.
Proof.
  intros H. unfold serve in H.
  destruct (respond_db _ _ _ _ H) as (r' & Hr).
  exact (proj1 (kept_handle E req _ _ _ Hr)).
Qed.

Lemma X4_users_followers_tags_kept_witness :
  exists w' r,
    serve (Demo.env Sqlite3 Demo.no_fault)
      (Create Demo.carol (Demo.new_article "Third" (Some ["a"; "z"])))
      Demo.world = (w', r)
    /\ users (db w') = users (db Demo.world)
    /\ exists l, tags (db w') = tags (db Demo.world) ++ l.
Proof.
  destruct (serve (Demo.env Sqlite3 Demo.no_fault)
              (Create Demo.carol (Demo.new_article "Third" (Some ["a"; "z"])))
              Demo.world) as [w' r] eqn:H.
  exists w', r. split; [reflexivity |].
  destruct (X4_users_followers_tags_kept
              (Demo.env Sqlite3 Demo.no_fault)
              (Create Demo.carol (Demo.new_article "Third" (Some ["a"; "z"])))
              Demo.world w' r H) as (Hu & _ & Ht).
  split; assumption.
Defined.

(* ===================================================================== *)
(** * Further properties: favorite and unfavorite, the rows               *)
(* ===================================================================== *)

(** What an answered favorite has done to the rows. *)
Lemma favorite_rows E slug user w w1 j row :
  first_article (db w) slug = Some row ->
  serve E (Favorite slug user) w = (w1, Ok j) ->
  if favorited_in (db w) slug user
  then db w1 = db w
  else db w1 = favorited_rows (uuid_at E (drawn w)) (User.id user)
                 (Article.id row) (db w).
Proof.
  unfold serve, handle. intros Hrow H.
  destruct (respond_bySlug _ _ _ _ _ _ _ (heap_favorite_post E user)
              (refers_favorite_post E user) H)
    as (wl & p & o & wh & b & Hload & Hl & Hdl & Hnl & _ & Hrun & Hd1 & _ & _
        & _ & _).
  pose proof (loaded_favorited _ _ _ _ _ _ Hl) as Hfav.
  destruct (loaded_owner _ _ _ _ _ _ _ Hl Hrow) as (_ & Hid).
  unfold favorite_post in Hrun. rewrite <- Hfav.
  destruct (Article.v_favorited (article p)) eqn:Hv.
  - inversion Hrun; subst wh b. congruence.
  - apply bind_inv_ok in Hrun. destruct Hrun as (wu & id & Hu & Hrun).
    inversion Hu; subst wu id; clear Hu.
    apply bind_inv_ok in Hrun. destruct Hrun as (wp & [] & Hp & Hrun).
    inversion Hrun; subst wh b; clear Hrun.
    apply promise_pair_ok in Hp. destruct Hp as (st1 & Hs1 & Hs2).
    cbn [db apply_stmt] in Hs1, Hs2. inversion Hs1; subst st1; clear Hs1.
    inversion Hs2 as [Hst]; clear Hs2.
    rewrite Hdl, Hid, Hnl in Hst. rewrite <- Hst in Hd1. exact Hd1.
Qed.

(** What an answered unfavorite has done to the rows. *)
Lemma unfavorite_rows E slug user w w1 j row :
  first_article (db w) slug = Some row ->
  serve E (Unfavorite slug user) w = (w1, Ok j) ->
  if favorited_in (db w) slug user
  then db w1 = unfavorited_rows (User.id user) (Article.id row) (db w)
  else db w1 = db w.
Proof.
  unfold serve, handle. intros Hrow H.
  destruct (respond_bySlug _ _ _ _ _ _ _ (heap_favorite_del E user)
              (refers_favorite_del E user) H)
    as (wl & p & o & wh & b & Hload & Hl & Hdl & Hnl & _ & Hrun & Hd1 & _ & _
        & _ & _).
  pose proof (loaded_favorited _ _ _ _ _ _ Hl) as Hfav.
  destruct (loaded_owner _ _ _ _ _ _ _ Hl Hrow) as (_ & Hid).
  unfold favorite_del in Hrun. rewrite <- Hfav.
  destruct (Article.v_favorited (article p)) eqn:Hv; cbn [negb] in Hrun.
  - apply bind_inv_ok in Hrun. destruct Hrun as (wp & [] & Hp & Hrun).
    inversion Hrun; subst wh b; clear Hrun.
    apply promise_pair_ok in Hp. destruct Hp as (st1 & Hs1 & Hs2).
    cbn [db apply_stmt] in Hs1, Hs2. inversion Hs1; subst st1; clear Hs1.
    inversion Hs2 as [Hst]; clear Hs2.
    rewrite Hdl, Hid in Hst. rewrite <- Hst in Hd1. exact Hd1.
  - inversion Hrun; subst wh b. congruence.
Qed.

Lemma answered_has_row E req slug w w' j :
  slug_of req = Some slug ->
  serve E req w = (w', Ok j) ->
  exists row, first_article (db w) slug = Some row.
Proof.
  intros Hs H.
  destruct (first_article (db w) slug) as [row|] eqn:Hrow; [eauto |].
  assert (Hn : slug = ""
               \/ (forall user l, loaded (db w) slug user l = None)).
  { right. intros. unfold loaded. rewrite Hrow. reflexivity. }
  destruct (serve_not_loaded _ _ _ _ _ _ Hs Hn H) as (_ & _ & e & Hc & _).
  discriminate.
Qed.

Lemma bump_back (a : string) (l : list Article.row) :
  map (fun r => if Article.id r =? a then Article.bump (- (1)) r else r)
    (map (fun r => if Article.id r =? a then Article.bump 1 r else r) l)
  = l.
Proof.
  rewrite map_map. rewrite <- (map_id l) at 2. apply map_ext. intros r.
  destruct (Article.id r =? a) eqn:Hr; [| rewrite Hr; reflexivity].
  cbn [Article.bump Article.id]. rewrite Hr.
  destruct r; unfold Article.bump; simpl. f_equal. lia.
Qed.

Lemma filter_none_all {A} (f : A -> bool) (l : list A) :
  filter f l = [] -> filter (fun x => negb (f x)) l = l.
Proof.
  induction l as [|x l IH]; simpl; [reflexivity |].
  destruct (f x); simpl; [discriminate |]. intros H. f_equal. auto.
Qed.

Lemma first_article_bumped st st' a n slug :
  first_article
    (set_articles
       (map (fun r => if Article.id r =? a then Article.bump n r else r)
          (articles st)) st') slug
  = option_map (fun r => if Article.id r =? a then Article.bump n r else r)
      (first_article st slug).
Proof.
  unfold first_article. simpl. apply find_slug_map.
  intros r. destruct (Article.id r =? a); reflexivity.
Qed.

(** X5.  A favorite that was answered, of an article the caller had not
    favorited, followed by an unfavorite that was answered, leaves the rows
    of the store as they were before the two requests. *)
Theorem X5_favorite_then_unfavorite E slug user w w1 j1 w2 j2 :
  favorited_in (db w) slug user = false ->
  serve E (Favorite slug user) w = (w1, Ok j1) ->
  serve E (Unfavorite slug user) w1 = (w2, Ok j2) ->
  db w2 = db w.
Proof.
  intros Hf H1 H2.
  destruct (answered_has_row E (Favorite slug user) slug _ _ _ eq_refl H1)
    as (row & Hrow).
  pose proof (favorite_rows _ _ _ _ _ _ _ Hrow H1) as Hd1.
  rewrite Hf in Hd1.
  destruct (favorite_settles _ _ _ _ _ _ H1) as (Hf1 & _).
  assert (Hrow1 : first_article (db w1) slug = Some (Article.bump 1 row)).
  { rewrite Hd1. unfold favorited_rows. rewrite first_article_bumped.
    rewrite Hrow. simpl. rewrite String.eqb_refl. reflexivity. }
  pose proof (unfavorite_rows _ _ _ _ _ _ _ Hrow1 H2) as Hd2.
  rewrite Hf1 in Hd2. rewrite Hd2, Hd1.
  unfold unfavorited_rows, favorited_rows, set_articles, set_favorites.
  cbn [articles users tags articles_tags favorites followers Article.bump
       Article.id].
  rewrite bump_back, filter_app. cbn [filter Favorite.user Favorite.article].
  rewrite !String.eqb_refl. cbn [andb negb]. rewrite app_nil_r.
  rewrite filter_none_all.
  - destruct (db w); reflexivity.
  - unfold favorited_in in Hf. rewrite Hrow in Hf.
    unfold rows_favorites in Hf.
    destruct (filter _ (favorites (db w))); [reflexivity | discriminate].
Qed.

Lemma X5_favorite_then_unfavorite_witness :
  exists w1 j1 w2 j2,
    serve (Demo.env Sqlite3 Demo.no_fault) (Favorite "hello-world" Demo.carol)
      Demo.world = (w1, Ok j1)
    /\ serve (Demo.env Sqlite3 Demo.no_fault)
         (Unfavorite "hello-world" Demo.carol) w1 = (w2, Ok j2)
    /\ db w2 = db Demo.world.
Proof.
  do 4 eexists.
  assert (H1 : serve (Demo.env Sqlite3 Demo.no_fault)
                 (Favorite "hello-world" Demo.carol) Demo.world
               = (_, Ok _)) by (lazy; reflexivity).
  split; [exact H1 |].
  match goal with
  | |- serve ?E ?req ?w1 = _ /\ _ =>
      assert (H2 : serve E req w1 = (_, Ok _)) by (lazy; reflexivity)
  end.
  split; [exact H2 |].
  exact (X5_favorite_then_unfavorite (Demo.env Sqlite3 Demo.no_fault)
           "hello-world" Demo.carol Demo.world _ _ _ _ eq_refl H1 H2).
Defined.

Lemma filter_split_length {A} (p q : A -> bool) (l : list A) :
  (forall x, q x = true -> p x = true) ->
  List.length (filter p l)
  = List.length (filter p (filter (fun x => negb (q x)) l))
    + List.length (filter q l).
Proof.
  intros Hq. induction l as [|x l IH]; simpl; [reflexivity |].
  destruct (q x) eqn:Hx; simpl.
  - rewrite (Hq _ Hx). simpl. rewrite IH. lia.
  - destruct (p x); simpl; rewrite IH; reflexivity.
Qed.

Lemma filter_apart {A} (p q : A -> bool) (l : list A) :
  (forall x, p x = true -> q x = false) ->
  filter p (filter (fun x => negb (q x)) l) = filter p l.
Proof.
  intros Hq. induction l as [|x l IH]; simpl; [reflexivity |].
  destruct (q x) eqn:Hx; simpl.
  - destruct (p x) eqn:Hp; [| exact IH].
    rewrite (Hq _ Hp) in Hx. discriminate.
  - rewrite IH. reflexivity.
Qed.

Lemma counted_favorited i u a st :
  counted st -> counted (favorited_rows i u a st).
Proof.
  intros Hc r Hr. unfold favorited_rows in *. simpl in *.
  apply in_map_iff in Hr. destruct Hr as (r0 & <- & Hr0).
  rewrite filter_app, length_app. simpl.
  destruct (Article.id r0 =? a) eqn:Ha.
  - cbn [Article.bump Article.favorites_count Article.id].
    apply String.eqb_eq in Ha. rewrite Ha, String.eqb_refl. simpl.
    rewrite (Hc _ Hr0), Ha. lia.
  - rewrite String.eqb_sym, Ha. simpl. rewrite (Hc _ Hr0). lia.
Qed.

Lemma counted_unfavorited u a st :
  counted st ->
  List.length (rows_favorites st u a) = 1 ->
  counted (unfavorited_rows u a st).
Proof.
  intros Hc H1 r Hr. unfold unfavorited_rows in *. simpl in *.
  apply in_map_iff in Hr. destruct Hr as (r0 & <- & Hr0).
  destruct (Article.id r0 =? a) eqn:Ha.
  - cbn [Article.bump Article.favorites_count Article.id].
    apply String.eqb_eq in Ha. rewrite (Hc _ Hr0), Ha.
    rewrite (filter_split_length (fun f => Favorite.article f =? a)
               (fun f => (Favorite.user f =? u) && (Favorite.article f =? a))
               (favorites st)).
    + unfold rows_favorites in H1. rewrite H1. lia.
    + intros x Hx. apply andb_true_iff in Hx. tauto.
  - rewrite (Hc _ Hr0). f_equal. f_equal. symmetry.
    apply filter_apart. intros x Hx.
    apply String.eqb_eq in Hx. rewrite Hx, String.eqb_sym, Ha.
    apply andb_false_r.
Qed.

Lemma counted_deleted u a st st' :
  counted st ->
  articles st' = filter (fun r => negb (Article.id r =? a)) (articles st) ->
  favorites st'
  = filter (fun f => negb ((Favorite.user f =? u) && (Favorite.article f =? a)))
      (favorites st) ->
  counted st'.
Proof.
  intros Hc Ha Hf r Hr. rewrite Ha in Hr. apply filter_In in Hr.
  destruct Hr as (Hr & Hne). apply negb_true_iff in Hne.
  rewrite Hf, (Hc _ Hr). f_equal. f_equal. symmetry.
  apply filter_apart. intros x Hx.
  apply String.eqb_eq in Hx. rewrite Hx, String.eqb_sym, Hne.
  apply andb_false_r.
Qed.

(** X6.  The counters follow the Favorite rows through favorite, unfavorite
    and delete: when the [favorites_count] of every article is the number of
    Favorite rows that refer to it, it still is after any of the three
    requests that was answered; for the unfavorite, which takes one off the
    counter and removes every row of the caller for the article, provided the
    caller has at most one such row. *)
Theorem X6_counters_follow_rows E req slug user w w' j :
  req = Favorite slug user \/ req = Unfavorite slug user
  \/ req = Delete slug user ->
  counted (db w) ->
  (req = Unfavorite slug user ->
   forall row, first_article (db w) slug = Some row ->
               List.length (rows_favorites (db w) (User.id user)
                              (Article.id row)) <= 1) ->
  serve E req w = (w', Ok j) ->
  counted (db w').
Proof.
  intros Hreq Hc Hone H.
  assert (Hrow : exists row, first_article (db w) slug = Some row).
  { apply (answered_has_row E req slug w w' j); [| exact H].
    destruct Hreq as [-> | [-> | ->]]; reflexivity. }
  destruct Hrow as (row & Hrow).
  destruct Hreq as [-> | [-> | ->]].
  - pose proof (favorite_rows _ _ _ _ _ _ _ Hrow H) as Hd.
    destruct (favorited_in (db w) slug user); rewrite Hd;
      [exact Hc | apply counted_favorited; exact Hc].
  - pose proof (unfavorite_rows _ _ _ _ _ _ _ Hrow H) as Hd.
    destruct (favorited_in (db w) slug user) eqn:Hf; rewrite Hd;
      [| exact Hc].
    apply counted_unfavorited; [exact Hc |].
    specialize (Hone eq_refl _ Hrow).
    unfold favorited_in in Hf. rewrite Hrow in Hf.
    destruct (rows_favorites (db w) (User.id user) (Article.id row))
      as [|f [|g l]]; simpl in *; [discriminate | reflexivity | lia].
  - destruct (delete_rows _ _ _ _ _ _ _ Hrow H) as (_ & Ha & _ & Hf).
    exact (counted_deleted _ _ _ _ Hc Ha Hf).
Qed.

Lemma X6_counters_follow_rows_witness :
  exists w' j,
    serve (Demo.env Sqlite3 Demo.no_fault) (Unfavorite "hello-world" Demo.bob)
      Demo.world = (w', Ok j)
    /\ counted (db Demo.world)
    /\ counted (db w').
Proof.
  do 2 eexists.
  assert (H : serve (Demo.env Sqlite3 Demo.no_fault)
                (Unfavorite "hello-world" Demo.bob) Demo.world
              = (_, Ok _)) by (lazy; reflexivity).
  assert (Hc : counted (db Demo.world)).
  { intros r [<- | [<- | []]]; reflexivity. }
  split; [exact H |]. split; [exact Hc |].
  eapply (X6_counters_follow_rows (Demo.env Sqlite3 Demo.no_fault)
            (Unfavorite "hello-world" Demo.bob) "hello-world" Demo.bob
            Demo.world);
    [right; left; reflexivity | exact Hc | | exact H].
  intros _ row Hrow. inversion Hrow; subst row. simpl. lia.
Defined.

(* ===================================================================== *)
(** * Further properties: delete, what stays                              *)
(* ===================================================================== *)

Lemma delete_store E slug user w w' j row :
  first_article (db w) slug = Some row ->
  serve E (Delete slug user) w = (w', Ok j) ->
  db w' = deleted_rows (User.id user) (Article.id row) (db w).
Proof.
  unfold serve, handle. intros Hrow H.
  destruct (respond_bySlug _ _ _ _ _ _ _ (heap_del E user)
              (fun p _ => refers_del E user p) H)
    as (wl & p & o & wh & b & Hload & Hl & Hdl & _ & Hhl & Hrun & Hd1 & _ & _
        & _ & _).
  destruct (loaded_owner _ _ _ _ _ _ _ Hl Hrow) as (_ & Hid).
  unfold del in Hrun. cbv zeta in Hrun.
  apply bind_inv_ok in Hrun. destruct Hrun as (w2 & owner & Hde & Hrun).
  assert (w2 = wl) as ->.
  { unfold deref in Hde. destruct (nth_error (heap wl) _); inversion Hde; auto. }
  apply bind_inv_ok in Hrun. destruct Hrun as (w3 & [] & Has & Hrun).
  assert (w3 = wl) as ->.
  { unfold assert in Has. destruct (some_eqb _ _); inversion Has; auto. }
  apply bind_inv_ok in Hrun. destruct Hrun as (w4 & [] & Hp & Hrun).
  inversion Hrun; subst wh b; clear Hrun.
  apply promise_all_cons_ok in Hp. destruct Hp as (wa & Ha & Hp).
  apply promise_all_cons_ok in Hp. destruct Hp as (wb & Hb & Hp).
  apply promise_all_cons_ok in Hp. destruct Hp as (wc & Hc & Hp).
  inversion Hp; subst wc; clear Hp.
  apply issue_ok in Ha, Hb, Hc. cbn [apply_stmt] in Ha, Hb, Hc.
  inversion Ha as [Ha']. inversion Hb as [Hb']. inversion Hc as [Hc'].
  rewrite Hd1, <- Hc', <- Hb', <- Ha', Hdl, Hid. reflexivity.
Qed.

(** X7.  A delete that was answered touches nothing but the article: the
    users, the tags and the followers are the same; so are, in their order,
    the articles with another id, the ArticleTag rows of the other articles,
    and the Favorite rows that are not of the caller for this article. *)
Theorem X7_delete_keeps_the_rest E slug user w w' j row :
  first_article (db w) slug = Some row ->
  serve E (Delete slug user) w = (w', Ok j) ->
  users (db w') = users (db w)
  /\ tags (db w') = tags (db w)
  /\ followers (db w') = followers (db w)
  /\ (forall a, a <> Article.id row ->
        filter (fun r => Article.id r =? a) (articles (db w'))
        = filter (fun r => Article.id r =? a) (articles (db w)))
  /\ (forall a, a <> Article.id row ->
        rows_articles_tags (db w') a = rows_articles_tags (db w) a)
  /\ (forall u a, u <> User.id user \/ a <> Article.id row ->
        rows_favorites (db w') u a = rows_favorites (db w) u a).
Proof.
  intros Hrow H. rewrite (delete_store _ _ _ _ _ _ _ Hrow H).
  unfold deleted_rows, rows_articles_tags, rows_favorites. simpl.
  split; [reflexivity |]. split; [reflexivity |]. split; [reflexivity |].
  split; [| split].
  - intros a Ha. apply filter_apart. intros x Hx.
    apply String.eqb_eq in Hx. rewrite Hx. apply String.eqb_neq. exact Ha.
  - intros a Ha. apply filter_apart. intros x Hx.
    apply String.eqb_eq in Hx. rewrite Hx. apply String.eqb_neq. exact Ha.
  - intros u a Hua. apply filter_apart. intros x Hx.
    apply andb_true_iff in Hx. destruct Hx as (Hu & Ha).
    apply String.eqb_eq in Hu, Ha. rewrite Hu, Ha.
    apply andb_false_iff.
    destruct Hua as [Hne | Hne]; [left | right]; apply String.eqb_neq;
      exact Hne.
Qed.

Lemma X7_delete_keeps_the_rest_witness :
  exists w',
    serve (Demo.env Sqlite3 Demo.no_fault) (Delete "hello-world" Demo.alice)
      Demo.world = (w', Ok JsonEmpty)
    /\ users (db w') = users (db Demo.world)
    /\ rows_favorites (db w') "u-bob" "a-1"
       = rows_favorites (db Demo.world) "u-bob" "a-1".
Proof.
  eexists.
  assert (H : serve (Demo.env Sqlite3 Demo.no_fault)
                (Delete "hello-world" Demo.alice) Demo.world
              = (_, Ok JsonEmpty)) by (lazy; reflexivity).
  destruct (X7_delete_keeps_the_rest (Demo.env Sqlite3 Demo.no_fault)
              "hello-world" Demo.alice Demo.world _ _ Demo.hello eq_refl H)
    as (Hu & _ & _ & _ & _ & Hf).
  split; [exact H |]. split; [exact Hu |].
  apply Hf. left. discriminate.
Defined.

(** X8.  After a delete that was answered, when the slug named no other
    article, a request on that slug finds nothing: it is answered 404, or
    with an error the store injected into its select, and writes nothing. *)
Theorem X8_deleted_is_gone E slug user req w w1 j w2 r :
  (forall row, first_article (db w) slug = Some row ->
               slug_names_one (db w) slug (Article.id row)) ->
  serve E (Delete slug user) w = (w1, Ok j) ->
  slug_of req = Some slug ->
  serve E req w1 = (w2, r) ->
  db w2 = db w1
  /\ exists e, r = Throw e /\ (e = HttpError 404 \/ injected E e).
Proof.
  intros Hone H1 Hs H2.
  destruct (answered_has_row E (Delete slug user) slug _ _ _ eq_refl H1)
    as (row & Hrow).
  assert (Hgone : first_article (db w1) slug = None).
  { rewrite (delete_store _ _ _ _ _ _ _ Hrow H1).
    unfold first_article, deleted_rows. simpl.
    destruct (find _ (filter _ (articles (db w)))) as [x|] eqn:Hx;
      [| reflexivity].
    apply find_some in Hx. destruct Hx as (Hin & Hsl).
    apply filter_In in Hin. destruct Hin as (Hin & Hid).
    apply String.eqb_eq in Hsl. apply negb_true_iff in Hid.
    apply String.eqb_neq in Hid. elim Hid.
    exact (Hone _ Hrow _ Hin Hsl). }
  assert (Hn : slug = ""
               \/ (forall user l, loaded (db w1) slug user l = None)).
  { right. intros. unfold loaded. rewrite Hgone. reflexivity. }
  destruct (serve_not_loaded _ _ _ _ _ _ Hs Hn H2)
    as ((Hd & _) & user' & e & -> & Hl).
  split; [auto |]. exists e. split; [reflexivity |].
  destruct (load_throws _ _ _ _ _ _ Hl)
    as [(-> & _) | [(_ & row' & Hrow' & _) | Hi]]; auto.
  rewrite Hgone in Hrow'. discriminate.
Qed.

Lemma X8_deleted_is_gone_witness :
  exists w1 w2,
    serve (Demo.env Sqlite3 Demo.no_fault) (Delete "hello-world" Demo.alice)
      Demo.world = (w1, Ok JsonEmpty)
    /\ serve (Demo.env Sqlite3 Demo.no_fault) (GetOne "hello-world" None) w1
       = (w2, Throw (HttpError 404)).
Proof.
  do 2 eexists.
  assert (H1 : serve (Demo.env Sqlite3 Demo.no_fault)
                 (Delete "hello-world" Demo.alice) Demo.world
               = (_, Ok JsonEmpty)) by (lazy; reflexivity).
  split; [exact H1 |].
  match goal with
  | |- serve ?E ?req ?w1 = (?w2, _) =>
      destruct (serve E req w1) as [w2' r] eqn:H2;
      destruct (X8_deleted_is_gone E "hello-world" Demo.alice req Demo.world
                  w1 JsonEmpty w2' r) as (_ & e & -> & [-> | (err & n & _ & Hf)])
  end.
  - intros row Hrow r0 [<- | [<- | []]] Hsl;
      inversion Hrow; subst; [reflexivity | discriminate].
  - exact H1.
  - reflexivity.
  - exact H2.
  - inversion H2. reflexivity.
  - discriminate Hf.
Defined.

(* ===================================================================== *)
(** * Further properties: update and the tag list of the payload          *)
(* ===================================================================== *)

Lemma article_rows_only_refl st : article_rows_only st st.
Proof. repeat split. Qed.

Lemma article_rows_only_trans a b c :
  article_rows_only a b -> article_rows_only b c -> article_rows_only a c.
Proof.
  unfold article_rows_only.
  intros (? & ? & ? & ? & ?) (? & ? & ? & ? & ?). repeat split; congruence.
Qed.

#[export] Hint Resolve article_rows_only_refl article_rows_only_trans : rel.

Lemma update_step d p i st st' :
  apply_stmt d (UpdateArticle p i) st = inr st' -> article_rows_only st st'.
Proof.
  simpl. intros H.
  destruct (Article.p_slug p);
    [destruct (has_id _ (articles st) && _) |];
    inversion H; subst; repeat split.
Qed.

Ltac update_leaf :=
  first [ apply within_uuid; rel_side
        | apply within_now; rel_side
        | apply within_alloc; rel_side
        | apply within_deref; rel_side
        | apply within_modify_obj; rel_side
        | apply within_read;
            [rel_side | reflexivity
            | intros ? ? Hst; inversion Hst; apply article_rows_only_refl
            | rel_side]
        | apply within_issue;
            [rel_side | exact I | intros ? ?; apply update_step]
        ].

Lemma update_article_rows E row i :
  respects (within update_or_select article_rows_only)
    (update_article E row i).
Proof. unfold update_article. repeat respects_step update_leaf. Qed.

(** X9.  An update whose payload has no tag list touches the article rows
    only: whatever the result, the tags, the ArticleTag rows, the favorites,
    the users and the followers are those of before the request, and every
    statement sent is a select or an update of an article. *)
Theorem X9_update_without_tag_list E slug user fields w w' r :
  Article.f_tagList fields = None ->
  serve E (Update slug user fields) w = (w', r) ->
  article_rows_only (db w) (db w')
  /\ exists tr, log w' = log w ++ tr
                /\ Forall (fun e => update_or_select (stmt e)) tr.
Proof.
  intros Htl H. unfold serve in H.
  destruct (respond_db _ _ _ _ H) as (r' & Hr). clear H.
  revert w w' r' Hr.
  change (respects (within update_or_select article_rows_only)
            (handle E (Update slug user fields))).
  simpl. apply respects_bySlug; [rel_side | rel_side | | | ].
  - unfold load. repeat respects_step update_leaf.
  - intro p. unfold put, author_id_of. rewrite Htl. cbv iota.
    repeat respects_step
      ltac:(first [apply update_article_rows | update_leaf]).
  - intros. update_leaf.
Qed.

Lemma X9_update_without_tag_list_witness :
  exists w' r,
    serve (Demo.env Sqlite3 Demo.no_fault)
      (Update "hello-world" Demo.alice Demo.no_fields) Demo.world = (w', r)
    /\ articles_tags (db w') = articles_tags (db Demo.world).
Proof.
  destruct (serve (Demo.env Sqlite3 Demo.no_fault)
              (Update "hello-world" Demo.alice Demo.no_fields) Demo.world)
    as [w' r] eqn:H.
  exists w', r. split; [reflexivity |].
  destruct (X9_update_without_tag_list (Demo.env Sqlite3 Demo.no_fault)
              "hello-world" Demo.alice Demo.no_fields Demo.world w' r
              eq_refl H) as ((_ & _ & Hat & _) & _).
  exact Hat.
Defined.

(** The worlds of one run of [m] are related by what [m] respects. *)
Lemma respects_run {A} (R : World -> World -> Prop) (m : M A) w w' r :
  respects R m -> m w = (w', r) -> R w w'.
Proof. intros Hm H. exact (Hm _ _ _ H). Qed.

(** The run of an update up to the tag list: the articles apart, the rows
    are the same. *)
Lemma put_until_tags E user fields p w w' b :
  put E user fields p w = (w', Ok b) ->
  exists w6 row v,
    article_rows_only (db w) (db w6)
    /\ (tagged <-
          match Article.f_tagList fields with
          | Some [] => issue E (DeleteArticleTags (Article.v_id (article p)))
          | _ => ret tt
          end ;;
        match Article.f_tagList fields with
        | Some (n :: names) =>
            if nonempty (lodash_difference
                           (match Article.v_tagList (article p) with
                            | Some l => l | None => [] end) [])
               || nonempty (lodash_difference (n :: names) [])
            then
              issue E (DeleteArticleTags (Article.v_id (article p))) ;;
              match Article.tagList v with
              | None => throw (TypeError "newArticle.tagList")
              | Some names' =>
                  ts <- new_tags E names' ;;
                  vs <- validate_tags E ts ;;
                  link_tags E vs (Article.v_id (article p))
              end
            else ret tt
        | _ => ret tt
        end ;;
        ret (BodyArticle
               (Article.view_of_row row (author p) (Article.tagList v)
                  (Article.v_favorited (article p))))) w6 = (w', Ok b).
Proof.
  intros H. unfold put in H. cbv zeta in H.
  apply bind_inv_ok in H. destruct H as (w1 & owner & H1 & H).
  apply bind_inv_ok in H. destruct H as (w2 & [] & H2 & H).
  apply bind_inv_ok in H. destruct H as (w3 & aid & H3 & H).
  apply bind_inv_ok in H. destruct H as (w4 & v & H4 & H).
  apply bind_inv_ok in H. destruct H as (w5 & stamp & H5 & H).
  apply bind_inv_ok in H. destruct H as (w6 & row & H6 & H).
  exists w6, row, v. split; [| exact H].
  assert (R1 : within update_or_select article_rows_only w w1).
  { eapply respects_run; [| exact H1]. update_leaf. }
  assert (R2 : within update_or_select article_rows_only w1 w2).
  { eapply respects_run; [| exact H2]. repeat respects_step update_leaf. }
  assert (R3 : within update_or_select article_rows_only w2 w3).
  { eapply respects_run; [| exact H3]. unfold author_id_of.
    repeat respects_step update_leaf. }
  assert (R4 : within update_or_select article_rows_only w3 w4).
  { eapply respects_run; [| exact H4]. repeat respects_step update_leaf. }
  assert (R5 : within update_or_select article_rows_only w4 w5).
  { eapply respects_run; [| exact H5]. update_leaf. }
  assert (R6 : within update_or_select article_rows_only w5 w6).
  { eapply respects_run; [| exact H6]. apply update_article_rows. }
  destruct R1 as (R1 & _), R2 as (R2 & _), R3 as (R3 & _), R4 as (R4 & _),
    R5 as (R5 & _), R6 as (R6 & _).
  eauto 7 with rel.
Qed.

(** X10.  An update that was answered and whose payload has the empty tag
    list has removed the ArticleTag rows of the article, and only those: the
    rows of the other articles are the same, in their order, and so are the
    tags, the favorites, the users and the followers. *)
Theorem X10_update_empty_tag_list E slug user fields w w' j row :
  Article.f_tagList fields = Some [] ->
  first_article (db w) slug = Some row ->
  serve E (Update slug user fields) w = (w', Ok j) ->
  articles_tags (db w')
  = filter (fun r => negb (ArticleTag.article r =? Article.id row))
      (articles_tags (db w))
  /\ users (db w') = users (db w)
  /\ tags (db w') = tags (db w)
  /\ favorites (db w') = favorites (db w)
  /\ followers (db w') = followers (db w).
Proof.
  unfold serve, handle. intros Htl Hrow H.
  destruct (respond_bySlug _ _ _ _ _ _ _ (heap_put E user fields)
              (refers_put E user fields) H)
    as (wl & p & o & wh & b & Hload & Hl & Hdl & _ & _ & Hrun & Hd1 & _ & _
        & _ & _).
  destruct (loaded_owner _ _ _ _ _ _ _ Hl Hrow) as (_ & Hid).
  destruct (put_until_tags _ _ _ _ _ _ _ Hrun)
    as (w6 & row6 & v & (Hu & Ht & Hat & Hf & Hfo) & Htail).
  rewrite Htl in Htail.
  apply bind_inv_ok in Htail. destruct Htail as (w7 & [] & Hdel & Htail).
  inversion Htail; subst wh b; clear Htail.
  apply issue_ok in Hdel. cbn [apply_stmt] in Hdel.
  inversion Hdel as [Hst]. rewrite Hd1, <- Hst, Hid. simpl.
  rewrite Hat, Hu, Ht, Hf, Hfo, Hdl. repeat split.
Qed.

Lemma X10_update_empty_tag_list_witness :
  exists w' j,
    serve (Demo.env Sqlite3 Demo.no_fault)
      (Update "hello-world" Demo.alice (Demo.with_tags [])) Demo.world
    = (w', Ok j)
    /\ articles_tags (db w') = []
    /\ tags (db w') = tags (db Demo.world).
Proof.
  do 2 eexists.
  assert (H : serve (Demo.env Sqlite3 Demo.no_fault)
                (Update "hello-world" Demo.alice (Demo.with_tags []))
                Demo.world = (_, Ok _)) by (lazy; reflexivity).
  destruct (X10_update_empty_tag_list (Demo.env Sqlite3 Demo.no_fault)
              "hello-world" Demo.alice (Demo.with_tags []) Demo.world _ _
              Demo.hello eq_refl eq_refl H) as (Hat & _ & Ht & _).
  split; [exact H |]. split; [exact Hat | exact Ht].
Defined.

(* ===================================================================== *)
(** * Further properties: the pages of the list and of the feed           *)
(* ===================================================================== *)

Lemma map_result_map {A B C} (f : A -> Result B) (g : B -> C) (h : A -> C)
    l ys :
  (forall x y, f x = Ok y -> g y = h x) ->
  map_result f l = Ok ys -> map g ys = map h l.
Proof.
  intros Hf. revert ys. induction l as [|x l IH]; simpl; intros ys H.
  - inversion H; reflexivity.
  - destruct (f x) as [y|e] eqn:Hx; [| discriminate].
    destruct (map_result f l) as [ys'|e]; [| discriminate].
    inversion H; subst. simpl. f_equal; eauto.
Qed.

Lemma finished_ids (f : Mapped -> Result (Article.view User.obj)) rows l :
  f = finish_listed \/ f = finish_fed ->
  map_result f (joinjs_map rows) = Ok l ->
  map (@Article.v_id _) l = fold_left first_seen (map row_id rows) [].
Proof.
  intros Hf H.
  rewrite (map_result_map f (@Article.v_id _) mapped_id _ _) with (2 := H).
  - unfold joinjs_map. rewrite joinjs_ids. reflexivity.
  - intros m y Hy.
    destruct Hf as [-> | ->]; unfold finish_listed, finish_fed in Hy;
      destruct (m_author m); inversion Hy; reflexivity.
Qed.

Lemma first_seen_length ids seen :
  List.length (fold_left first_seen ids seen)
  <= List.length seen + List.length ids.
Proof.
  revert seen. induction ids as [|i ids IH]; intros seen; simpl; [lia |].
  specialize (IH (first_seen seen i)). unfold first_seen in *.
  destruct (mem i seen); [lia |]. rewrite length_app in IH. simpl in IH. lia.
Qed.

Lemma page_length {A} limit offset (l : list A) :
  List.length (page limit offset l) <= limit.
Proof. unfold page. apply firstn_le_length. Qed.

Lemma joined_ids_of st viewer wf (p : Article.row -> bool) x :
  In x (map row_id
          (order_desc created
             (flat_map (join_article st viewer wf)
                (filter p (articles st)))))
  <-> In x (map Article.id (filter p (articles st))).
Proof.
  rewrite (Permutation_in' (eq_refl x)
             (Permutation_map row_id (order_desc_perm created _))).
  rewrite !in_map_iff. split.
  - intros (j & <- & Hj). apply in_flat_map in Hj.
    destruct Hj as (a & Ha & Hj). exists a. split; [| exact Ha].
    unfold row_id. rewrite (join_article_of _ _ _ _ _ Hj). reflexivity.
  - intros (a & <- & Ha).
    destruct (join_article_inhabited st viewer wf a) as (j & Hj).
    exists j. split.
    + unfold row_id. rewrite (join_article_of _ _ _ _ _ Hj). reflexivity.
    + apply in_flat_map. exists a. auto.
Qed.

(** One page of joined rows of the articles that pass [p], materialized. *)
Lemma page_of_joined (f : Mapped -> Result (Article.view User.obj))
    st viewer wf (p : Article.row -> bool) limit offset l :
  f = finish_listed \/ f = finish_fed ->
  map_result f
    (joinjs_map
       (page limit offset
          (order_desc created
             (flat_map (join_article st viewer wf)
                (filter p (articles st)))))) = Ok l ->
  page_of (filter p (articles st)) limit l.
Proof.
  intros Hf H. pose proof (finished_ids _ _ _ Hf H) as Hids.
  set (rows := page limit offset _) in *.
  destruct (first_seen_spec (map row_id rows) [] (NoDup_nil _)) as (Hn & Hin).
  split; [rewrite Hids; exact Hn |]. split.
  - rewrite <- (length_map (@Article.v_id _)), Hids.
    pose proof (first_seen_length (map row_id rows) []) as Hl.
    rewrite length_map in Hl. simpl in Hl.
    pose proof (page_length limit offset
                  (order_desc created
                     (flat_map (join_article st viewer wf)
                        (filter p (articles st))))) as Hp.
    fold rows in Hp. lia.
  - intros x Hx.
    assert (Hi : In (Article.v_id x) (map (@Article.v_id _) l))
      by (apply in_map; exact Hx).
    rewrite Hids in Hi. apply Hin in Hi. destruct Hi as [[] | Hi].
    assert (Hj : In (Article.v_id x)
                   (map row_id
                      (order_desc created
                         (flat_map (join_article st viewer wf)
                            (filter p (articles st)))))).
    { apply in_map_iff in Hi. destruct Hi as (j & Hj & Hi).
      apply in_map_iff. exists j. split; [exact Hj |].
      exact (in_page _ _ _ _ Hi). }
    apply joined_ids_of in Hj. apply in_map_iff in Hj.
    destruct Hj as (a & Ha & Hj). eauto.
Qed.

Lemma nonempty_false {A} (l : list A) : nonempty l = false -> l = [].
Proof. destruct l; [reflexivity | discriminate]. Qed.

(** The predicate of the two queries of [get] says what the filters say. *)
Lemma satisfies_meets st q a :
  satisfies st q a = true <-> meets st q a.
Proof.
  unfold satisfies, meets, where_author, where_favorited, where_tag,
    user_ids_named, rows_tags_by_name.
  rewrite !andb_true_iff.
  assert (Hids : forall names i,
             In i (map User.id
                     (filter (fun u => mem (User.username u) names)
                        (users st)))
             <-> exists u, In u (users st) /\ In (User.username u) names
                           /\ User.id u = i).
  { intros names i. rewrite in_map_iff. split.
    - intros (u & Hi & Hu). apply filter_In in Hu. destruct Hu as (Hu & Hm).
      apply mem_In in Hm. eauto.
    - intros (u & Hu & Hn & Hi). exists u. split; [exact Hi |].
      apply filter_In. split; [exact Hu | apply In_mem; exact Hn]. }
  split.
  - intros ((Ha & Hf) & Ht). split; [| split].
    + destruct (nonempty (Query.author q)) eqn:Hn;
        [| left; apply nonempty_false; exact Hn].
      right. apply mem_In in Ha. apply Hids in Ha.
      destruct Ha as (u & Hu & Hname & Hi). eauto.
    + destruct (nonempty (Query.favorited q)) eqn:Hn;
        [| left; apply nonempty_false; exact Hn].
      right. apply mem_In, in_map_iff in Hf. destruct Hf as (f & Hfa & Hf).
      apply filter_In in Hf. destruct Hf as (Hf & Hm).
      apply mem_In, Hids in Hm. destruct Hm as (u & Hu & Hname & Hi).
      exists u, f. auto.
    + destruct (nonempty (Query.tag q)) eqn:Hn;
        [| left; apply nonempty_false; exact Hn].
      right. apply mem_In, in_map_iff in Ht. destruct Ht as (r & Hra & Hr).
      apply filter_In in Hr. destruct Hr as (Hr & Hm).
      apply mem_In, in_map_iff in Hm. destruct Hm as (t & Hti & Ht).
      apply filter_In in Ht. destruct Ht as (Ht & Hname).
      apply mem_In in Hname. exists t, r. auto.
  - intros (Ha & Hf & Ht). split; [split |].
    + destruct Ha as [-> | (u & Hu & Hname & Hi)]; [reflexivity |].
      destruct (nonempty (Query.author q)); [| reflexivity].
      apply In_mem, Hids. eauto.
    + destruct Hf as [-> | (u & f & Hu & Hname & Hf & Hfu & Hfa)];
        [reflexivity |].
      destruct (nonempty (Query.favorited q)); [| reflexivity].
      apply In_mem, in_map_iff. exists f. split; [exact Hfa |].
      apply filter_In. split; [exact Hf |].
      apply In_mem, Hids. eauto.
    + destruct Ht as [-> | (t & r & Ht & Hname & Hr & Hrt & Hra)];
        [reflexivity |].
      destruct (nonempty (Query.tag q)); [| reflexivity].
      apply In_mem, in_map_iff. exists r. split; [exact Hra |].
      apply filter_In. split; [exact Hr |].
      apply In_mem, in_map_iff. exists t. split; [auto |].
      apply filter_In. split; [exact Ht | apply In_mem; exact Hname].
Qed.

(** X11.  The articles of a list request that was answered are distinct
    articles, no more than the limit of the query, and each of them is an
    article of the store that meets the filters of the query: its author has
    one of the usernames asked, a user with one of the usernames asked has
    favorited it, and it carries a tag with one of the names asked, for each
    of the three filters that names something. *)
Theorem X11_list_page E user q w w' l n :
  serve E (List user q) w = (w', Ok (JsonArticles l n)) ->
  NoDup (map (@Article.v_id _) l)
  /\ List.length l <= Query.limit q
  /\ forall x, In x l ->
       exists a, In a (articles (db w))
                 /\ meets (db w) q a
                 /\ Article.id a = Article.v_id x.
Proof.
  intros H. apply serve_list in H.
  destruct (get_listing _ _ _ _ _ _ _ H) as (Hm & _).
  unfold listing, rows_articles, joined_articles in Hm.
  destruct (page_of_joined _ _ _ _ _ _ _ _ (or_introl eq_refl) Hm)
    as (Hn & Hl & Hin).
  split; [exact Hn |]. split; [exact Hl |].
  intros x Hx. destruct (Hin x Hx) as (a & Ha & Hid).
  apply filter_In in Ha. destruct Ha as (Ha & Hs).
  apply satisfies_meets in Hs. eauto.
Qed.

(** Of the two articles of the store, the one of Bob is not tagged [b]: the
    list of the articles tagged [b] has the article of Alice alone. *)
Lemma X11_list_page_witness :
  exists w' l n,
    serve (Demo.env Postgres Demo.no_fault)
      (List (Some Demo.bob) (Query.mk 0 5 ["b"] ["alice"; "bob"] ["bob"]))
      Demo.world
    = (w', Ok (JsonArticles l n))
    /\ map (@Article.v_id _) l = ["a-1"]
    /\ forall x, In x l ->
         exists a, In a (articles (db Demo.world))
                   /\ meets (db Demo.world)
                        (Query.mk 0 5 ["b"] ["alice"; "bob"] ["bob"]) a
                   /\ Article.id a = Article.v_id x.
Proof.
  do 3 eexists.
  assert (H : serve (Demo.env Postgres Demo.no_fault)
                (List (Some Demo.bob)
                   (Query.mk 0 5 ["b"] ["alice"; "bob"] ["bob"]))
                Demo.world
              = (_, Ok (JsonArticles _ _))) by (lazy; reflexivity).
  split; [exact H |]. split; [reflexivity |].
  exact (proj2 (proj2 (X11_list_page (Demo.env Postgres Demo.no_fault)
                         (Some Demo.bob)
                         (Query.mk 0 5 ["b"] ["alice"; "bob"] ["bob"])
                         Demo.world _ _ _ H))).
Defined.

(** X25.  The count of a list request that was answered is the number of
    articles of the store that meet the filters of the query, whatever the
    limit and the offset, as a number for the two ways of writing a count
    the model of the store has (a number under "count(*)", a decimal string
    under "count").  The ids of the articles being unique, that is the
    number of articles the request returns when the limit is no less than
    the number of joined rows and the offset is zero. *)
Theorem X25_count_of_the_filtered E user q w w' l n :
  serve E (List user q) w = (w', Ok (JsonArticles l n)) ->
  exists f,
    (forall a, f a = true <-> meets (db w) q a)
    /\ n = Some (Z.of_nat (List.length (filter f (articles (db w)))))
    /\ (NoDup (map Article.id (articles (db w))) ->
        Query.offset q = 0 ->
        List.length (joined_articles (db w) q (option_map User.id user))
        <= Query.limit q ->
        List.length l = List.length (filter f (articles (db w)))).
Proof.
  intros H. apply serve_list in H.
  destruct (get_listing _ _ _ _ _ _ _ H) as (Hm & Hn).
  exists (satisfies (db w) q).
  split; [intro a; apply satisfies_meets |]. split; [exact Hn |].
  intros Hnd Ho Hl. unfold listing in Hm.
  rewrite (map_result_length _ _ _ Hm).
  unfold rows_articles. rewrite Ho, page_all by exact Hl.
  apply joinjs_all. exact Hnd.
Qed.

(** Of the two articles of the store, one is by Alice, favorited by Bob and
    tagged [a]: the count is one whatever the page. *)
Lemma X25_count_of_the_filtered_witness :
  exists w' l f,
    serve (Demo.env Postgres Demo.no_fault)
      (List None (Query.mk 7 1 ["a"; "nope"] ["alice"] ["bob"; "carol"]))
      Demo.world
    = (w', Ok (JsonArticles l (Some 1%Z)))
    /\ (forall a, f a = true
                  <-> meets (db Demo.world)
                        (Query.mk 7 1 ["a"; "nope"] ["alice"] ["bob"; "carol"])
                        a)
    /\ List.length (filter f (articles (db Demo.world))) = 1.
Proof.
  do 2 eexists.
  assert (H : serve (Demo.env Postgres Demo.no_fault)
                (List None
                   (Query.mk 7 1 ["a"; "nope"] ["alice"] ["bob"; "carol"]))
                Demo.world
              = (_, Ok (JsonArticles _ (Some 1%Z)))) by (lazy; reflexivity).
  destruct (X25_count_of_the_filtered _ _ _ _ _ _ _ H) as (f & Hf & Hn & _).
  exists f. split; [exact H |]. split; [exact Hf |].
  inversion Hn as [Hz]. apply Nat2Z.inj. symmetry. exact Hz.
Defined.





(* ===================================================================== *)
(** * Further properties: create, the row and the response                *)
(* ===================================================================== *)

Lemma insert_row_ok E row w w' :
  issue E (InsertArticle row) w = (w', Ok tt) ->
  db w' = set_articles (articles (db w) ++ [row]) (db w)
  /\ count_slug (Article.slug row) (articles (db w)) = 0.
Proof.
  intros H. apply issue_ok in H. simpl in H.
  destruct (0 <? count_slug (Article.slug row) (articles (db w)))%nat eqn:Hc;
    [discriminate |].
  inversion H as [Hd]. split; [reflexivity |].
  apply Nat.ltb_ge in Hc. lia.
Qed.

(** The row that went in, when the [try]/[catch] around the insert ends
    well: the row as given or the row under the suffixed slug; it is the
    last of the articles and its slug was the slug of none. *)
Lemma insert_article_row E row w w1 row1 :
  insert_article E row w = (w1, Ok row1) ->
  (row1 = row \/ row1 = retried row (uuid_at E (drawn w)))
  /\ db w1 = set_articles (articles (db w) ++ [row1]) (db w)
  /\ count_slug (Article.slug row1) (articles (db w)) = 0.
Proof.
  unfold insert_article. intros H.
  apply catch_inv in H. destruct H as [(a & H & Ha) | (w2 & e & H & Hh)].
  - inversion Ha; subst a; clear Ha.
    apply bind_inv_ok in H. destruct H as (w2 & [] & Hi & Hr).
    inversion Hr; subst; clear Hr.
    split; [left; reflexivity | exact (insert_row_ok _ _ _ _ Hi)].
  - destruct (bind_inv _ _ _ _ _ H) as [(w3 & [] & Hi & Hr) | (e' & Hi & He)];
      [inversion Hr |].
    destruct (issue_inv _ _ _ _ _ Hi)
      as (Hn & _ & [(st & _ & _ & Hc & _) | (err & _ & Hd & _)]);
      [discriminate |].
    apply bind_inv_ok in Hh. destruct Hh as (w3 & [] & Has & Hh).
    assert (w3 = w2) as ->.
    { unfold assert in Has. destruct (recognised e); inversion Has; auto. }
    apply bind_inv_ok in Hh. destruct Hh as (w4 & u & Hu & Hh).
    inversion Hu; subst w4 u; clear Hu.
    apply bind_inv_ok in Hh. destruct Hh as (w5 & [] & Hi2 & Hr).
    inversion Hr; subst; clear Hr.
    destruct (insert_row_ok _ _ _ _ Hi2) as (Hd5 & Hc5).
    simpl in Hd5, Hc5. rewrite Hd in Hd5, Hc5. rewrite Hn in *.
    split; [right; reflexivity | split; assumption].
Qed.

Lemma same_articles_refl st : same_articles st st.
Proof. reflexivity. Qed.

Lemma same_articles_trans a b c :
  same_articles a b -> same_articles b c -> same_articles a c.
Proof. unfold same_articles. congruence. Qed.

#[export] Hint Resolve same_articles_refl same_articles_trans : rel.

Lemma tag_step d s st st' :
  match s with
  | InsertTag _ | InsertArticleTags _ | DeleteArticleTags _ => True
  | _ => is_mutation s = false
  end ->
  apply_stmt d s st = inr st' -> same_articles st st'.
Proof.
  intros Hs H. destruct s; simpl in Hs, H; try discriminate;
    try (inversion H; subst; reflexivity).
  destruct (existsb _ (tags st)); inversion H; subst. reflexivity.
Qed.

Ltac tag_leaf :=
  first [ apply within_uuid; rel_side
        | apply within_now; rel_side
        | apply within_alloc; rel_side
        | apply within_deref; rel_side
        | apply within_modify_obj; rel_side
        | apply within_read;
            [rel_side | exact I
            | intros ? ?; apply tag_step; reflexivity
            | rel_side]
        | apply within_issue;
            [rel_side | exact I
            | intros ? ?; apply tag_step; exact I]
        ].

Lemma articles_insert_tags E ts :
  respects (within (fun _ => True) same_articles) (insert_tags E ts).
Proof.
  induction ts as [|t ts IH]; simpl.
  - repeat respects_step tag_leaf.
  - apply respects_bind; [rel_side | | intros _; exact IH].
    repeat respects_step tag_leaf.
Qed.

Lemma articles_link_tags E ts i :
  respects (within (fun _ => True) same_articles) (link_tags E ts i).
Proof.
  unfold link_tags, new_relations.
  repeat respects_step ltac:(first [apply articles_insert_tags | tag_leaf]).
Qed.

(** What the handler of a create request has written and built when it
    ends well. *)
Lemma post_answered E user payload w wp b :
  post E user payload w = (wp, Ok b) ->
  exists v row,
    validate_article E
      (draft_of_payload payload (uuid_at E (drawn w)) (User.id user)) = inr v
    /\ (row = first_row E v \/ exists u, row = retried (first_row E v) u)
    /\ articles (db wp) = articles (db w) ++ [row]
    /\ count_slug (Article.slug row) (articles (db w)) = 0
    /\ heap wp = heap w ++ [profile user]
    /\ b = BodyArticle
             (Article.view_of_row row (List.length (heap w))
                (Article.tagList v) false).
Proof.
  intros Hp. unfold post in Hp.
  apply bind_inv_ok in Hp. destruct Hp as (wu & id & Hu & Hp).
  inversion Hu; subst wu id; clear Hu.
  apply bind_inv_ok in Hp. destruct Hp as (wv & v & Hv & Hp).
  apply lift_inv in Hv.
  destruct Hv as (-> & [(v' & Hv & Hv') | (e & He)]); [| discriminate].
  inversion Hv'; subst v'; clear Hv'.
  cbv zeta in Hp.
  apply bind_inv_ok in Hp. destruct Hp as (w0 & tags & Ht & Hp).
  destruct (log_post_tags E _ _ _ _ Ht) as (_ & Hd0). simpl in Hd0.
  assert (Hh0 : same_heap
                  (mkWorld (db w) (log w) (S (drawn w)) (heap w)) w0).
  { eapply respects_run; [| exact Ht]. unfold new_tags, validate_tags.
    destruct (Article.tagList v) as [[|n names]|];
      repeat respects_step heap_leaf. }
  apply bind_inv_ok in Hp. destruct Hp as (w1 & row1 & Hi & Hp).
  destruct (insert_article_row _ _ _ _ _ Hi) as (Hrow & Hd1 & Hc).
  assert (Hh1 : same_heap w0 w1).
  { eapply respects_run; [| exact Hi]. unfold insert_article.
    repeat respects_step heap_leaf. }
  apply bind_inv_ok in Hp. destruct Hp as (w2 & [] & Hb & Hp).
  assert (Ha2 : same_articles (db w1) (db w2)).
  { apply (fun Hm : respects (within (fun _ => True) same_articles) _ =>
             proj1 (Hm _ _ _ Hb)).
    destruct tags as [[|t ts]|];
      repeat respects_step ltac:(first [apply articles_link_tags
                                       | tag_leaf]). }
  assert (Hh2 : same_heap w1 w2).
  { eapply respects_run; [| exact Hb].
    destruct tags as [[|t ts]|];
      repeat respects_step ltac:(first [apply heap_link_tags | heap_leaf]). }
  apply bind_inv_ok in Hp. destruct Hp as (w3 & l & Hal & Hp).
  inversion Hal; subst w3 l; clear Hal.
  inversion Hp; subst wp b; clear Hp.
  unfold same_heap in Hh0, Hh1, Hh2. simpl in Hh0.
  exists v, row1. split; [exact Hv |]. split.
  - destruct Hrow as [-> | ->]; [left; reflexivity | right; eauto].
  - rewrite Hd0 in Hc. simpl. rewrite Ha2, Hd1, Hd0, Hh2, Hh1, Hh0. simpl.
    split; [reflexivity |]. split; [exact Hc |]. split; reflexivity.
Qed.

(** X13.  A create request that was answered has added one article row,
    the last of the articles: the validated columns under the slug of the
    title, or under that slug with a suffix; its slug was the slug of no
    article before.  The response shows that row, not favorited, with the
    profile of the caller for author, not following. *)
Theorem X13_create_row E user payload w w' j :
  serve E (Create user payload) w = (w', Ok j) ->
  exists v row,
    validate_article E
      (draft_of_payload payload (uuid_at E (drawn w)) (User.id user)) = inr v
    /\ (row = first_row E v \/ exists u, row = retried (first_row E v) u)
    /\ articles (db w') = articles (db w) ++ [row]
    /\ count_slug (Article.slug row) (articles (db w)) = 0
    /\ j = JsonArticle
             (Article.view_of_row row (profile user) (Article.tagList v)
                false).
Proof.
  unfold serve, handle, respond. intros H.
  destruct (post E user payload w) as [wp [b|e]] eqn:Hp; [| discriminate].
  destruct (post_answered _ _ _ _ _ _ Hp)
    as (v & row & Hv & Hrow & Ha & Hc & Hh & ->).
  simpl in H. rewrite Hh, nth_error_last in H. simpl in H.
  inversion H; subst w' j; clear H.
  exists v, row.
  split; [exact Hv |]. split; [exact Hrow |]. split; [exact Ha |].
  split; [exact Hc | reflexivity].
Qed.

Lemma X13_create_row_witness :
  exists w' j,
    serve (Demo.env Sqlite3 Demo.no_fault)
      (Create Demo.carol (Demo.new_article "Hello World" None)) Demo.world
    = (w', Ok j)
    /\ exists row,
         articles (db w') = articles (db Demo.world) ++ [row]
         /\ count_slug (Article.slug row) (articles (db Demo.world)) = 0.
Proof.
  do 2 eexists.
  assert (H : serve (Demo.env Sqlite3 Demo.no_fault)
                (Create Demo.carol (Demo.new_article "Hello World" None))
                Demo.world = (_, Ok _)) by (lazy; reflexivity).
  split; [exact H |].
  destruct (X13_create_row (Demo.env Sqlite3 Demo.no_fault) Demo.carol
              (Demo.new_article "Hello World" None) Demo.world _ _ H)
    as (v & row & _ & _ & Ha & Hc & _).
  exists row. split; [exact Ha | exact Hc].
Defined.

Lemma find_last_only {A} (f : A -> bool) (l : list A) (x : A) :
  List.length (filter f l) = 0 -> f x = true -> find f (l ++ [x]) = Some x.
Proof.
  intros Hl Hx. induction l as [|y l IH]; simpl in *.
  - rewrite Hx. reflexivity.
  - destruct (f y); [discriminate | auto].
Qed.

(** X14.  What a create request answered is what a read of the new slug
    finds: the read that follows, by any viewer, when it is answered, shows
    the columns the create request showed. *)
Theorem X14_created_is_read E user payload viewer w w1 a1 w2 a2 :
  serve E (Create user payload) w = (w1, Ok (JsonArticle a1)) ->
  serve E (GetOne (Article.v_slug a1) viewer) w1 = (w2, Ok (JsonArticle a2)) ->
  shown a2 = shown a1.
Proof.
  intros H1 H2. unfold serve, handle, respond in H1.
  destruct (post E user payload w) as [wp [b|e]] eqn:Hp; [| discriminate].
  destruct (post_answered _ _ _ _ _ _ Hp)
    as (v & row & _ & _ & Ha & Hc & Hh & ->).
  simpl in H1. rewrite Hh, nth_error_last in H1. simpl in H1.
  inversion H1; subst w1 a1; clear H1. simpl in H2.
  destruct (getOne_answer _ _ _ _ _ _ H2) as (row' & u & Hrow' & _ & ->).
  unfold first_article in Hrow'. rewrite Ha in Hrow'.
  rewrite find_last_only in Hrow'.
  - inversion Hrow'; subst row'. reflexivity.
  - exact Hc.
  - apply String.eqb_refl.
Qed.

Lemma X14_created_is_read_witness :
  exists w1 a1 w2 a2,
    serve (Demo.env Sqlite3 Demo.no_fault)
      (Create Demo.carol (Demo.new_article "Third" (Some ["a"]))) Demo.world
    = (w1, Ok (JsonArticle a1))
    /\ serve (Demo.env Sqlite3 Demo.no_fault)
         (GetOne (Article.v_slug a1) (Some Demo.bob)) w1
       = (w2, Ok (JsonArticle a2))
    /\ shown a2 = shown a1.
Proof.
  do 4 eexists.
  assert (H1 : serve (Demo.env Sqlite3 Demo.no_fault)
                 (Create Demo.carol (Demo.new_article "Third" (Some ["a"])))
                 Demo.world = (_, Ok (JsonArticle _)))
    by (lazy; reflexivity).
  split; [exact H1 |].
  match goal with
  | |- serve ?E ?req ?w1 = _ /\ _ =>
      assert (H2 : serve E req w1 = (_, Ok (JsonArticle _)))
        by (lazy; reflexivity)
  end.
  split; [exact H2 |].
  exact (X14_created_is_read (Demo.env Sqlite3 Demo.no_fault) Demo.carol
           (Demo.new_article "Third" (Some ["a"])) (Some Demo.bob)
           Demo.world _ _ _ _ H1 H2).
Defined.

(* ===================================================================== *)
(** * Further properties: update, the row and the response                *)
(* ===================================================================== *)

Lemma update_row_ok E row i w w' :
  issue E (UpdateArticle (picked row) i) w = (w', Ok tt) ->
  db w'
  = set_articles
      (map (fun r => if Article.id r =? i then Article.apply (picked row) r
                     else r) (articles (db w))) (db w).
Proof.
  intros H. apply issue_ok in H. simpl in H.
  destruct (has_id i (articles (db w)) && _); [discriminate |].
  inversion H. reflexivity.
Qed.

(** The row that was written, when the [try]/[catch] around the update ends
    well. *)
Lemma update_article_row E row i w w1 row1 :
  update_article E row i w = (w1, Ok row1) ->
  db w1
  = set_articles
      (map (fun r => if Article.id r =? i then Article.apply (picked row1) r
                     else r) (articles (db w))) (db w).
Proof.
  unfold update_article. intros H.
  apply catch_inv in H. destruct H as [(a & H & Ha) | (w2 & e & H & Hh)].
  - inversion Ha; subst a; clear Ha.
    apply bind_inv_ok in H. destruct H as (w2 & [] & Hi & Hr).
    inversion Hr; subst; clear Hr. exact (update_row_ok _ _ _ _ _ Hi).
  - destruct (bind_inv _ _ _ _ _ H) as [(w3 & [] & Hi & Hr) | (e' & Hi & He)];
      [inversion Hr |].
    destruct (issue_inv _ _ _ _ _ Hi)
      as (_ & _ & [(st & _ & _ & Hc & _) | (err & _ & Hd & _)]);
      [discriminate |].
    apply bind_inv_ok in Hh. destruct Hh as (w3 & [] & Has & Hh).
    assert (w3 = w2) as ->.
    { unfold assert in Has. destruct (recognised e); inversion Has; auto. }
    apply bind_inv_ok in Hh. destruct Hh as (w4 & u & Hu & Hh).
    inversion Hu; subst w4 u; clear Hu.
    apply bind_inv_ok in Hh. destruct Hh as (w5 & [] & Hi2 & Hr).
    inversion Hr; subst; clear Hr.
    rewrite (update_row_ok _ _ _ _ _ Hi2). simpl. rewrite Hd. reflexivity.
Qed.

(** An update up to its tag list: nothing but the update of the row. *)
Lemma put_row E user fields p w w' b :
  put E user fields p w = (w', Ok b) ->
  exists row v,
    articles (db w')
    = map (fun r => if Article.id r =? Article.v_id (article p)
                    then Article.apply (picked row) r else r)
        (articles (db w))
    /\ b = BodyArticle
             (Article.view_of_row row (author p) (Article.tagList v)
                (Article.v_favorited (article p))).
Proof.
  intros H. unfold put in H. cbv zeta in H.
  apply bind_inv_ok in H. destruct H as (w1 & owner & H1 & H).
  apply bind_inv_ok in H. destruct H as (w2 & [] & H2 & H).
  apply bind_inv_ok in H. destruct H as (w3 & aid & H3 & H).
  apply bind_inv_ok in H. destruct H as (w4 & v & H4 & H).
  apply bind_inv_ok in H. destruct H as (w5 & stamp & H5 & H).
  apply bind_inv_ok in H. destruct H as (w6 & row & H6 & H).
  apply bind_inv_ok in H. destruct H as (w7 & [] & H7 & H).
  apply bind_inv_ok in H. destruct H as (w8 & [] & H8 & H).
  inversion H; subst w8 b; clear H.
  exists row, v. split; [| reflexivity].
  assert (R1 : same_log w w1).
  { eapply respects_run; [| exact H1]. log_leaf. }
  assert (R2 : same_log w1 w2).
  { eapply respects_run; [| exact H2]. repeat respects_step log_leaf. }
  assert (R3 : same_log w2 w3).
  { eapply respects_run; [| exact H3]. unfold author_id_of.
    repeat respects_step log_leaf. }
  assert (R4 : same_log w3 w4).
  { eapply respects_run; [| exact H4]. repeat respects_step log_leaf. }
  assert (R5 : same_log w4 w5).
  { eapply respects_run; [| exact H5]. log_leaf. }
  assert (R7 : within (fun _ => True) same_articles w6 w7).
  { eapply respects_run; [| exact H7].
    destruct (Article.f_tagList fields) as [[|n names]|];
      repeat respects_step tag_leaf. }
  assert (R8 : within (fun _ => True) same_articles w7 w').
  { eapply respects_run; [| exact H8].
    unfold new_tags, validate_tags.
    destruct (Article.f_tagList fields) as [[|n names]|];
      repeat respects_step
        ltac:(first [apply articles_link_tags | tag_leaf]). }
  destruct R1 as (_ & R1), R2 as (_ & R2), R3 as (_ & R3), R4 as (_ & R4),
    R5 as (_ & R5), R7 as (R7 & _), R8 as (R8 & _).
  rewrite R8, R7, (update_article_row _ _ _ _ _ _ H6). simpl.
  rewrite R5, R4, R3, R2, R1. reflexivity.
Qed.

(** X15.  An update that was answered has rewritten the article row, and no
    other: its title, slug, body, description and update time are those the
    response shows, its other columns are the stored ones; the other
    articles are the same, in their order. *)
Theorem X15_update_row E slug user fields w w' a row :
  first_article (db w) slug = Some row ->
  serve E (Update slug user fields) w = (w', Ok (JsonArticle a)) ->
  articles (db w')
  = map (fun r => if Article.id r =? Article.id row then rewritten a r else r)
      (articles (db w)).
Proof.
  unfold serve, handle. intros Hrow H.
  destruct (respond_bySlug _ _ _ _ _ _ _ (heap_put E user fields)
              (refers_put E user fields) H)
    as (wl & p & o & wh & b & Hload & Hl & Hdl & _ & _ & Hrun & Hd1 & _ & _
        & _ & Hj).
  destruct (loaded_owner _ _ _ _ _ _ _ Hl Hrow) as (_ & Hid).
  destruct (put_row _ _ _ _ _ _ _ Hrun) as (row1 & v & Ha & ->).
  simpl in Hj. inversion Hj; subst a; clear Hj.
  rewrite Hd1, Ha, Hdl, Hid. apply map_ext. intros r.
  destruct (Article.id r =? Article.id row); reflexivity.
Qed.

Lemma X15_update_row_witness :
  exists w' a,
    serve (Demo.env Sqlite3 Demo.no_fault)
      (Update "hello-world" Demo.alice Demo.no_fields) Demo.world
    = (w', Ok (JsonArticle a))
    /\ articles (db w') = [rewritten a Demo.hello; Demo.second].
Proof.
  do 2 eexists.
  assert (H : serve (Demo.env Sqlite3 Demo.no_fault)
                (Update "hello-world" Demo.alice Demo.no_fields) Demo.world
              = (_, Ok (JsonArticle _))) by (lazy; reflexivity).
  split; [exact H |].
  exact (X15_update_row (Demo.env Sqlite3 Demo.no_fault) "hello-world"
           Demo.alice Demo.no_fields Demo.world _ _ Demo.hello eq_refl H).
Defined.

(* ===================================================================== *)
(** * Further properties: create, the schemas come first                  *)
(* ===================================================================== *)

Lemma Forall2_left {A B} (Q : A -> B -> Prop) l l' x :
  Forall2 Q l l' -> In x l -> exists y, In y l' /\ Q x y.
Proof.
  intros H. induction H as [|a b l l' Hab _ IH]; simpl; [tauto |].
  intros [<- | Hx]; [eauto |].
  destruct (IH Hx) as (y & Hy & Hq). eauto.
Qed.

(** The tags of a create request do not come out of the schemas when the
    schema of the tags refuses one of the names. *)
Lemma tags_of_refused E v names n w w0 tags :
  Article.tagList v = Some names -> In n names ->
  (forall i, exists e, validate_tag E (Tag.mk i n) = inl e) ->
  tags_of E v w = (w0, Ok tags) -> False.
Proof.
  intros Hv Hn Hbad H. unfold tags_of in H. rewrite Hv in H.
  destruct names as [|n0 names]; [contradiction |].
  apply bind_inv_ok in H. destruct H as (w1 & ts & Hnew & H).
  apply bind_inv_ok in H. destruct H as (w2 & vs & Hval & _).
  assert (HF : Forall2 (fun n t => Tag.name t = n) (n0 :: names) ts).
  { eapply map_m_ok; [| exact Hnew].
    intros x wa wb y Hy. apply bind_inv_ok in Hy.
    destruct Hy as (wc & id & _ & Hy). inversion Hy; reflexivity. }
  assert (HG : Forall2 (fun t v => validate_tag E t = inr v) ts vs).
  { eapply map_m_ok; [| exact Hval].
    intros x wa wb y Hy. apply lift_inv in Hy.
    destruct Hy as (_ & [(a & Ha & Hy) | (e & Hy)]); [| discriminate].
    inversion Hy; subst. exact Ha. }
  destruct (Forall2_left _ _ _ _ HF Hn) as (t & Ht & Hname).
  destruct (Forall2_left _ _ _ _ HG Ht) as (t' & _ & Hok).
  destruct (Hbad (Tag.id t)) as (e & He).
  destruct t as [i m]. simpl in *. subst m. congruence.
Qed.

Lemma respond_throw (m : M Body) w w' e r :
  m w = (w', Throw e) -> respond m w = (w', r) -> r = Throw e.
Proof. unfold respond. intros ->. intros H. inversion H. reflexivity. Qed.

(** X16.  A create request validates before it writes: when the schema of
    the articles refuses the payload, that error is the result; when the
    schema of the tags refuses one name of the validated tag list, the
    request fails; in both cases no statement was sent, not even the insert
    of the article, and the rows are those of before. *)
Theorem X16_create_validates_first E user payload w w' r :
  serve E (Create user payload) w = (w', r) ->
  (forall e,
      validate_article E
        (draft_of_payload payload (uuid_at E (drawn w)) (User.id user))
      = inl e ->
      r = Throw e /\ log w' = log w /\ db w' = db w)
  /\ (forall v names n,
         validate_article E
           (draft_of_payload payload (uuid_at E (drawn w)) (User.id user))
         = inr v ->
         Article.tagList v = Some names -> In n names ->
         (forall i, exists e, validate_tag E (Tag.mk i n) = inl e) ->
         (exists e, r = Throw e) /\ log w' = log w /\ db w' = db w).
Proof.
  intros H. unfold serve in H.
  destruct (respond_db _ _ _ _ H) as (r' & Hr). simpl in Hr.
  destruct (post_inv _ _ _ _ _ _ Hr)
    as [(Hl & Hd & e0 & ->)
       | (v' & w0 & tags & w1 & ri & Hv' & Htags & _)].
  - pose proof (respond_throw _ _ _ _ _ Hr H) as ->. split.
    + intros e He. unfold post, bind, uuid in Hr. rewrite He in Hr.
      simpl in Hr. inversion Hr; subst. auto.
    + intros. eauto.
  - split.
    + intros e He. rewrite He in Hv'. discriminate.
    + intros v names n Hv Htl Hn Hbad. exfalso.
      rewrite Hv in Hv'. inversion Hv'; subst v'.
      exact (tags_of_refused _ _ _ _ _ _ _ Htl Hn Hbad Htags).
Qed.

Lemma X16_create_validates_first_witness :
  exists w' r,
    serve (Demo.env Sqlite3 Demo.no_fault)
      (Create Demo.carol (Demo.new_article "Third" (Some ["a"; ""])))
      Demo.world = (w', r)
    /\ (exists e, r = Throw e)
    /\ log w' = log Demo.world /\ db w' = db Demo.world.
Proof.
  destruct (serve (Demo.env Sqlite3 Demo.no_fault)
              (Create Demo.carol (Demo.new_article "Third" (Some ["a"; ""])))
              Demo.world) as [w' r] eqn:H.
  exists w', r. split; [reflexivity |].
  refine (proj2 (X16_create_validates_first
                   (Demo.env Sqlite3 Demo.no_fault) Demo.carol
                   (Demo.new_article "Third" (Some ["a"; ""]))
                   Demo.world w' r H) _ ["a"; ""] "" eq_refl eq_refl _ _).
  - simpl. auto.
  - intros i. eexists. reflexivity.
Defined.

(* ===================================================================== *)
(** * Further properties: create takes nothing back                       *)
(* ===================================================================== *)

Lemma grown_refl st : grown st st.
Proof. repeat split; auto. Qed.

Lemma grown_trans a b c : grown a b -> grown b c -> grown a c.
Proof.
  intros (A1 & T1 & R1) (A2 & T2 & R2). repeat split; auto.
Qed.

Lemma inserted_grown s st st' : grown st st' -> inserted s st -> inserted s st'.
Proof.
  intros (Ha & Ht & Hr). destruct s; simpl; auto.
Qed.

Lemma keeps_inserts_refl w : keeps_inserts w w.
Proof.
  split; [apply grown_refl |]. exists []. rewrite app_nil_r. auto.
Qed.

Lemma keeps_inserts_trans a b c :
  keeps_inserts a b -> keeps_inserts b c -> keeps_inserts a c.
Proof.
  intros (G1 & t1 & L1 & F1) (G2 & t2 & L2 & F2).
  split; [eapply grown_trans; eauto |].
  exists (t1 ++ t2). rewrite L2, L1, app_assoc. split; [reflexivity |].
  apply Forall_app. split; [| exact F2].
  eapply Forall_impl; [| exact F1].
  intros e He Ha. eapply inserted_grown; eauto.
Qed.

#[export] Hint Resolve keeps_inserts_refl keeps_inserts_trans : rel.

Lemma keeps_silent w w' :
  db w' = db w -> log w' = log w -> keeps_inserts w w'.
Proof.
  intros Hd Hl. split; [rewrite Hd; apply grown_refl |].
  exists []. rewrite app_nil_r. auto.
Qed.

Lemma insert_step d s st st' :
  insert_or_select s -> apply_stmt d s st = inr st' ->
  grown st st' /\ inserted s st'.
Proof.
  intros Hs H. destruct s; simpl in Hs, H; try discriminate;
    try (inversion H; subst; split; [apply grown_refl | exact I]).
  - destruct (_ <? _)%nat; inversion H; subst. simpl.
    split; [| apply in_or_app; simpl; auto].
    repeat split; simpl; auto. intros x Hx. apply in_or_app. auto.
  - destruct (existsb _ (tags st)); inversion H; subst. simpl.
    split; [| apply in_or_app; simpl; auto].
    repeat split; simpl; auto. intros x Hx. apply in_or_app. auto.
  - inversion H; subst. simpl.
    split; [| intros r Hr; apply in_or_app; auto].
    repeat split; simpl; auto. intros x Hx. apply in_or_app. auto.
Qed.

Lemma keeps_issue E s :
  insert_or_select s -> respects keeps_inserts (issue E s).
Proof.
  intros Hs w w' r H.
  destruct (issue_inv _ _ _ _ _ H)
    as (_ & _ & [(st & Ha & _ & _ & Hdb & Hl) | (e & _ & Hdb & Hl & _)]).
  - destruct (insert_step _ _ _ _ Hs Ha) as (Hg & Hi). subst st.
    split; [exact Hg |].
    exists [mkEvent s None]. split; [exact Hl |].
    constructor; [intros _; exact Hi | constructor].
  - split; [rewrite Hdb; apply grown_refl |].
    exists [mkEvent s (Some e)]. split; [exact Hl |].
    constructor; [discriminate | constructor].
Qed.

Ltac keeps_leaf :=
  first [ apply keeps_issue; first [exact I | reflexivity]
        | intros ? ? ? Hrun; inversion Hrun; subst;
            apply keeps_silent; reflexivity
        ].

Lemma keeps_read {A} E s (f : Store -> A) :
  is_mutation s = false -> respects keeps_inserts (read E s f).
Proof.
  intros Hs. unfold read.
  apply respects_bind; [rel_side | |].
  - apply keeps_issue. destruct s; simpl in *; try discriminate; auto.
  - intros _ w w' r H. inversion H; subst. apply keeps_inserts_refl.
Qed.

Lemma keeps_insert_tags E ts : respects keeps_inserts (insert_tags E ts).
Proof.
  induction ts as [|t ts IH]; simpl.
  - repeat respects_step keeps_leaf.
  - apply respects_bind; [rel_side | | intros _; exact IH].
    repeat respects_step keeps_leaf.
Qed.

Lemma keeps_link_tags E ts i : respects keeps_inserts (link_tags E ts i).
Proof.
  unfold link_tags, new_relations.
  repeat respects_step
    ltac:(first [apply keeps_insert_tags
                | apply keeps_read; reflexivity
                | keeps_leaf]).
Qed.

Lemma keeps_post E user payload : respects keeps_inserts (post E user payload).
Proof.
  unfold post, insert_article, new_tags, validate_tags.
  repeat respects_step ltac:(first [apply keeps_link_tags | keeps_leaf]).
Qed.

(** X17.  A create request takes nothing back: whatever its result, also
    when it fails after the insert of the article, the articles, the tags
    and the ArticleTag rows of before are still there, and so are the rows
    of every insert the store accepted during the request. *)
Theorem X17_create_takes_nothing_back E user payload w w' r :
  serve E (Create user payload) w = (w', r) ->
  grown (db w) (db w')
  /\ exists tr,
       log w' = log w ++ tr
       /\ forall e, In e tr -> answer e = None -> inserted (stmt e) (db w').
Proof.
  intros H. unfold serve in H.
  destruct (respond_db _ _ _ _ H) as (r' & Hr). simpl in Hr.
  destruct (keeps_post E user payload _ _ _ Hr) as (Hg & tr & Hl & Hf).
  split; [exact Hg |]. exists tr. split; [exact Hl |].
  rewrite Forall_forall in Hf. exact Hf.
Qed.

Lemma X17_create_takes_nothing_back_witness :
  exists w' e row,
    serve (Demo.env Sqlite3
             (fun n => if (n =? 1)%nat
                       then Some (mkDbError (Js.num 1) (Js.str "SQLITE_ERROR"))
                       else None))
      (Create Demo.carol (Demo.new_article "Third" (Some ["z"]))) Demo.world
    = (w', Throw e)
    /\ log w' = log Demo.world
                ++ [mkEvent (InsertArticle row) None;
                    mkEvent (InsertTag (Tag.mk (Demo.uuid_at 1) "z"))
                      (Some (mkDbError (Js.num 1) (Js.str "SQLITE_ERROR")))]
    /\ In row (articles (db w')).
Proof.
  do 3 eexists.
  assert (H : serve (Demo.env Sqlite3
                       (fun n => if (n =? 1)%nat
                                 then Some (mkDbError (Js.num 1)
                                              (Js.str "SQLITE_ERROR"))
                                 else None))
                (Create Demo.carol (Demo.new_article "Third" (Some ["z"])))
                Demo.world = (_, Throw _)) by (lazy; reflexivity).
  split; [exact H |].
  destruct (X17_create_takes_nothing_back _ _ _ _ _ _ H)
    as (_ & tr & Hl & Hf).
  split; [reflexivity |].
  simpl in Hl. subst tr.
  exact (Hf _ (or_introl eq_refl) eq_refl).
Defined.

(* ===================================================================== *)
(** * Further properties: create links every tag of the list              *)
(* ===================================================================== *)

(** Without injected errors, a loop over the tags that went through leaves
    a Tag row for the name of every tag of the list. *)
Lemma insert_tags_complete E ts w w' :
  (forall n, fault_at E n = None) ->
  insert_tags E ts w = (w', Ok tt) ->
  forall t, In t ts ->
    exists t', In t' (tags (db w')) /\ Tag.name t' = Tag.name t.
Proof.
  intros Hnf. revert w. induction ts as [|t0 ts IH]; intros w H t Ht;
    [contradiction |].
  simpl in H. apply bind_inv_ok in H. destruct H as (w1 & [] & Hc & Hrest).
  destruct Ht as [<- | Ht]; [| exact (IH _ Hrest _ Ht)].
  assert (Hnow : exists t', In t' (tags (db w1)) /\ Tag.name t' = Tag.name t0).
  { apply catch_inv in Hc.
    destruct Hc as [(a & Hi & _) | (w2 & e & Hi & Hh)].
    - destruct a. apply issue_ok in Hi. simpl in Hi.
      destruct (existsb _ (tags (db w))); [discriminate |].
      inversion Hi as [Hd]. exists t0. simpl.
      split; [apply in_or_app; simpl; auto | reflexivity].
    - destruct (issue_inv _ _ _ _ _ Hi)
        as (_ & _ & [(st & _ & _ & He & _)
                    | (err & He & Hd & _ & [Hf | (_ & Ha)])]);
        [discriminate | rewrite Hnf in Hf; discriminate |].
      assert (w1 = w2) as ->.
      { inversion He; subst e. simpl in Hh. unfold assert in Hh.
        destruct (is_unique_violation err); inversion Hh; reflexivity. }
      simpl in Ha.
      destruct (existsb (fun x => Tag.name x =? Tag.name t0) (tags (db w)))
        eqn:Hex; [| discriminate].
      apply existsb_exists in Hex. destruct Hex as (x & Hx & Hn).
      apply String.eqb_eq in Hn. exists x. rewrite Hd. auto. }
  destruct Hnow as (t' & Hin & Hn).
  destruct (kept_insert_tags E ts _ _ _ Hrest) as ((_ & _ & l & Hl) & _).
  exists t'. rewrite Hl. split; [apply in_or_app; auto | exact Hn].
Qed.

(** Without injected errors, a tag block that went through has linked the
    article to a Tag row for the name of every tag of the list. *)
Lemma link_tags_complete E ts a w w' :
  (forall n, fault_at E n = None) ->
  link_tags E ts a w = (w', Ok tt) ->
  forall t, In t ts ->
    exists t' r,
      In t' (tags (db w')) /\ Tag.name t' = Tag.name t
      /\ In r (articles_tags (db w'))
      /\ ArticleTag.tag r = Tag.id t' /\ ArticleTag.article r = a.
Proof.
  unfold link_tags. intros Hnf H t Ht.
  apply bind_inv_ok in H. destruct H as (w1 & [] & Hloop & H).
  destruct (insert_tags_complete _ _ _ _ Hnf Hloop _ Ht) as (t' & Hin & Hn).
  apply bind_inv_ok in H. destruct H as (w2 & found & Hread & H).
  apply read_ok in Hread; [| reflexivity].
  destruct Hread as (-> & Hd2 & _).
  apply bind_inv_ok in H. destruct H as (w3 & rels & Hrel & H).
  assert (Hd3 : db w3 = db w2).
  { eapply (fun Hm : respects same_log (new_relations E _ a) =>
              proj2 (Hm _ _ _ Hrel)).
    unfold new_relations. repeat respects_step log_leaf. }
  apply new_relations_ok in Hrel.
  apply issue_ok in H. simpl in H. injection H as Hdb.
  assert (Hf : In t' (rows_tags_by_name (db w1) (map Tag.name ts))).
  { unfold rows_tags_by_name. apply filter_In. split; [exact Hin |].
    apply In_mem. rewrite Hn. apply in_map. exact Ht. }
  destruct (Forall2_left _ _ _ _ Hrel Hf) as (r & Hr & Htag & Ha).
  exists t', r. rewrite <- Hdb. simpl. rewrite Hd3, Hd2.
  split; [exact Hin |]. split; [exact Hn |].
  split; [apply in_or_app; auto | auto].
Qed.

(** X18.  A create request that was answered, the store injecting no error
    and the schema of the tags leaving the names as they are: for every name
    of the validated tag list there is a Tag row of that name and an
    ArticleTag row that links it to the new article. *)
Theorem X18_create_links_every_tag E user payload v names w w' j :
  (forall n, fault_at E n = None) ->
  (forall t t', validate_tag E t = inr t' -> Tag.name t' = Tag.name t) ->
  validate_article E
    (draft_of_payload payload (uuid_at E (drawn w)) (User.id user)) = inr v ->
  Article.tagList v = Some names ->
  serve E (Create user payload) w = (w', Ok j) ->
  forall n, In n names ->
    exists t r,
      In t (tags (db w')) /\ Tag.name t = n
      /\ In r (articles_tags (db w'))
      /\ ArticleTag.tag r = Tag.id t
      /\ ArticleTag.article r = Article.id (Article.columns v).
Proof.
  intros Hnf Hk Hv Hnames H n Hn. unfold serve, handle, respond in H.
  destruct (post E user payload w) as [wp [b|e]] eqn:Hp; [| discriminate].
  assert (w' = wp) as ->.
  { destruct (render (heap wp) b); inversion H; reflexivity. }
  clear H.
  destruct (post_inv _ _ _ _ _ _ Hp)
    as [(_ & _ & e & He)
       | (v' & w0 & tags & w1 & ri & Hv' & Htags & _ & _ & Hi & Hcont)];
    [discriminate |].
  rewrite Hv in Hv'. inversion Hv'; subst v'; clear Hv'.
  assert (Hne : names <> []) by (intros ->; contradiction).
  destruct (tags_of_names _ _ _ _ _ _ Hk Hnames Hne Htags)
    as (t & ts & -> & Hmap).
  destruct Hcont as [(_ & e & _ & He)
                    | (row1 & w2 & rl & -> & Hb & _ & Hd2 & Hres)];
    [discriminate |].
  destruct Hres as [(e & _ & He) | (-> & _)]; [discriminate |].
  simpl tags_block in Hb.
  rewrite <- Hmap in Hn. apply in_map_iff in Hn.
  destruct Hn as (t0 & <- & Ht0).
  destruct (link_tags_complete _ _ _ _ _ Hnf Hb _ Ht0)
    as (t' & r & Hin & Hname & Hr & Htag & Ha).
  exists t', r. rewrite Hd2.
  rewrite (insert_article_id _ _ _ _ _ Hi) in Ha. auto.
Qed.

Lemma X18_create_links_every_tag_witness :
  exists w' j,
    serve (Demo.env Sqlite3 Demo.no_fault)
      (Create Demo.carol (Demo.new_article "Third" (Some ["a"; "z"])))
      Demo.world = (w', Ok j)
    /\ exists t r,
         In t (tags (db w')) /\ Tag.name t = "z"
         /\ In r (articles_tags (db w'))
         /\ ArticleTag.tag r = Tag.id t
         /\ ArticleTag.article r = Demo.uuid_at 0.
Proof.
  do 2 eexists.
  assert (H : serve (Demo.env Sqlite3 Demo.no_fault)
                (Create Demo.carol (Demo.new_article "Third" (Some ["a"; "z"])))
                Demo.world = (_, Ok _)) by (lazy; reflexivity).
  split; [exact H |].
  refine (X18_create_links_every_tag (Demo.env Sqlite3 Demo.no_fault)
            Demo.carol (Demo.new_article "Third" (Some ["a"; "z"]))
            _ ["a"; "z"] Demo.world _ _ (fun _ => eq_refl) _ eq_refl eq_refl
            H "z" _).
  - intros t t'. unfold Demo.env, Demo.validate_tag. simpl.
    destruct (Tag.name t =? ""); intros Ht; inversion Ht; reflexivity.
  - simpl. auto.
Defined.

(* ===================================================================== *)
(** * Further properties: update with a tag list                          *)
(* ===================================================================== *)




(* ===================================================================== *)
(** * Further properties: the seed of the users                           *)
(* ===================================================================== *)

Lemma accounts_emails g k us :
  map Seeds.a_email (Seeds.accounts g k us) = map Seeds.email_of us.
Proof.
  revert k. induction us as [|u us IH]; intros k; simpl; [reflexivity |].
  rewrite IH. reflexivity.
Qed.

Lemma accounts_identity g g' k k' us :
  map Seeds.identity (Seeds.accounts g k us)
  = map Seeds.identity (Seeds.accounts g' k' us).
Proof.
  revert k k'. induction us as [|u us IH]; intros k k'; simpl;
    [reflexivity |].
  rewrite (IH (S k) (S k')). reflexivity.
Qed.

Lemma others_of_seeded g us :
  Seeds.others us (Seeds.getUsers g us) = [].
Proof.
  unfold Seeds.others, Seeds.getUsers.
  assert (H : forall a, In a (Seeds.accounts g 0 us) ->
                        mem (Seeds.a_email a) (map Seeds.email_of us) = true).
  { intros a Ha. apply In_mem. rewrite <- (accounts_emails g 0 us).
    apply in_map. exact Ha. }
  induction (Seeds.accounts g 0 us) as [|a l IH]; simpl; [reflexivity |].
  rewrite (H a) by (left; reflexivity). simpl.
  apply IH. intros b Hb. apply H. right. exact Hb.
Qed.

Lemma others_idem us table :
  Seeds.others us (Seeds.others us table) = Seeds.others us table.
Proof.
  unfold Seeds.others. induction table as [|a l IH]; simpl; [reflexivity |].
  destruct (negb (mem (Seeds.a_email a) (map Seeds.email_of us))) eqn:Ha;
    simpl; [rewrite Ha, IH; reflexivity | exact IH].
Qed.

(** X20.  The seed of the users, in production: whether or not the insert
    goes in, the accounts whose email is not one of the seed are those of
    before, in their order; when it goes in, the accounts of the seed are
    the last rows of the table, one per entry, in the order of the list.
    Out of production nothing of the table of before is left. *)
Theorem X20_seed_keeps_the_others accepts g us table table' ok :
  (Seeds.seed accepts g true us table = (table', ok) ->
   Seeds.others us table' = Seeds.others us table
   /\ (ok = true ->
       table' = Seeds.others us table ++ Seeds.getUsers g us
       /\ map Seeds.a_email (Seeds.getUsers g us) = map Seeds.email_of us))
  /\ (Seeds.seed accepts g false us table = (table', ok) ->
      table' = if ok then Seeds.getUsers g us else []).
Proof.
  unfold Seeds.seed. split; intros H.
  - change (Seeds.del_where_email (map Seeds.email_of us) table)
      with (Seeds.others us table) in H.
    destruct (accepts (Seeds.others us table) (Seeds.getUsers g us));
      inversion H; subst; clear H.
    + split.
      * unfold Seeds.others at 1. rewrite filter_app.
        fold (Seeds.others us (Seeds.others us table)).
        fold (Seeds.others us (Seeds.getUsers g us)).
        rewrite others_idem, others_of_seeded, app_nil_r. reflexivity.
      * intros _. split; [reflexivity | apply accounts_emails].
    + split; [apply others_idem | discriminate].
  - destruct (accepts [] (Seeds.getUsers g us)); inversion H; reflexivity.
Qed.

Lemma X20_seed_keeps_the_others_witness :
  exists table',
    Seeds.seed (fun _ _ => true)
      (Seeds.mkGen (fun k p => p) (fun k => "") (fun k => ""))
      true Seeds.users
      [Seeds.mkAccount "u-1" "ann@example.org" "ann" "h" "" "" "t" "t";
       Seeds.mkAccount "u-2" "john@jacob.com" "old" "h" "" "" "t" "t"]
    = (table', true)
    /\ Seeds.others Seeds.users table'
       = [Seeds.mkAccount "u-1" "ann@example.org" "ann" "h" "" "" "t" "t"].
Proof.
  eexists.
  assert (H : Seeds.seed (fun _ _ => true)
                (Seeds.mkGen (fun k p => p) (fun k => "") (fun k => ""))
                true Seeds.users
                [Seeds.mkAccount "u-1" "ann@example.org" "ann" "h" "" "" "t"
                   "t";
                 Seeds.mkAccount "u-2" "john@jacob.com" "old" "h" "" "" "t"
                   "t"]
              = (_, true)) by reflexivity.
  split; [exact H |].
  exact (proj1 (proj1 (X20_seed_keeps_the_others _ _ _ _ _ true) H)).
Defined.

(** X21.  Seeding twice is seeding once, the generated columns apart: after
    two seeds in a row whose inserts went in, in production or not and
    whatever the hashes, sentences and times of the second, the ids, emails,
    usernames and images of the table are those after the first seed. *)
Theorem X21_seed_twice accepts g g' production us table t1 t2 :
  Seeds.seed accepts g production us table = (t1, true) ->
  Seeds.seed accepts g' production us t1 = (t2, true) ->
  map Seeds.identity t2 = map Seeds.identity t1.
Proof.
  unfold Seeds.seed. intros H1 H2.
  destruct production.
  - change (Seeds.del_where_email (map Seeds.email_of us))
      with (Seeds.others us) in *.
    destruct (accepts (Seeds.others us table) (Seeds.getUsers g us));
      inversion H1; subst t1; clear H1.
    destruct (accepts _ (Seeds.getUsers g' us)); inversion H2; subst t2;
      clear H2.
    unfold Seeds.others at 1. rewrite filter_app.
    fold (Seeds.others us (Seeds.others us table)).
    fold (Seeds.others us (Seeds.getUsers g us)).
    rewrite others_idem, others_of_seeded, app_nil_r, !map_app.
    f_equal. apply accounts_identity.
  - destruct (accepts [] (Seeds.getUsers g us)); inversion H1; subst t1.
    destruct (accepts [] (Seeds.getUsers g' us)); inversion H2; subst t2.
    apply accounts_identity.
Qed.

Lemma X21_seed_twice_witness :
  exists t1 t2,
    Seeds.seed (fun _ _ => true)
      (Seeds.mkGen (fun k p => p) (fun k => "") (fun k => ""))
      true Seeds.users [] = (t1, true)
    /\ Seeds.seed (fun _ _ => true)
         (Seeds.mkGen (fun k p => String "$" p) (fun k => "lorem")
            (fun k => "later"))
         true Seeds.users t1 = (t2, true)
    /\ map Seeds.identity t2 = map Seeds.identity t1.
Proof.
  do 2 eexists.
  assert (H1 : Seeds.seed (fun _ _ => true)
                 (Seeds.mkGen (fun k p => p) (fun k => "") (fun k => ""))
                 true Seeds.users [] = (_, true)) by reflexivity.
  split; [exact H1 |].
  match goal with
  | |- Seeds.seed ?acc ?gg ?p ?us ?t1 = _ /\ _ =>
      assert (H2 : Seeds.seed acc gg p us t1 = (_, true)) by reflexivity
  end.
  split; [exact H2 |].
  exact (X21_seed_twice _ _ _ _ _ _ _ _ H1 H2).
Defined.

(* ===================================================================== *)
(** * Further properties: favorite and unfavorite, the response           *)
(* ===================================================================== *)

Lemma loaded_counter st slug user l p o row :
  loaded st slug user l = Some (p, o) ->
  first_article st slug = Some row ->
  Article.v_favorites_count (article p) = Article.favorites_count row.
Proof.
  unfold loaded. intros H Hrow. rewrite Hrow in H.
  destruct (first_user st (Article.author row)); [| discriminate].
  inversion H; subst; reflexivity.
Qed.

(** X22.  The response of a favorite or an unfavorite that was answered
    shows the article as the store now has it: [favorited] is true after a
    favorite and false after an unfavorite, and the counter shown is the
    counter of the row the slug now names. *)
Theorem X22_favorite_response E req slug user w w' a :
  (req = Favorite slug user \/ req = Unfavorite slug user) ->
  serve E req w = (w', Ok (JsonArticle a)) ->
  Article.v_favorited a
  = (match req with Favorite _ _ => true | _ => false end)
  /\ exists row',
       first_article (db w') slug = Some row'
       /\ Article.v_favorites_count a = Article.favorites_count row'.
Proof.
  intros Hreq H.
  assert (Hrow : exists row, first_article (db w) slug = Some row).
  { apply (answered_has_row E req slug w w' (JsonArticle a)); [| exact H].
    destruct Hreq as [-> | ->]; reflexivity. }
  destruct Hrow as (row & Hrow).
  destruct Hreq as [-> | ->].
  - pose proof (favorite_rows _ _ _ _ _ _ _ Hrow H) as Hdb.
    unfold serve, handle in H.
    destruct (respond_bySlug _ _ _ _ _ _ _ (heap_favorite_post E user)
                (refers_favorite_post E user) H)
      as (wl & p & o & wh & b & _ & Hl & _ & _ & _ & Hrun & _ & _ & _ & _
          & Hj).
    pose proof (loaded_favorited _ _ _ _ _ _ Hl) as Hfav.
    pose proof (loaded_counter _ _ _ _ _ _ _ Hl Hrow) as Hcount.
    unfold favorite_post in Hrun. rewrite <- Hfav in Hdb.
    destruct (Article.v_favorited (article p)) eqn:Hv.
    + inversion Hrun; subst wh b. simpl in Hj.
      inversion Hj; subst a; clear Hj. simpl.
      split; [exact Hv |]. exists row. rewrite Hdb. auto.
    + apply bind_inv_ok in Hrun. destruct Hrun as (wu & id & _ & Hrun).
      apply bind_inv_ok in Hrun. destruct Hrun as (wp & [] & _ & Hrun).
      inversion Hrun; subst wh b. simpl in Hj.
      inversion Hj; subst a; clear Hj. simpl.
      split; [reflexivity |]. exists (Article.bump 1 row). split.
      * rewrite Hdb. unfold favorited_rows. rewrite first_article_bumped.
        rewrite Hrow. simpl. rewrite String.eqb_refl. reflexivity.
      * simpl. rewrite Hcount. reflexivity.
  - pose proof (unfavorite_rows _ _ _ _ _ _ _ Hrow H) as Hdb.
    unfold serve, handle in H.
    destruct (respond_bySlug _ _ _ _ _ _ _ (heap_favorite_del E user)
                (refers_favorite_del E user) H)
      as (wl & p & o & wh & b & _ & Hl & _ & _ & _ & Hrun & _ & _ & _ & _
          & Hj).
    pose proof (loaded_favorited _ _ _ _ _ _ Hl) as Hfav.
    pose proof (loaded_counter _ _ _ _ _ _ _ Hl Hrow) as Hcount.
    unfold favorite_del in Hrun. rewrite <- Hfav in Hdb.
    destruct (Article.v_favorited (article p)) eqn:Hv; cbn [negb] in Hrun.
    + apply bind_inv_ok in Hrun. destruct Hrun as (wp & [] & _ & Hrun).
      inversion Hrun; subst wh b. simpl in Hj.
      inversion Hj; subst a; clear Hj. simpl.
      split; [reflexivity |]. exists (Article.bump (- (1)) row). split.
      * rewrite Hdb. unfold unfavorited_rows. rewrite first_article_bumped.
        rewrite Hrow. simpl. rewrite String.eqb_refl. reflexivity.
      * simpl. rewrite Hcount. reflexivity.
    + inversion Hrun; subst wh b. simpl in Hj.
      inversion Hj; subst a; clear Hj. simpl.
      split; [exact Hv |]. exists row. rewrite Hdb. auto.
Qed.

Lemma X22_favorite_response_witness :
  exists w' a,
    serve (Demo.env Sqlite3 Demo.no_fault) (Favorite "hello-world" Demo.carol)
      Demo.world = (w', Ok (JsonArticle a))
    /\ Article.v_favorited a = true
    /\ exists row',
         first_article (db w') "hello-world" = Some row'
         /\ Article.v_favorites_count a = Article.favorites_count row'.
Proof.
  do 2 eexists.
  assert (H : serve (Demo.env Sqlite3 Demo.no_fault)
                (Favorite "hello-world" Demo.carol) Demo.world
              = (_, Ok (JsonArticle _))) by (lazy; reflexivity).
  split; [exact H |].
  exact (X22_favorite_response (Demo.env Sqlite3 Demo.no_fault)
           (Favorite "hello-world" Demo.carol) "hello-world" Demo.carol
           Demo.world _ _ (or_introl eq_refl) H).
Defined.

(* ===================================================================== *)
(** * Further properties: the statements of a [Promise.all]               *)
(* ===================================================================== *)

(** Every statement of a [Promise.all] is sent, in order, whatever the
    answers; the whole ends well when every answer is good. *)
Lemma promise_all_issues E ss w w' r :
  promise_all (map (issue E) ss) w = (w', r) ->
  exists evs,
    log w' = log w ++ evs
    /\ map stmt evs = ss
    /\ (r = Ok tt <-> Forall (fun e => answer e = None) evs).
Proof.
  revert w w' r. induction ss as [|s ss IH]; intros w w' r H; simpl in H.
  - inversion H; subst. exists []. rewrite app_nil_r.
    split; [reflexivity |]. split; [reflexivity |]. split; auto.
  - destruct (issue E s w) as [w1 r1] eqn:H1.
    destruct (promise_all (map (issue E) ss) w1) as [w2 r2] eqn:H2.
    inversion H; subst w' r; clear H.
    destruct (IH _ _ _ H2) as (evs & Hl & Hs & Hok).
    destruct (issue_inv _ _ _ _ _ H1)
      as (_ & _ & [(st & _ & _ & -> & _ & Hl1) | (e & -> & _ & Hl1 & _)]).
    + exists (mkEvent s None :: evs). rewrite Hl, Hl1, <- app_assoc.
      split; [reflexivity |]. split; [simpl; congruence |].
      rewrite Hok. split; intros Hf.
      * constructor; [reflexivity | exact Hf].
      * inversion Hf; assumption.
    + exists (mkEvent s (Some e) :: evs). rewrite Hl, Hl1, <- app_assoc.
      split; [reflexivity |]. split; [simpl; congruence |].
      split; [discriminate |]. intros Hf. inversion Hf; discriminate.
Qed.

(** X23.  The three deletes of a delete request are all sent, in the order
    favorites, ArticleTag rows, article, whatever the store answers to each:
    a refused delete does not hold back the next ones.  The request is
    answered exactly when the three were accepted. *)
Theorem X23_delete_sends_all E slug user w wl p row w' r :
  load E slug (Some user) w = (wl, Ok p) ->
  first_article (db w) slug = Some row ->
  Article.author row = User.id user ->
  serve E (Delete slug user) w = (w', r) ->
  exists a1 a2 a3,
    log w'
    = log wl
      ++ [mkEvent (DeleteFavorites (User.id user) (Article.id row)) a1;
          mkEvent (DeleteArticleTags (Article.id row)) a2;
          mkEvent (DeleteArticle (Article.id row)) a3]
    /\ (r = Ok JsonEmpty <-> a1 = None /\ a2 = None /\ a3 = None).
Proof.
  intros Hload Hrow Hauth H.
  destruct (load_ok _ _ _ _ _ _ Hload) as (o & Hl & _ & _ & Hh1).
  destruct (loaded_author _ _ _ _ _ _ Hl) as (_ & Hv & _).
  destruct (loaded_owner _ _ _ _ _ _ _ Hl Hrow) as (Ho & Hid).
  unfold serve, handle, respond in H. rewrite bySlug_load in H.
  rewrite (bind_ok _ _ _ _ _ Hload) in H.
  assert (Hdel : del E user p wl
                 = (promise_all
                      (map (issue E)
                         [DeleteFavorites (User.id user) (Article.id row);
                          DeleteArticleTags (Article.id row);
                          DeleteArticle (Article.id row)]) ;;
                    ret BodyEmpty) wl).
  { unfold del. cbv zeta. rewrite Hid.
    unfold bind at 1, deref. rewrite Hh1, Hv, nth_error_last.
    unfold bind at 1, assert. rewrite Ho. unfold some_eqb.
    rewrite Hauth, String.eqb_refl. reflexivity. }
  unfold bind at 1 in H. rewrite Hdel in H. unfold bind at 1 in H.
  destruct (promise_all _ wl) as [w4 r4] eqn:Hp.
  destruct (promise_all_issues _ _ _ _ _ Hp) as (evs & Hlog & Hs & Hok).
  destruct evs as [|[s1 a1] [|[s2 a2] [|[s3 a3] [|? ?]]]]; try discriminate.
  simpl in Hs. inversion Hs; subst s1 s2 s3; clear Hs.
  exists a1, a2, a3.
  destruct r4 as [[]|e].
  - simpl in H. inversion H; subst w' r; clear H. simpl.
    split; [exact Hlog |]. split; [| reflexivity].
    intros _. destruct Hok as (Hok & _). specialize (Hok eq_refl).
    inversion Hok as [|? ? H1 Hok2]; subst.
    inversion Hok2 as [|? ? H2 Hok3]; subst.
    inversion Hok3 as [|? ? H3 _]; subst. auto.
  - inversion H; subst w' r; clear H.
    split; [exact Hlog |]. split; [discriminate |].
    intros (-> & -> & ->). destruct Hok as (_ & Hok).
    assert (Hc : Throw (A:=unit) e = Ok tt)
      by (apply Hok; repeat constructor).
    discriminate.
Qed.

Lemma X23_delete_sends_all_witness :
  exists wl p w' e,
    load (Demo.env Sqlite3
            (fun n => if (n =? 5)%nat
                      then Some (mkDbError (Js.num 1) (Js.str "SQLITE_ERROR"))
                      else None))
      "hello-world" (Some Demo.alice) Demo.world = (wl, Ok p)
    /\ serve (Demo.env Sqlite3
                (fun n => if (n =? 5)%nat
                          then Some (mkDbError (Js.num 1)
                                       (Js.str "SQLITE_ERROR"))
                          else None))
         (Delete "hello-world" Demo.alice) Demo.world = (w', Throw e)
    /\ exists a1 a2 a3,
         log w'
         = log wl
           ++ [mkEvent (DeleteFavorites "u-alice" "a-1") a1;
               mkEvent (DeleteArticleTags "a-1") a2;
               mkEvent (DeleteArticle "a-1") a3].
Proof.
  do 4 eexists.
  assert (H0 : load (Demo.env Sqlite3
                       (fun n => if (n =? 5)%nat
                                 then Some (mkDbError (Js.num 1)
                                              (Js.str "SQLITE_ERROR"))
                                 else None))
                 "hello-world" (Some Demo.alice) Demo.world = (_, Ok _))
    by (lazy; reflexivity).
  split; [exact H0 |].
  assert (H : serve (Demo.env Sqlite3
                       (fun n => if (n =? 5)%nat
                                 then Some (mkDbError (Js.num 1)
                                              (Js.str "SQLITE_ERROR"))
                                 else None))
                (Delete "hello-world" Demo.alice) Demo.world
              = (_, Throw _)) by (lazy; reflexivity).
  split; [exact H |].
  destruct (X23_delete_sends_all _ _ _ _ _ _ Demo.hello _ _ H0 eq_refl
              eq_refl H) as (a1 & a2 & a3 & Hlog & _).
  exists a1, a2, a3. exact Hlog.
Defined.

(* ===================================================================== *)
(** * Further properties: update, the statement and its one retry         *)
(* ===================================================================== *)

(** X24.  The [try]/[catch] around the update of the row sends the update
    once; it sends it a second time, under the slug with a suffix, exactly
    when the first was answered with a recognised unique violation (errno 19
    or code 23505); an unrecognised error of the first, or any error of the
    second, is the result, and the row returned is the row of the statement
    that went in. *)
Theorem X24_update_retried_once E row i w w1 r1 :
  update_article E row i w = (w1, r1) ->
  (r1 = Ok row /\ sent w w1 [mkEvent (UpdateArticle (picked row) i) None])
  \/ (exists err,
        r1 = Throw (StoreError err)
        /\ is_unique_violation err = false
        /\ sent w w1 [mkEvent (UpdateArticle (picked row) i) (Some err)])
  \/ (exists err row',
        row' = retried row (uuid_at E (drawn w))
        /\ is_unique_violation err = true
        /\ ((r1 = Ok row'
             /\ sent w w1 [mkEvent (UpdateArticle (picked row) i) (Some err);
                           mkEvent (UpdateArticle (picked row') i) None])
            \/ (exists err2,
                  r1 = Throw (StoreError err2)
                  /\ sent w w1
                       [mkEvent (UpdateArticle (picked row) i) (Some err);
                        mkEvent (UpdateArticle (picked row') i)
                          (Some err2)]))).
Proof.
  unfold update_article, sent. intros H.
  apply catch_inv in H. destruct H as [(a & H & ->) | (w2 & e & H & Hh)].
  - apply bind_inv_ok in H. destruct H as (w2 & [] & Hi & Hr).
    inversion Hr; subst; clear Hr.
    destruct (issue_inv _ _ _ _ _ Hi)
      as (_ & _ & [(st & _ & _ & _ & _ & Hl) | (e & He & _)]);
      [| discriminate].
    left. auto.
  - destruct (bind_inv _ _ _ _ _ H) as [(w3 & [] & Hi & Hr) | (e' & Hi & He)];
      [inversion Hr |].
    inversion He; subst e'; clear He.
    destruct (issue_inv _ _ _ _ _ Hi)
      as (Hn & _ & [(st & _ & _ & He & _) | (err & He & _ & Hl & _)]);
      [discriminate |].
    inversion He; subst e; clear He.
    simpl recognised in Hh.
    destruct (is_unique_violation err) eqn:Hu.
    + right. right. simpl assert in Hh. rewrite bind_ret_run in Hh.
      unfold bind at 1, uuid at 1 in Hh. rewrite Hn in Hh.
      exists err, (retried row (uuid_at E (drawn w))).
      split; [reflexivity |]. split; [exact Hu |].
      fold (retried row (uuid_at E (drawn w))) in Hh.
      destruct (bind_inv _ _ _ _ _ Hh) as [(w3 & [] & Hi2 & Hr)
                                          | (e2 & Hi2 & ->)].
      * inversion Hr; subst; clear Hr.
        destruct (issue_inv _ _ _ _ _ Hi2)
          as (_ & _ & [(st & _ & _ & _ & _ & Hl2) | (e & He & _)]);
          [| discriminate].
        left. split; [reflexivity |].
        rewrite Hl2. simpl. rewrite Hl, <- app_assoc. reflexivity.
      * destruct (issue_inv _ _ _ _ _ Hi2)
          as (_ & _ & [(st & _ & _ & He & _) | (err2 & He & _ & Hl2 & _)]);
          [discriminate |].
        inversion He; subst e2; clear He.
        right. exists err2. split; [reflexivity |].
        rewrite Hl2. simpl. rewrite Hl, <- app_assoc. reflexivity.
    + right. left. simpl in Hh. inversion Hh; subst. exists err. auto.
Qed.

Lemma X24_update_retried_once_witness :
  exists w1 row',
    update_article (Demo.env Postgres Demo.no_fault)
      (Article.with_slug "second-post" Demo.hello) "a-1" Demo.world
    = (w1, Ok row')
    /\ Article.slug row' = suffixed "second-post" (Demo.uuid_at 0)
    /\ List.length (log w1) = 2.
Proof.
  do 2 eexists.
  assert (H : update_article (Demo.env Postgres Demo.no_fault)
                (Article.with_slug "second-post" Demo.hello) "a-1" Demo.world
              = (_, Ok _)) by (lazy; reflexivity).
  split; [exact H |].
  destruct (X24_update_retried_once _ _ _ _ _ _ H)
    as [(_ & Hs) | [(err & Hc & _) | (err & row' & _ & _
                                      & [(_ & Hs) | (err2 & Hc & _)])]];
    try discriminate; unfold sent in Hs; simpl in Hs;
    (split; [reflexivity | rewrite Hs; reflexivity]).
Defined.
